(** * NanoClaw: agent runner and channel adapters

    A shallow embedding of the TypeScript sources

      - [src/channels/whatsapp.ts]  (class [WhatsAppChannel], and the
        agent runner [runContainerAgent] that follows it in the same file),
      - the Telegram adapter (class [TelegramChannel]),

    followed by the properties of the specification that are stated about
    them.  Strings are [string] (one character per code unit), JS objects
    used as dictionaries are [gmap string _] (their keys are JIDs, never
    the name of a member of [Object.prototype]), asynchronous code is a
    step function over the events the Node event loop can deliver. *)

From Stdlib Require Import ZArith Ascii String List Bool Lia.
From stdpp Require Import base option list gmap strings pretty.
Import ListNotations.

Local Open Scope Z_scope.

(** ** JavaScript string primitives used by the sources *)

Module Js.

(** [s.slice(n)] for [0 <= n]. *)
Fixpoint drop (n : nat) (s : string) : string :=
  match n, s with
  | O, _ => s
  | S n', String _ s' => drop n' s'
  | S _, EmptyString => EmptyString
  end.

(** [s.slice(0, n)] for [0 <= n]. *)
Fixpoint take (n : nat) (s : string) : string :=
  match n, s with
  | O, _ => EmptyString
  | S n', String c s' => String c (take n' s')
  | S _, EmptyString => EmptyString
  end.

(** [s.slice(a, b)] for [0 <= a] and [0 <= b]; empty when [b <= a]. *)
Definition slice (a b : nat) (s : string) : string :=
  take (b - a) (drop a s).

(** [s.indexOf(pat, from)]; [None] stands for [-1]. *)
Definition indexOf (pat : string) (from : nat) (s : string) : option nat :=
  String.index from pat s.

(** White space removed by [trim].  A string here is a sequence of code
    units below 256; of these [String.prototype.trim] removes U+0009 to
    U+000D, the space and the no-break space U+00A0 (its other white
    space, U+FEFF and the like, lies above 255). *)
Definition isSpace (c : ascii) : bool :=
  let n := nat_of_ascii c in
  ((9 <=? n)%nat && (n <=? 13)%nat) || (n =? 32)%nat || (n =? 160)%nat.

Fixpoint trimStart (s : string) : string :=
  match s with
  | String c s' => if isSpace c then trimStart s' else s
  | EmptyString => EmptyString
  end.

Fixpoint trimEnd (s : string) : string :=
  match s with
  | String c s' =>
      match trimEnd s' with
      | EmptyString => if isSpace c then EmptyString else String c EmptyString
      | r => String c r
      end
  | EmptyString => EmptyString
  end.

Definition trim (s : string) : string := trimEnd (trimStart s).

(** [s.split(sep)] for a one-character separator: never empty. *)
Fixpoint split (sep : ascii) (s : string) : list string :=
  match s with
  | EmptyString => [EmptyString]
  | String c s' =>
      if Ascii.eqb c sep then EmptyString :: split sep s'
      else match split sep s' with
           | x :: xs => String c x :: xs
           | [] => [String c EmptyString]
           end
  end.

(** [xs[0]] of a [split] result. *)
Definition first (xs : list string) : string := hd EmptyString xs.

(** [xs[xs.length - 1]] of a [split] result. *)
Definition lastOf (xs : list string) : string := List.last xs EmptyString.

Definition startsWith (p s : string) : bool := String.prefix p s.

Definition endsWith (suffix s : string) : bool :=
  (String.length suffix <=? String.length s)%nat
  && String.eqb (drop (String.length s - String.length suffix) s) suffix.

(** Truthiness of a string value. *)
Definition truthy (s : string) : bool := negb (String.eqb s EmptyString).

(** The names every plain object inherits from [Object.prototype]: under
    each of them [o[k]] finds a function (or, for [__proto__], the
    prototype), a truthy value, whether or not [o] has a key [k]. *)
Definition objectPrototypeMembers : list string :=
  ["constructor"; "__defineGetter__"; "__defineSetter__"; "hasOwnProperty";
   "__lookupGetter__"; "__lookupSetter__"; "isPrototypeOf"; "propertyIsEnumerable";
   "toString"; "valueOf"; "__proto__"; "toLocaleString"].

Definition inherited (k : string) : bool := existsb (String.eqb k) objectPrototypeMembers.

Definition LF : ascii := ascii_of_nat 10.
Definition dquote : string := String (ascii_of_nat 34) EmptyString.

End Js.

(** ** Framing protocol: the sentinel markers *)

Definition OUTPUT_START_MARKER : string := "---NANOCLAW_OUTPUT_START---".
Definition OUTPUT_END_MARKER : string := "---NANOCLAW_OUTPUT_END---".

(** ** The agent runner: [runContainerAgent] *)

Module AgentRunner.

(** *** Data model: [ContainerInput], [ContainerOutput] *)

Inductive Status := StatusSuccess | StatusError.
Inductive StreamType := Thinking | Text | Tool.

Record ContainerOutput := mkOutput {
  status : Status;
  result : option string;
  newSessionId : option string;
  error : option string;
  isPartial : option bool;
  streamType : option StreamType }.

Record ContainerInput := mkInput {
  prompt : string;
  sessionId : option string;
  groupFolder : string;
  chatJid : string;
  isMain : bool;
  isScheduledTask : option bool;
  secrets : option (gmap string string) }.

(** [input.secrets = v] and [delete input.secrets]. *)
Definition setSecrets (v : option (gmap string string)) (i : ContainerInput) : ContainerInput :=
  mkInput (prompt i) (sessionId i) (groupFolder i) (chatJid i) (isMain i)
          (isScheduledTask i) v.

(** What [JSON.parse] does on a payload: a value, or a thrown [SyntaxError]
    with its message.  A payload that parses to [null] makes the property
    accesses that follow throw inside the same [try]; it is [Throws] too. *)
Inductive ParseResult := Parsed (o : ContainerOutput) | Throws (message : string).

(** *** Framing: one marker pair of the streaming scanner

    [nextFrame buf] is one turn of the [while] loop of the stdout handler:
    the JSON text between the first start marker and the first end marker
    found from there, and the buffer that is left.  [None] when the loop
    stops (no start marker, or no end marker yet). *)
Definition nextFrame (buf : string) : option (string * string) :=
  match Js.indexOf OUTPUT_START_MARKER 0 buf with
  | None => None
  | Some startIdx =>
      match Js.indexOf OUTPUT_END_MARKER startIdx buf with
      | None => None
      | Some endIdx =>
          Some (Js.trim (Js.slice (startIdx + String.length OUTPUT_START_MARKER) endIdx buf),
                Js.drop (endIdx + String.length OUTPUT_END_MARKER) buf)
      end
  end.

(** All the frames of a buffer, and what stays buffered. *)
Fixpoint scanFuel (fuel : nat) (buf : string) : list string * string :=
  match fuel with
  | O => ([], buf)
  | S fuel' =>
      match nextFrame buf with
      | None => ([], buf)
      | Some (jsonStr, rest) =>
          let '(js, b) := scanFuel fuel' rest in (jsonStr :: js, b)
      end
  end.

Definition scan (buf : string) : list string * string :=
  scanFuel (S (String.length buf)) buf.

(** *** Legacy mode: the payload taken from the accumulated stdout *)

Definition lastLine (stdout : string) : string :=
  Js.lastOf (Js.split Js.LF (Js.trim stdout)).

Definition legacyJsonLine (stdout : string) : string :=
  match Js.indexOf OUTPUT_START_MARKER 0 stdout, Js.indexOf OUTPUT_END_MARKER 0 stdout with
  | Some startIdx, Some endIdx =>
      if (startIdx <? endIdx)%nat
      then Js.trim (Js.slice (startIdx + String.length OUTPUT_START_MARKER) endIdx stdout)
      else lastLine stdout
  | _, _ => lastLine stdout
  end.

Definition errorOutput (msg : string) : ContainerOutput :=
  mkOutput StatusError None None (Some msg) None None.

Definition legacyOutput (JSON_parse : string -> ParseResult) (stdout : string) : ContainerOutput :=
  match JSON_parse (legacyJsonLine stdout) with
  | Parsed output => output
  | Throws message => errorOutput ("Failed to parse agent output: " +:+ message)
  end.

(** The batch-mode rule as the specification words it: the payload of the
    last complete marker pair, or the final line when there is no pair. *)
Definition spec_batch_payload (stdout : string) : string :=
  match fst (scan stdout) with
  | [] => lastLine stdout
  | p :: ps => List.last ps p
  end.

Definition frame (json : string) : string :=
  OUTPUT_START_MARKER +:+ json +:+ OUTPUT_END_MARKER.

(** *** Configuration and invocation arguments

    [CONTAINER_MAX_OUTPUT_SIZE], [CONTAINER_TIMEOUT] and [IDLE_TIMEOUT] come
    from [config.ts], [readSecrets] from the [.env] file, [JSON_parse] is the
    built-in; all are parameters here.  [groupTimeout] is
    [group.containerConfig?.timeout], [onOutput] tells whether the caller
    passed a streaming callback, [isVerbose] whether [LOG_LEVEL] is [debug]
    or [trace], [settingsExist] whether the group's [settings.json] is
    already on disk. *)
Record Config := mkConfig {
  CONTAINER_MAX_OUTPUT_SIZE : nat;
  CONTAINER_TIMEOUT : Z;
  IDLE_TIMEOUT : Z;
  JSON_parse : string -> ParseResult;
  readSecrets : gmap string string;
  groupTimeout : option Z;
  onOutput : bool;
  isVerbose : bool;
  settingsExist : bool }.

(** *** The state of one invocation *)

Inductive Signal := SIGTERM | SIGKILL.

(** What [fs.writeFileSync] is given.  [JSON.stringify(input, null, 2)] is
    kept as the [ContainerInput] it serialises. *)
Inductive LogBody :=
| FullDump (input : ContainerInput) (stderr stdout : string)
| InputSummary (promptLength : nat) (session : string).

Inductive FileContent :=
| SettingsJson
| TimeoutLog (code : option Z) (hadStreaming : bool)
| RunLog (main : bool) (code : option Z) (stdoutTrunc stderrTrunc : bool) (body : LogBody).

(** A callback chained on [outputChain] with [then]. *)
Inductive Job :=
| Deliver (o : ContainerOutput)   (* [() => onOutput(parsed)] *)
| Resolve.                        (* [() => resolve({status: 'success', ...})] *)

Inductive Outcome := Fulfilled | Rejected.

Record Capture := mkCapture {
  stdout : string;
  stderr : string;
  stdoutTruncated : bool;
  stderrTruncated : bool }.

Record Stream := mkStream {
  parseBuffer : string;
  lastSessionId : option string;      (* the local [newSessionId] *)
  hadStreamingOutput : bool;
  parsedLog : list ContainerOutput }. (* every event parsed so far, in order *)

Record Timers := mkTimers {
  now : Z;
  timeout : option Z;                 (* when the armed timer is due *)
  forceKill : list Z;                 (* when the 15 s escalations are due *)
  timedOut : bool;
  killed : bool;                      (* [agent.killed] *)
  closed : bool;
  signals : list Signal }.

Record Chain := mkChain {
  jobs : list Job;                    (* [then] callbacks not yet run *)
  running : option ContainerOutput;   (* the [onOutput] call in progress *)
  rejected : bool;
  started : list ContainerOutput;     (* calls of [onOutput], in order *)
  finished : list ContainerOutput }.  (* calls whose promise fulfilled *)

Record Io := mkIo {
  input : ContainerInput;             (* the caller's object, mutated in place *)
  stdinWritten : list ContainerInput;
  disk : list FileContent }.

Record Run := mkRun {
  cap : Capture;
  strm : Stream;
  tmr : Timers;
  chain : Chain;
  io : Io;
  resolved : option ContainerOutput }.

Definition withCap (c : Capture) (s : Run) : Run :=
  mkRun c (strm s) (tmr s) (chain s) (io s) (resolved s).
Definition withStrm (x : Stream) (s : Run) : Run :=
  mkRun (cap s) x (tmr s) (chain s) (io s) (resolved s).
Definition withTmr (t : Timers) (s : Run) : Run :=
  mkRun (cap s) (strm s) t (chain s) (io s) (resolved s).
Definition withChain (c : Chain) (s : Run) : Run :=
  mkRun (cap s) (strm s) (tmr s) c (io s) (resolved s).
Definition withIo (x : Io) (s : Run) : Run :=
  mkRun (cap s) (strm s) (tmr s) (chain s) x (resolved s).

(** [resolve(r)]: only the first call settles the promise. *)
Definition firstWins (res : option ContainerOutput) (r : ContainerOutput) : option ContainerOutput :=
  match res with Some _ => res | None => Some r end.

Definition resolve (r : ContainerOutput) (s : Run) : Run :=
  mkRun (cap s) (strm s) (tmr s) (chain s) (io s) (firstWins (resolved s) r).

Definition writeFile (f : FileContent) (s : Run) : Run :=
  withIo (mkIo (input (io s)) (stdinWritten (io s)) (disk (io s) ++ [f])) s.

(** [outputChain = outputChain.then(job)]. *)
Definition chainThen (j : Job) (s : Run) : Run :=
  let c := chain s in
  withChain (mkChain (jobs c ++ [j]) (running c) (rejected c) (started c) (finished c)) s.

Section Runner.

Variable cfg : Config.

Definition configTimeout : Z :=
  match groupTimeout cfg with
  | Some t => if t =? 0 then CONTAINER_TIMEOUT cfg else t
  | None => CONTAINER_TIMEOUT cfg
  end.

Definition timeoutMs : Z := Z.max configTimeout (IDLE_TIMEOUT cfg + 30000).

(** The delay [setTimeout] works with: Node sets a delay above
    2147483647 ms, or below 1 ms, to 1 ms. *)
Definition setTimeoutDelay (delay : Z) : Z :=
  if (2147483647 <? delay) || (delay <? 1) then 1 else delay.

(** [clearTimeout(timeout)] and [timeout = setTimeout(killOnTimeout, timeoutMs)]. *)
Definition clearTimeout (s : Run) : Run :=
  let t := tmr s in
  withTmr (mkTimers (now t) None (forceKill t) (timedOut t) (killed t) (closed t) (signals t)) s.

Definition resetTimeout (s : Run) : Run :=
  let t := tmr s in
  withTmr (mkTimers (now t) (Some (now t + setTimeoutDelay timeoutMs)) (forceKill t)
                    (timedOut t) (killed t) (closed t) (signals t)) s.

(** [agent.kill(sig)]: the signal is sent, and [agent.killed] set, unless
    the process has already gone. *)
Definition kill (sig : Signal) (t : Timers) : Timers :=
  if closed t then t
  else mkTimers (now t) (timeout t) (forceKill t) (timedOut t) true (closed t)
                (signals t ++ [sig]).

(** [killOnTimeout], run when the timer armed for [due] fires. *)
Definition killOnTimeout (due : Z) (s : Run) : Run :=
  let t := tmr s in
  let t1 := mkTimers (now t) None (forceKill t) true (killed t) (closed t) (signals t) in
  let t2 := kill SIGTERM t1 in
  withTmr (mkTimers (now t2) (timeout t2) (forceKill t2 ++ [due + 15000]) (timedOut t2)
                    (killed t2) (closed t2) (signals t2)) s.

(** The escalation callback: [if (!agent.killed) agent.kill('SIGKILL')]. *)
Definition forceKillFires (t : Timers) : Timers :=
  if killed t then t else kill SIGKILL t.

Fixpoint fireForceKills (upto : Z) (due : list Z) (t : Timers) : Timers :=
  match due with
  | [] => t
  | d :: ds => fireForceKills upto ds (if d <=? upto then forceKillFires t else t)
  end.

(** [ms] milliseconds pass with no other event: the timers that fall due
    run.  The escalation callbacks change nothing once a signal has been
    sent, so their order relative to [killOnTimeout] is immaterial. *)
Definition elapse (ms : Z) (s : Run) : Run :=
  let upto := now (tmr s) + Z.max 0 ms in
  let s1 := match timeout (tmr s) with
            | Some due => if due <=? upto then killOnTimeout due s else s
            | None => s
            end in
  let t := tmr s1 in
  let t1 := fireForceKills upto (forceKill t) t in
  withTmr (mkTimers upto (timeout t1) (List.filter (fun d => upto <? d) (forceKill t1))
                    (timedOut t1) (killed t1) (closed t1) (signals t1)) s1.

(** Capture of one chunk on a stream, up to the ceiling.  The captured
    text never exceeds the ceiling, so [remaining] is not negative. *)
Definition capture (acc : string) (truncated : bool) (chunk : string) : string * bool :=
  if truncated then (acc, truncated)
  else
    let remaining := (CONTAINER_MAX_OUTPUT_SIZE cfg - String.length acc)%nat in
    if (remaining <? String.length chunk)%nat
    then (acc +:+ Js.take remaining chunk, true)
    else (acc +:+ chunk, false).

(** The body of the [try] in the scanner loop, for one extracted payload. *)
Definition onFrame (jsonStr : string) (s : Run) : Run :=
  match JSON_parse cfg jsonStr with
  | Parsed parsed =>
      let x := strm s in
      let sid := match newSessionId parsed with
                 | Some i => if Js.truthy i then Some i else lastSessionId x
                 | None => lastSessionId x
                 end in
      let s1 := withStrm (mkStream (parseBuffer x) sid true (parsedLog x ++ [parsed])) s in
      chainThen (Deliver parsed) (resetTimeout s1)
  | Throws _ => s
  end.

Fixpoint streamLoop (fuel : nat) (s : Run) : Run :=
  match fuel with
  | O => s
  | S fuel' =>
      match nextFrame (parseBuffer (strm s)) with
      | None => s
      | Some (jsonStr, rest) =>
          let x := strm s in
          let s1 := withStrm (mkStream rest (lastSessionId x) (hadStreamingOutput x)
                                       (parsedLog x)) s in
          streamLoop fuel' (onFrame jsonStr s1)
      end
  end.

(** The microtasks that run once a handler returns: the callbacks chained
    on [outputChain] run one by one while the chain is fulfilled; an
    [onOutput] call suspends the chain until its promise settles. *)
Definition successOutput (sid : option string) : ContainerOutput :=
  mkOutput StatusSuccess None sid None None None.

Fixpoint runJobs (sid : option string) (js : list Job) (res : option ContainerOutput)
  : list Job * option ContainerOutput * option ContainerOutput :=
  match js with
  | [] => ([], None, res)
  | Deliver o :: js' => (js', Some o, res)
  | Resolve :: js' => runJobs sid js' (firstWins res (successOutput sid))
  end.

Definition pump (s : Run) : Run :=
  let c := chain s in
  if rejected c then s
  else match running c with
       | Some _ => s
       | None =>
           let '(js, run, res) := runJobs (lastSessionId (strm s)) (jobs c) (resolved s) in
           let st := match run with Some o => started c ++ [o] | None => started c end in
           mkRun (cap s) (strm s) (tmr s) (mkChain js run false st (finished c)) (io s) res
       end.

Definition onStdoutData (chunk : string) (s : Run) : Run :=
  let c := cap s in
  let '(out, tr) := capture (stdout c) (stdoutTruncated c) chunk in
  let s1 := withCap (mkCapture out (stderr c) tr (stderrTruncated c)) s in
  if onOutput cfg then
    let x := strm s1 in
    let buf := parseBuffer x +:+ chunk in
    streamLoop (S (String.length buf))
      (withStrm (mkStream buf (lastSessionId x) (hadStreamingOutput x) (parsedLog x)) s1)
  else s1.

Definition onStderrData (chunk : string) (s : Run) : Run :=
  let c := cap s in
  let '(err, tr) := capture (stderr c) (stderrTruncated c) chunk in
  withCap (mkCapture (stdout c) err (stdoutTruncated c) tr) s.

(** The promise of the [onOutput] call in progress settles. *)
Definition onDeliverySettled (o : Outcome) (s : Run) : Run :=
  let c := chain s in
  match running c with
  | None => s
  | Some ev =>
      match o with
      | Fulfilled =>
          withChain (mkChain (jobs c) None (rejected c) (started c) (finished c ++ [ev])) s
      | Rejected =>
          withChain (mkChain (jobs c) None true (started c) (finished c)) s
      end
  end.

Definition showCode (code : option Z) : string :=
  match code with Some c => pretty c | None => "null" end.

Definition timeoutError : ContainerOutput :=
  errorOutput ("Agent timed out after " +:+ pretty configTimeout +:+ "ms").

Definition exitError (code : option Z) (s : Run) : ContainerOutput :=
  let e := stderr (cap s) in
  errorOutput ("Agent exited with code " +:+ showCode code +:+ ": "
               +:+ Js.drop (String.length e - 200) e).

(** The ['close'] handler. *)
Definition onClose (code : option Z) (s : Run) : Run :=
  let s0 := clearTimeout s in
  let t := tmr s0 in
  let s1 := withTmr (mkTimers (now t) (timeout t) (forceKill t) (timedOut t) (killed t)
                              true (signals t)) s0 in
  if timedOut (tmr s1) then
    let s2 := writeFile (TimeoutLog code (hadStreamingOutput (strm s1))) s1 in
    if hadStreamingOutput (strm s2)
    then chainThen Resolve s2
    else resolve timeoutError s2
  else
    let isError := negb (bool_decide (code = Some 0)) in
    let body :=
      if isVerbose cfg || isError
      then FullDump (input (io s1)) (stderr (cap s1)) (stdout (cap s1))
      else InputSummary (String.length (prompt (input (io s1))))
                        (match sessionId (input (io s1)) with
                         | Some i => if Js.truthy i then i else "new"
                         | None => "new"
                         end) in
    let s2 := writeFile (RunLog (isMain (input (io s1))) code (stdoutTruncated (cap s1))
                                (stderrTruncated (cap s1)) body) s1 in
    if isError then resolve (exitError code s2) s2
    else if onOutput cfg then chainThen Resolve s2
    else resolve (legacyOutput (JSON_parse cfg) (stdout (cap s2))) s2.

(** The ['error'] handler. *)
Definition onError (message : string) (s : Run) : Run :=
  resolve (errorOutput ("Agent spawn error: " +:+ message)) (clearTimeout s).

(** The events of a run.  A ['data'] event hands over a [Buffer] and the
    handler begins with [data.toString()], which decodes that buffer on
    its own: [chunk] is the decoded text. *)
Inductive Event :=
| StdoutData (chunk : string)
| StderrData (chunk : string)
| Elapse (ms : Z)
| DeliverySettled (o : Outcome)
| Close (code : option Z)
| SpawnError (message : string).

(** One turn of the event loop: the handler, then the pending microtasks. *)
Definition step (s : Run) (e : Event) : Run :=
  pump match e with
       | StdoutData chunk => onStdoutData chunk s
       | StderrData chunk => onStderrData chunk s
       | Elapse ms => elapse ms s
       | DeliverySettled o => onDeliverySettled o s
       | Close code => onClose code s
       | SpawnError message => onError message s
       end.

Definition run (s : Run) (tr : list Event) : Run := fold_left step tr s.

(** The three statements that pass the secrets to the worker:
    [input.secrets = readSecrets()], [agent.stdin.write(JSON.stringify(input))]
    and [delete input.secrets]. *)
Definition assignSecrets (x : Io) : Io :=
  mkIo (setSecrets (Some (readSecrets cfg)) (input x)) (stdinWritten x) (disk x).
Definition writeStdin (x : Io) : Io :=
  mkIo (input x) (stdinWritten x ++ [input x]) (disk x).
Definition deleteSecrets (x : Io) : Io :=
  mkIo (setSecrets None (input x)) (stdinWritten x) (disk x).

(** The state when the promise executor returns: the directories are
    prepared ([settings.json] written if it was missing; the skill files
    copied next to it are left out), the worker is spawned and given its
    input, the handlers are registered and the timer is armed.  Time is
    counted from the spawn. *)
Definition spawned (input0 : ContainerInput) : Run :=
  let prepared := mkIo input0 [] (if settingsExist cfg then [] else [SettingsJson]) in
  mkRun (mkCapture EmptyString EmptyString false false)
        (mkStream EmptyString None false [])
        (mkTimers 0 (Some (setTimeoutDelay timeoutMs)) [] false false false [])
        (mkChain [] None false [] [])
        (deleteSecrets (writeStdin (assignSecrets prepared)))
        None.

End Runner.

(** *** Observations on a trace and on a state

    The whole text the worker wrote on a stream, the events a list of
    payloads parses to, and the deliveries still waiting on the chain. *)
Fixpoint stdoutAll (tr : list Event) : string :=
  match tr with
  | [] => EmptyString
  | StdoutData chunk :: tr' => chunk +:+ stdoutAll tr'
  | _ :: tr' => stdoutAll tr'
  end.

Fixpoint stderrAll (tr : list Event) : string :=
  match tr with
  | [] => EmptyString
  | StderrData chunk :: tr' => chunk +:+ stderrAll tr'
  | _ :: tr' => stderrAll tr'
  end.

Definition parsedOf (parse : string -> ParseResult) (payloads : list string)
  : list ContainerOutput :=
  omap (fun j => match parse j with Parsed o => Some o | Throws _ => None end) payloads.

Definition deliveries (js : list Job) : list ContainerOutput :=
  omap (fun j => match j with Deliver o => Some o | Resolve => None end) js.

(** What one payload adds to the log of parsed events. *)
Definition parsedOne (cfg : Config) (j : string) : list ContainerOutput :=
  parsedOf (JSON_parse cfg) [j].




(** The events that can occur while the worker is still running. *)
Definition whileRunning (e : Event) : bool :=
  match e with Close _ | SpawnError _ => false | _ => true end.

(** The invariant of the timer while the worker runs: the timer is either
    armed, and due at most [timeoutMs] from now, or it has fired and the
    worker was sent [SIGTERM]. *)
Definition TimerInv (cfg : Config) (s : Run) : Prop :=
  closed (tmr s) = false
  /\ match timeout (tmr s) with
     | Some due => now (tmr s) < due <= now (tmr s) + setTimeoutDelay (timeoutMs cfg)
     | None => timedOut (tmr s) = true
     end
  /\ (timedOut (tmr s) = true -> In SIGTERM (signals (tmr s))).


(** While no event is parsed, the timer armed for [due] stays armed for
    [due], until it fires. *)
Definition Armed (due : Z) (s : Run) : Prop :=
  (timedOut (tmr s) = true /\ In SIGTERM (signals (tmr s)))
  \/ (timeout (tmr s) = Some due /\ now (tmr s) < due).


(** A file on disk holds no secrets: the one file that serialises the
    input serialises an input whose [secrets] field is absent. *)
Definition noSecretsOnDisk (f : FileContent) : Prop :=
  match f with
  | RunLog _ _ _ _ (FullDump i _ _) => secrets i = None
  | _ => True
  end.

(** *** Concrete documents for the examples

    [stringify o] is the JSON text of an output with plain-letter strings,
    and [parseAmong os] is [JSON.parse] restricted to the texts of [os]. *)
Definition quoted (x : string) : string := Js.dquote +:+ x +:+ Js.dquote.

Definition jsonField (name value : string) : string := quoted name +:+ ":" +:+ value.

Definition stringify (o : ContainerOutput) : string :=
  "{" +:+ jsonField "status" (quoted (match status o with
                                      | StatusSuccess => "success"
                                      | StatusError => "error"
                                      end))
      +:+ "," +:+ jsonField "result" (match result o with
                                      | Some r => quoted r
                                      | None => "null"
                                      end)
      +:+ match newSessionId o with
          | Some i => "," +:+ jsonField "newSessionId" (quoted i)
          | None => EmptyString
          end
      +:+ "}".

Definition parseAmong (os : list ContainerOutput) (txt : string) : ParseResult :=
  match List.find (fun o => String.eqb (stringify o) txt) os with
  | Some o => Parsed o
  | None => Throws "Unexpected token"
  end.

Definition say (r : string) : ContainerOutput :=
  mkOutput StatusSuccess (Some r) None None None None.

Definition sayIn (sid r : string) : ContainerOutput :=
  mkOutput StatusSuccess (Some r) (Some sid) None None None.

Definition demoInput : ContainerInput :=
  mkInput "hello" None "main" "1203@g.us" true None None.

Definition demoSecrets : gmap string string := {[ "ANTHROPIC_API_KEY" := "sk-demo" ]}.

(** Half an hour for both timeouts, the ceiling is an argument. *)
Definition demoConfig (ceiling : nat) (streaming : bool) (known : list ContainerOutput) : Config :=
  mkConfig ceiling 1800000 1800000 (parseAmong known) demoSecrets None streaming false true.



Definition chatty_config : Config := demoConfig 4096 true [say "one"].

Definition chatty_trace : list Event :=
  [Elapse 1000000; StdoutData (frame (stringify (say "one"))); DeliverySettled Fulfilled;
   Elapse 1000000; StdoutData (frame (stringify (say "one"))); DeliverySettled Fulfilled;
   Elapse 1000000; StdoutData (frame (stringify (say "one"))); DeliverySettled Fulfilled;
   Elapse 1000000].

Definition two_events_config : Config := demoConfig 4096 true [say "one"; say "two"].

Definition small_ceiling_config : Config := demoConfig 100 true [say "one"].

Definition within_ceiling_trace : list Event :=
  [StdoutData (frame (stringify (say "one"))); DeliverySettled Fulfilled; Close (Some 0)].

Definition over_ceiling_trace : list Event :=
  [StdoutData (frame (stringify (say "one")));
   StdoutData "0123456789012345678901234567890123456789";
   DeliverySettled Fulfilled; Close (Some 0)].

Definition legacy_config : Config := demoConfig 4096 false [say "first"; say "second"].

Definition two_pairs_stdout : string :=
  frame (stringify (say "first")) +:+ frame (stringify (say "second")).

End AgentRunner.

(** ** The WhatsApp channel: [WhatsAppChannel] *)

Module WhatsApp.

(** [ASSISTANT_HAS_OWN_NUMBER] and [ASSISTANT_NAME] come from [config.ts]. *)
Record Config := mkConfig {
  ASSISTANT_HAS_OWN_NUMBER : bool;
  ASSISTANT_NAME : string }.

(** *** Messages as Baileys hands them over (the fields the handler reads) *)

Record MessageKey := mkKey {
  remoteJid : option string;
  participant : option string;
  keyId : option string;               (* [key.id] *)
  fromMe : option bool }.

Record MessageContent := mkContent {
  conversation : option string;
  extendedText : option string;        (* [extendedTextMessage?.text] *)
  imageMessage : option (option string);   (* present, with its caption *)
  videoMessage : option (option string);
  audioPtt : bool }.                   (* [audioMessage?.ptt === true] *)

Record WAMessage := mkMessage {
  key : MessageKey;
  message : option MessageContent;
  pushName : option string;
  messageTimestamp : option Z }.       (* whole seconds; [None] when the field is
                                          [undefined]; a [null] counts as 0 *)

(** The [NewMessage] given to [onMessage].  The ISO timestamp is kept as
    the milliseconds it prints. *)
Record NewMessage := mkNew {
  id : string;
  chat_jid : string;
  sender : string;
  sender_name : string;
  content : string;
  timestamp : Z;
  is_from_me : bool;
  is_bot_message : bool }.

Record QueueItem := mkItem { jid : string; text : string }.

(** What leaves the channel: the two callbacks of [opts], and the contacts
    written to the database. *)
Inductive Effect :=
| OnChatMetadata (chatJid : string) (timestamp : Z)
| OnMessage (chatJid : string) (m : NewMessage)
| UpsertContact (jid notify : string).

(** What [signalRepository.lidMapping.getPNForLID] does when it is called:
    it resolves with a phone JID, resolves with nothing (or the repository
    is absent), or rejects. *)
Inductive Lookup := Found (pn : string) | NotFound | Failed.

(** What [transcribeAudioMessage] does: resolves with a transcript or
    [null], or rejects. *)
Inductive Transcription := Transcript (t : option string) | TranscriptionFails.

(** *** The channel object

    Besides the fields of the class, the state holds the calls of
    [sock.sendMessage] that have not settled yet, and logs of what the
    channel did: every item pushed on the queue, every item the drain
    handed to the socket, every call of the authoritative resolver and
    every effect. *)
Record Channel := mkChannel {
  connected : bool;
  lidToPhoneMap : gmap string string;
  outgoingQueue : list QueueItem;
  flushing : bool;
  recentImageMessages : gmap string WAMessage;
  directInFlight : list QueueItem;
  drainInFlight : option QueueItem;
  enqueued : list QueueItem;
  drained : list QueueItem;
  delivered : list QueueItem;
  resolverCalls : list string;
  effects : list Effect }.

Definition initial : Channel :=
  mkChannel false ∅ [] false ∅ [] None [] [] [] [] [].

Definition setConnected (b : bool) (c : Channel) : Channel :=
  mkChannel b (lidToPhoneMap c) (outgoingQueue c) (flushing c) (recentImageMessages c)
            (directInFlight c) (drainInFlight c) (enqueued c) (drained c) (delivered c)
            (resolverCalls c) (effects c).

Definition setLid (k v : string) (c : Channel) : Channel :=
  mkChannel (connected c) (<[k := v]> (lidToPhoneMap c)) (outgoingQueue c) (flushing c)
            (recentImageMessages c) (directInFlight c) (drainInFlight c) (enqueued c)
            (drained c) (delivered c) (resolverCalls c) (effects c).

(** [this.outgoingQueue.push(item)]. *)
Definition push (item : QueueItem) (c : Channel) : Channel :=
  mkChannel (connected c) (lidToPhoneMap c) (outgoingQueue c ++ [item]) (flushing c)
            (recentImageMessages c) (directInFlight c) (drainInFlight c)
            (enqueued c ++ [item]) (drained c) (delivered c) (resolverCalls c) (effects c).

Definition setImage (k : string) (m : WAMessage) (c : Channel) : Channel :=
  mkChannel (connected c) (lidToPhoneMap c) (outgoingQueue c) (flushing c)
            (<[k := m]> (recentImageMessages c)) (directInFlight c) (drainInFlight c)
            (enqueued c) (drained c) (delivered c) (resolverCalls c) (effects c).

Definition setDirect (l : list QueueItem) (c : Channel) : Channel :=
  mkChannel (connected c) (lidToPhoneMap c) (outgoingQueue c) (flushing c)
            (recentImageMessages c) l (drainInFlight c) (enqueued c) (drained c)
            (delivered c) (resolverCalls c) (effects c).

Definition logDelivered (item : QueueItem) (c : Channel) : Channel :=
  mkChannel (connected c) (lidToPhoneMap c) (outgoingQueue c) (flushing c)
            (recentImageMessages c) (directInFlight c) (drainInFlight c) (enqueued c)
            (drained c) (delivered c ++ [item]) (resolverCalls c) (effects c).

Definition logResolverCall (j : string) (c : Channel) : Channel :=
  mkChannel (connected c) (lidToPhoneMap c) (outgoingQueue c) (flushing c)
            (recentImageMessages c) (directInFlight c) (drainInFlight c) (enqueued c)
            (drained c) (delivered c) (resolverCalls c ++ [j]) (effects c).

Definition emit (e : Effect) (c : Channel) : Channel :=
  mkChannel (connected c) (lidToPhoneMap c) (outgoingQueue c) (flushing c)
            (recentImageMessages c) (directInFlight c) (drainInFlight c) (enqueued c)
            (drained c) (delivered c) (resolverCalls c) (effects c ++ [e]).

(** The drain: queue, flag and the send it awaits change together. *)
Definition setDrain (q : list QueueItem) (f : bool) (awaiting : option QueueItem)
    (c : Channel) : Channel :=
  mkChannel (connected c) (lidToPhoneMap c) q f (recentImageMessages c) (directInFlight c)
            awaiting (enqueued c)
            (match awaiting with Some item => drained c ++ [item] | None => drained c end)
            (delivered c) (resolverCalls c) (effects c).

(** The invariant of the queue: every item ever queued is either handed
    to the socket by the drain, in the order of queueing, or still waiting;
    and a drain awaits a send exactly while the flag is up. *)
Definition QueueInv (c : Channel) : Prop :=
  enqueued c = drained c ++ outgoingQueue c
  /\ (is_Some (drainInFlight c) <-> flushing c = true).

Section Channel.

Variable cfg : Config.

(** *** [sendMessage] *)

Definition prefixed (jid text : string) : string :=
  if negb (ASSISTANT_HAS_OWN_NUMBER cfg) && Js.endsWith "@g.us" jid
  then ASSISTANT_NAME cfg +:+ ": " +:+ text
  else text.

(** Up to the [await]: queue when disconnected, else start the send. *)
Definition sendMessage (jid text : string) (c : Channel) : Channel :=
  let item := mkItem jid (prefixed jid text) in
  if negb (connected c) then push item c
  else setDirect (directInFlight c ++ [item]) c.

(** The awaited send settles: logged when it succeeded, queued for retry
    when it failed. *)
Definition directSettled (i : nat) (ok : bool) (c : Channel) : Channel :=
  match directInFlight c !! i with
  | None => c
  | Some item =>
      let c1 := setDirect (delete i (directInFlight c)) c in
      if ok then logDelivered item c1 else push item c1
  end.

(** *** [flushOutgoingQueue] *)

(** The head of the [while] loop: shift and send the next item, or leave
    through [finally]. *)
Definition drainNext (c : Channel) : Channel :=
  match outgoingQueue c with
  | item :: rest => setDrain rest true (Some item) c
  | [] => setDrain [] false None c
  end.

Definition flushOutgoingQueue (c : Channel) : Channel :=
  if flushing c || bool_decide (outgoingQueue c = []) then c
  else drainNext c.

(** The send the drain awaits settles: on success the loop goes on, on
    failure the exception leaves the loop through [finally]. *)
Definition drainSettled (ok : bool) (c : Channel) : Channel :=
  match drainInFlight c with
  | None => c
  | Some item =>
      if ok then drainNext (logDelivered item c)
      else setDrain (outgoingQueue c) false None c
  end.

(** *** [translateJid] *)

Definition lidUserOf (jid : string) : string :=
  Js.first (Js.split ":" (Js.first (Js.split "@" jid))).

Definition phoneJidOf (pn : string) : string :=
  Js.first (Js.split ":" (Js.first (Js.split "@" pn))) +:+ "@s.whatsapp.net".

(** The [try] block: the authoritative resolver is called, and [answer]
    is what it does. *)
Definition askResolver (answer : Lookup) (jid lidUser : string) (c : Channel)
  : string * Channel :=
  let c1 := logResolverCall jid c in
  match answer with
  | Found pn =>
      if Js.truthy pn then (phoneJidOf pn, setLid lidUser (phoneJidOf pn) c1)
      else (jid, c1)
  | NotFound | Failed => (jid, c1)
  end.

(** The cache is a plain object read as [this.lidToPhoneMap[lidUser]]: for
    a user part that names a member every object inherits ([constructor]
    and the like) the code finds that member instead of an entry.  This
    definition is the procedure for the other user parts. *)
Definition translateJid (answer : Lookup) (jid : string) (c : Channel) : string * Channel :=
  if negb (Js.endsWith "@lid" jid) then (jid, c)
  else
    let lidUser := lidUserOf jid in
    match lidToPhoneMap c !! lidUser with
    | Some cached =>
        if Js.truthy cached then (cached, c) else askResolver answer jid lidUser c
    | None => askResolver answer jid lidUser c
    end.

(** *** The connection events *)

Record User := mkUser { userId : string; userLid : option string }.

Definition onOpen (user : option User) (c : Channel) : Channel :=
  let c1 := setConnected true c in
  let c2 := match user with
            | Some u =>
                let phoneUser := Js.first (Js.split ":" (userId u)) in
                match userLid u with
                | Some l =>
                    let lidUser := Js.first (Js.split ":" l) in
                    if Js.truthy lidUser && Js.truthy phoneUser
                    then setLid lidUser (phoneUser +:+ "@s.whatsapp.net") c1
                    else c1
                | None => c1
                end
            | None => c1
            end in
  flushOutgoingQueue c2.

Inductive Event :=
| SendMessage (jid text : string)
| DirectSettled (i : nat) (ok : bool)
| ConnectionOpen (user : option User)
| ConnectionClose
| Disconnect
| Flush
| DrainSettled (ok : bool).

Definition step (c : Channel) (e : Event) : Channel :=
  match e with
  | SendMessage jid text => sendMessage jid text c
  | DirectSettled i ok => directSettled i ok c
  | ConnectionOpen user => onOpen user c
  | ConnectionClose => setConnected false c
  | Disconnect => setConnected false c
  | Flush => flushOutgoingQueue c
  | DrainSettled ok => drainSettled ok c
  end.

Definition run (c : Channel) (tr : list Event) : Channel := fold_left step tr c.

(** *** The [messages.upsert] handler

    The handler threads the channel through [translateJid], the image
    cache and the callbacks; [Act] is that state monad. *)
Definition Act (A : Type) : Type := Channel -> A * Channel.

#[local] Instance act_ret : MRet Act := fun A a c => (a, c).

#[local] Instance act_bind : MBind Act :=
  fun A B k m c => let '(a, c') := m c in k a c'.

Definition effect (f : Channel -> Channel) : Act unit := fun c => (tt, f c).

Definition when (b : bool) (m : Act unit) : Act unit := if b then m else mret tt.

(** [a || b] on strings that may be absent. *)
Definition orElse (a : option string) (b : string) : string :=
  match a with
  | Some x => if Js.truthy x then x else b
  | None => b
  end.

Definition truthyOpt (a : option string) : bool :=
  match a with Some x => Js.truthy x | None => false end.

Definition captionOf (media : option (option string)) : option string :=
  match media with Some caption => caption | None => None end.

(** The text shown for a message, before voice transcription. *)
Definition contentOf (m : MessageContent) : string :=
  let imageCaption := captionOf (imageMessage m) in
  let videoCaption := captionOf (videoMessage m) in
  let content := orElse (conversation m) (orElse (extendedText m) EmptyString) in
  if negb (Js.truthy content) && bool_decide (is_Some (imageMessage m)) then
    if truthyOpt imageCaption then "[Image: " +:+ orElse imageCaption EmptyString +:+ "]"
    else "[Image]"
  else if negb (Js.truthy content) && bool_decide (is_Some (videoMessage m)) then
    if truthyOpt videoCaption then "[Video: " +:+ orElse videoCaption EmptyString +:+ "]"
    else "[Video]"
  else if truthyOpt imageCaption && negb (Js.truthy content) then
    orElse imageCaption EmptyString
  else if truthyOpt videoCaption && negb (Js.truthy content) then
    orElse videoCaption EmptyString
  else content.

Definition voiceContent (t : Transcription) : string :=
  match t with
  | Transcript (Some transcript) =>
      if Js.truthy transcript then "[Voice: " +:+ transcript +:+ "]"
      else "[Voice Message - transcription unavailable]"
  | Transcript None => "[Voice Message - transcription unavailable]"
  | TranscriptionFails => "[Voice Message - transcription failed]"
  end.

(** [RegisteredGroup] is declared in [types.ts]; only the presence of a
    group under a key matters here. *)
Variable RegisteredGroup : Type.

(** One message of the batch, with what the environment answers while it
    is handled: the resolver (if asked), [registeredGroups()], and the
    transcription (if called). *)
Record Arrival := mkArrival {
  msg : WAMessage;
  lookup : Lookup;
  groups : gmap string RegisteredGroup;
  transcription : Transcription }.

(** [msg.key.participant || msg.key.remoteJid || '']. *)
Definition senderOf (m : WAMessage) : string :=
  orElse (participant (key m)) (orElse (remoteJid (key m)) EmptyString).

(** The message given to [onMessage]. *)
Definition messageOf (a : Arrival) (body : MessageContent) (chatJid : string) (ts : Z)
  : NewMessage :=
  let content := if audioPtt body then voiceContent (transcription a)
                 else contentOf body in
  let k := key (msg a) in
  let sender := senderOf (msg a) in
  let senderName := orElse (pushName (msg a)) (Js.first (Js.split "@" sender)) in
  let fromMe' := match fromMe k with Some b => b | None => false end in
  let isBotMessage := if ASSISTANT_HAS_OWN_NUMBER cfg then fromMe'
                      else Js.startsWith (ASSISTANT_NAME cfg +:+ ":") content in
  mkNew (orElse (keyId k) EmptyString) chatJid sender senderName content ts
        fromMe' isBotMessage.

(** The part of the loop body under [if (groups[chatJid])]. *)
Definition deliver (a : Arrival) (body : MessageContent) (chatJid : string) (ts : Z)
  : Act unit :=
  let sender := senderOf (msg a) in
  when (Js.endsWith "@s.whatsapp.net" sender && truthyOpt (pushName (msg a)))
       (effect (emit (UpsertContact sender (orElse (pushName (msg a)) EmptyString)))) ;;
  effect (emit (OnMessage chatJid (messageOf a body chatJid ts))).

(** What [deliver] adds to the effects. *)
Definition deliveryEffects (a : Arrival) (body : MessageContent) (chatJid : string)
    (ts : Z) : list Effect :=
  (if Js.endsWith "@s.whatsapp.net" (senderOf (msg a)) && truthyOpt (pushName (msg a))
   then [UpsertContact (senderOf (msg a)) (orElse (pushName (msg a)) EmptyString)]
   else [])
  ++ [OnMessage chatJid (messageOf a body chatJid ts)].

(** [groups[chatJid]] as a condition: the registry is a plain object whose
    values are objects, so the lookup finds a truthy value under every key
    of its own and under every inherited name. *)
Definition registered (groups : gmap string RegisteredGroup) (chatJid : string) : bool :=
  bool_decide (is_Some (groups !! chatJid)) || Js.inherited chatJid.

(** [new Date(Number(msg.messageTimestamp) * 1000).toISOString()]: the
    time in milliseconds, or [None] where [toISOString] throws a
    [RangeError], the date being invalid (no timestamp, or one beyond
    8.64e15 ms from the epoch). *)
Definition isoTimestamp (t : option Z) : option Z :=
  match t with
  | Some seconds =>
      if Z.abs (seconds * 1000) <=? 8640000000000000 then Some (seconds * 1000) else None
  | None => None
  end.

(** How the body of the loop ends for a message: it completes (or
    [continue]s), or an exception leaves the loop and the handler. *)
Inductive Completion := Completed | Threw.

(** The body of [for (const msg of messages)].  [groups a] is what
    [registeredGroups()] returns when the handler calls it, once, before
    the transcription of a voice note is awaited. *)
Definition handleMessage (a : Arrival) : Act Completion :=
  match message (msg a), remoteJid (key (msg a)) with
  | Some body, Some rawJid =>
      if negb (Js.truthy rawJid) || String.eqb rawJid "status@broadcast"
      then mret Completed
      else
        chatJid ← (translateJid (lookup a) rawJid : Act string);
        match isoTimestamp (messageTimestamp (msg a)) with
        | None => mret Threw
        | Some ts =>
            when (bool_decide (is_Some (imageMessage body)))
                 (effect (setImage chatJid (msg a))) ;;
            effect (emit (OnChatMetadata chatJid ts)) ;;
            (if registered (groups a) chatJid then deliver a body chatJid ts
             else mret tt) ;;
            mret Completed
        end
  | _, _ => mret Completed
  end.

(** The effects one message adds to the log. *)
Definition emitted (a : Arrival) (c : Channel) : list Effect :=
  drop (List.length (effects c)) (effects (snd (handleMessage a c))).

(** The handler: an exception ends the loop, and the messages after it
    in the batch are not handled. *)
Fixpoint onMessagesUpsert (batch : list Arrival) : Act Completion :=
  match batch with
  | [] => mret Completed
  | a :: rest =>
      completion ← handleMessage a;
      match completion with
      | Completed => onMessagesUpsert rest
      | Threw => mret Threw
      end
  end.

(** The condition under which the loop body goes past its [continue]s. *)
Definition handled (a : Arrival) (body : MessageContent) (rawJid : string) : Prop :=
  message (msg a) = Some body /\ remoteJid (key (msg a)) = Some rawJid
  /\ negb (Js.truthy rawJid) || String.eqb rawJid "status@broadcast" = false.

(** The registry when [onMessage] is called for a message: what the
    handler read, unless the transcription of a voice note was awaited in
    between, after which the registry is [afterAwait]. *)
Definition registryAtDelivery (a : Arrival) (afterAwait : gmap string RegisteredGroup)
  : gmap string RegisteredGroup :=
  match message (msg a) with
  | Some body => if audioPtt body then afterAwait else groups a
  | None => groups a
  end.

End Channel.

Arguments mkArrival {RegisteredGroup} _ _ _ _.
Arguments msg {RegisteredGroup} _.
Arguments lookup {RegisteredGroup} _.
Arguments groups {RegisteredGroup} _.
Arguments transcription {RegisteredGroup} _.
Arguments messageOf cfg {RegisteredGroup} _ _ _ _.
Arguments deliver cfg {RegisteredGroup} _ _ _ _ _.
Arguments deliveryEffects cfg {RegisteredGroup} _ _ _ _.
Arguments registered {RegisteredGroup} _ _.
Arguments handleMessage cfg {RegisteredGroup} _ _.
Arguments emitted cfg {RegisteredGroup} _ _.
Arguments onMessagesUpsert cfg {RegisteredGroup} _ _.
Arguments registryAtDelivery {RegisteredGroup} _ _.
Arguments handled {RegisteredGroup} _ _ _.

(** Data of the examples below. *)
Definition lost_item_trace : list Event :=
  [SendMessage "4915@s.whatsapp.net" "first"; SendMessage "4915@s.whatsapp.net" "second";
   ConnectionOpen None; DrainSettled false;
   ConnectionClose; ConnectionOpen None; DrainSettled true].

Definition text_message (chat : string) (body : string) : WAMessage :=
  mkMessage (mkKey (Some chat) (Some "4915@s.whatsapp.net") (Some "ABC1") None)
            (Some (mkContent (Some body) None None None false)) (Some "Eti")
            (Some 1700000000).

Definition voice_message (chat : string) : WAMessage :=
  mkMessage (mkKey (Some chat) (Some "4915@s.whatsapp.net") (Some "PTT1") None)
            (Some (mkContent None None None None true)) (Some "Eti") (Some 1700000000).

End WhatsApp.

(** ** The Telegram channel: [TelegramChannel.registerHandlers] *)

Module Telegram.

Inductive ChatType := Private | Group | Supergroup | Channel.

Record Chat := mkChat {
  chatId : Z;
  chatType : ChatType;
  title : option string }.

Record From := mkFrom {
  fromId : Z;
  first_name : string;
  username : option string }.

Record Entity := mkEntity {
  entityType : string;
  offset : nat;
  length : nat }.

(** The kind of a message update is the first filter of [registerHandlers]
    that matches it, in registration order.  [command] is the bot command
    grammy recognises at the start of a text, if any. *)
Inductive Kind :=
| Text (text : string) (entities : list Entity) (command : option string)
| Photo | Video | Voice | Audio
| Document (file_name : option string)
| Sticker (emoji : option string)
| Location | Contact
| Other.

Record Ctx := mkCtx {
  chat : Chat;
  from : option From;
  date : Z;
  message_id : Z;
  caption : option string;
  me_username : option string;
  kind : Kind }.

Record NewMessage := mkNew {
  id : string;
  chat_jid : string;
  sender : string;
  sender_name : string;
  content : string;
  timestamp : Z;
  is_from_me : bool }.

Inductive Effect :=
| Reply (text : string)
| OnChatMetadata (chatJid : string) (timestamp : Z) (name : option string)
| OnMessage (chatJid : string) (m : NewMessage).

(** What the download and transcription of a voice message come to: a
    transcript or [null], a response that is not [ok], or an exception. *)
Inductive VoiceOutcome := Transcribed (t : option string) | NotOk | VoiceFails.

Definition lowerChar (c : ascii) : ascii :=
  let n := nat_of_ascii c in
  if ((65 <=? n) && (n <=? 90))%nat then ascii_of_nat (n + 32) else c.

Fixpoint toLowerCase (s : string) : string :=
  match s with
  | EmptyString => EmptyString
  | String c s' => String (lowerChar c) (toLowerCase s')
  end.

Definition orElse (a : option string) (b : string) : string :=
  match a with
  | Some x => if Js.truthy x then x else b
  | None => b
  end.

Section Handlers.

(** [ASSISTANT_NAME] and [TRIGGER_PATTERN.test] come from [config.ts];
    [RegisteredGroup] is declared in [types.ts]. *)
Variable ASSISTANT_NAME : string.
Variable TRIGGER_PATTERN_test : string -> bool.
Variable RegisteredGroup : Type.

(** What [registeredGroups()] returns while the update is handled. *)
Variable groups : gmap string RegisteredGroup.

Definition chatJidOf (ctx : Ctx) : string := "tg:" +:+ pretty (chatId (chat ctx)).

Definition isAllowedSender (ctx : Ctx) : bool :=
  if bool_decide (is_Some (groups !! chatJidOf ctx)) then true
  else match from ctx with
       | Some f =>
           negb (fromId f =? 0)
           && bool_decide (is_Some (groups !! ("tg:" +:+ pretty (fromId f))))
       | None => false
       end.

(** [first_name || username || id.toString() || "Unknown"]. *)
Definition senderNameOf (ctx : Ctx) : string :=
  match from ctx with
  | Some f => orElse (Some (first_name f))
                (orElse (username f) (orElse (Some (pretty (fromId f))) "Unknown"))
  | None => "Unknown"
  end.

Definition senderOf (ctx : Ctx) : string :=
  match from ctx with
  | Some f => pretty (fromId f)
  | None => EmptyString
  end.

Definition chatNameOf (ctx : Ctx) (fallback : string) : string :=
  match chatType (chat ctx) with
  | Private => senderNameOf ctx
  | _ => orElse (title (chat ctx)) fallback
  end.

Definition isBotMentioned (botUsername content : string) (entities : list Entity) : bool :=
  existsb (fun e =>
             String.eqb (entityType e) "mention"
             && String.eqb (toLowerCase (Js.slice (offset e) (offset e + length e) content))
                           ("@" +:+ botUsername))
          entities.

(** The content after the translation of an [@bot_username] mention. *)
Definition mentionTranslated (ctx : Ctx) (content : string) (entities : list Entity) : string :=
  match me_username ctx with
  | Some u =>
      let botUsername := toLowerCase u in
      if Js.truthy botUsername
         && isBotMentioned botUsername content entities
         && negb (TRIGGER_PATTERN_test content)
      then "@" +:+ ASSISTANT_NAME +:+ " " +:+ content
      else content
  | None => content
  end.

Definition newMessage (ctx : Ctx) (content : string) : NewMessage :=
  mkNew (pretty (message_id ctx)) (chatJidOf ctx) (senderOf ctx) (senderNameOf ctx) content
        (date ctx * 1000) false.

(** The [message:text] handler. *)
Definition onText (ctx : Ctx) (text : string) (entities : list Entity) : list Effect :=
  if Js.startsWith "/" text then []
  else
    let chatJid := chatJidOf ctx in
    let content := mentionTranslated ctx text entities in
    OnChatMetadata chatJid (date ctx * 1000) (Some (chatNameOf ctx chatJid))
    :: match groups !! chatJid with
       | None => []
       | Some _ => [OnMessage chatJid (newMessage ctx content)]
       end.

(** [storeNonText]. *)
Definition storeNonText (ctx : Ctx) (placeholder : string) : list Effect :=
  let chatJid := chatJidOf ctx in
  match groups !! chatJid with
  | None => []
  | Some _ =>
      let caption' := match caption ctx with
                      | Some c => if Js.truthy c then " " +:+ c else EmptyString
                      | None => EmptyString
                      end in
      [OnChatMetadata chatJid (date ctx * 1000) None;
       OnMessage chatJid (newMessage ctx (placeholder +:+ caption'))]
  end.

(** The [message:voice] handler. *)
Definition onVoice (ctx : Ctx) (voice : VoiceOutcome) : list Effect :=
  let chatJid := chatJidOf ctx in
  match groups !! chatJid with
  | None => []
  | Some _ =>
      let content := match voice with
                     | Transcribed (Some t) =>
                         if Js.truthy t then "[Voice message] " +:+ t else "[Voice message]"
                     | _ => "[Voice message]"
                     end in
      [OnChatMetadata chatJid (date ctx * 1000) None;
       OnMessage chatJid (newMessage ctx content)]
  end.

Definition onChatIdCommand (ctx : Ctx) : list Effect :=
  let chatName := match chatType (chat ctx) with
                  | Private => match from ctx with
                               | Some f => orElse (Some (first_name f)) "Private"
                               | None => "Private"
                               end
                  | _ => orElse (title (chat ctx)) "Unknown"
                  end in
  let chatTypeName := match chatType (chat ctx) with
                      | Private => "private" | Group => "group"
                      | Supergroup => "supergroup" | Channel => "channel"
                      end in
  [Reply ("Chat ID: `tg:" +:+ pretty (chatId (chat ctx)) +:+ "`" +:+ String Js.LF EmptyString
          +:+ "Name: " +:+ chatName +:+ String Js.LF EmptyString
          +:+ "Type: " +:+ chatTypeName)].

(** The middleware chain for one update: the gate of [bot.use], the two
    commands, then the handler of the kind of the message. *)
Definition handleUpdate (ctx : Ctx) (voice : VoiceOutcome) : list Effect :=
  if negb (isAllowedSender ctx) then []
  else
    match kind ctx with
    | Text text entities command =>
        if bool_decide (command = Some "chatid") then onChatIdCommand ctx
        else if bool_decide (command = Some "ping")
             then [Reply (ASSISTANT_NAME +:+ " is online.")]
             else onText ctx text entities
    | Photo => storeNonText ctx "[Photo]"
    | Video => storeNonText ctx "[Video]"
    | Voice => onVoice ctx voice
    | Audio => storeNonText ctx "[Audio]"
    | Document file_name =>
        storeNonText ctx ("[Document: " +:+ orElse file_name "file" +:+ "]")
    | Sticker emoji => storeNonText ctx ("[Sticker " +:+ orElse emoji EmptyString +:+ "]")
    | Location => storeNonText ctx "[Location]"
    | Contact => storeNonText ctx "[Contact]"
    | Other => []
    end.

(** The effects that a handler may produce for a chat: replies and chat
    metadata always, a message only under a registered chat identifier. *)
Definition Gated (ctx : Ctx) (es : list Effect) : Prop :=
  forall e, In e es ->
    match e with
    | OnMessage j m => j = chatJidOf ctx /\ is_Some (groups !! j) /\ chat_jid m = j
    | _ => True
    end.

End Handlers.

Arguments isAllowedSender {RegisteredGroup} _ _.
Arguments Gated {RegisteredGroup} _ _ _.
Arguments onText ASSISTANT_NAME TRIGGER_PATTERN_test {RegisteredGroup} _ _ _ _.
Arguments storeNonText {RegisteredGroup} _ _ _.
Arguments onVoice {RegisteredGroup} _ _ _.
Arguments handleUpdate ASSISTANT_NAME TRIGGER_PATTERN_test {RegisteredGroup} _ _ _.

(** Data of the examples below. *)
Definition photo_from (chatId' : Z) : Ctx :=
  mkCtx (mkChat chatId' Group (Some "Family")) (Some (mkFrom 42 "Chen" None)) 1700000000 7
        (Some "look") (Some "SmithBot") Photo.

End Telegram.

(** ** Further observations on the agent runner *)

Module RunnerObs.
Import AgentRunner.

(** The session id the streamed events leave behind: the [newSessionId] of
    the last parsed event that carries a non-empty one. *)
Definition sessionOf (log : list ContainerOutput) : option string :=
  fold_left (fun acc o => match newSessionId o with
                          | Some i => if Js.truthy i then Some i else acc
                          | None => acc
                          end) log None.

(** The escalation timers are harmless: one is pending only once
    [agent.killed] is set or the process has gone, and no [SIGKILL] was
    sent. *)
Definition EscalationInv (t : Timers) : Prop :=
  (forceKill t <> [] -> killed t = true \/ closed t = true)
  /\ ~ In SIGKILL (signals t).

(** What the ['data'] events of stdout carry before the handler decodes
    them.  How [toString] decodes a buffer is Node's business; it is a
    parameter wherever buffers are spoken of. *)
Definition Buffer : Type := list Byte.byte.

Definition stdoutEvents (toString : Buffer -> string) (buffers : list Buffer)
  : list Event :=
  map (fun data => StdoutData (toString data)) buffers.

(** The text the handler sees in all: each buffer decoded on its own. *)
Definition decodedText (toString : Buffer -> string) (buffers : list Buffer) : string :=
  fold_right (fun data text => toString data +:+ text) EmptyString buffers.

(** Two event traces for the examples: the same stdout text cut at
    different places, the second cut falling inside the end marker. *)
Definition one_chunk_trace : list Event :=
  [StdoutData (frame (stringify (say "one")) +:+ frame (stringify (say "two")))].

Definition three_chunk_trace : list Event :=
  [StdoutData (OUTPUT_START_MARKER +:+ stringify (say "one") +:+ "---NANOCLAW_OUT");
   StderrData "warming up";
   StdoutData ("PUT_END---" +:+ OUTPUT_START_MARKER);
   StdoutData (stringify (say "two") +:+ OUTPUT_END_MARKER)].

(** *** Names made safe for the file system

    [s.replace(/[^...]/g, sub)]: every character outside the class is
    replaced by [sub]. *)
Definition inRange (lo hi : nat) (c : ascii) : bool :=
  let n := nat_of_ascii c in ((lo <=? n) && (n <=? hi))%nat.

(** [[a-zA-Z0-9]]. *)
Definition isAlnum (c : ascii) : bool :=
  inRange 97 122 c || inRange 65 90 c || inRange 48 57 c.

(** [[a-zA-Z0-9@._:-]]. *)
Definition jidChar (c : ascii) : bool :=
  isAlnum c || existsb (Ascii.eqb c) ["@"; "."; "_"; ":"; "-"]%char.

(** [[a-zA-Z0-9-]]. *)
Definition nameChar (c : ascii) : bool := isAlnum c || Ascii.eqb c "-".

Fixpoint replaceOutside (keep : ascii -> bool) (sub : ascii) (s : string) : string :=
  match s with
  | EmptyString => EmptyString
  | String c s' => String (if keep c then c else sub) (replaceOutside keep sub s')
  end.

(** [sanitizedJid] of [prepareIpcDirs] and [safeName] of
    [runContainerAgent]. *)
Definition sanitizedJid (chatJid : string) : string := replaceOutside jidChar "_" chatJid.

Definition safeName (folder : string) : string := replaceOutside nameChar "-" folder.

End RunnerObs.

(** ** Further observations on the WhatsApp channel *)

Module WhatsAppObs.
Import WhatsApp.

(** The items the callers of [sendMessage] asked to send, as the channel
    builds them, in the order of the calls. *)
Definition sentBy (cfg : Config) (e : Event) : list QueueItem :=
  match e with
  | SendMessage jid text => [mkItem jid (prefixed cfg jid text)]
  | _ => []
  end.

Definition sentItems (cfg : Config) (tr : list Event) : list QueueItem :=
  tr ≫= sentBy cfg.

(** Where an item the channel holds or has delivered can be: delivered,
    awaited by the drain, awaited by a direct send, or queued. *)
Definition held (c : Channel) : list QueueItem :=
  delivered c ++ option_list (drainInFlight c) ++ directInFlight c ++ outgoingQueue c.

(** The item a failing drain send drops. *)
Definition lostBy (c : Channel) (e : Event) : list QueueItem :=
  match e with
  | DrainSettled false => option_list (drainInFlight c)
  | _ => []
  end.

Definition drainFailure (e : Event) : bool :=
  match e with DrainSettled false => true | _ => false end.

(** A trace in which every kind of send fails once, but no drain send. *)
Definition retry_trace : list Event :=
  [SendMessage "1203@g.us" "a"; ConnectionOpen None; DrainSettled true;
   SendMessage "1203@g.us" "b"; DirectSettled 0 false; ConnectionClose;
   SendMessage "4915@s.whatsapp.net" "c"; ConnectionOpen None; DrainSettled true].

(** [ownsJid]. *)
Definition ownsJid (jid : string) : bool :=
  Js.endsWith "@g.us" jid || Js.endsWith "@s.whatsapp.net" jid.

(** The life of a channel: connection events, sends and their completions,
    and batches of inbound messages. *)
Inductive Input (RegisteredGroup : Type) :=
| ChannelEvent (e : Event)
| MessagesUpsert (batch : list (Arrival RegisteredGroup)).

Arguments ChannelEvent {RegisteredGroup} _.
Arguments MessagesUpsert {RegisteredGroup} _.

Definition stepAll {RegisteredGroup : Type} (cfg : Config) (c : Channel)
    (i : Input RegisteredGroup) : Channel :=
  match i with
  | ChannelEvent e => step cfg c e
  | MessagesUpsert batch => snd (onMessagesUpsert cfg batch c)
  end.

Definition runAll {RegisteredGroup : Type} (cfg : Config) (c : Channel)
    (tr : list (Input RegisteredGroup)) : Channel :=
  fold_left (stepAll cfg) tr c.

(** [this.lidToPhoneMap[lidUser]] finds an entry of the cache, or nothing:
    the address is no LID address, or its user part is not the name of a
    member that the cache, a plain object, inherits. *)
Definition cacheKeyIsOwn (jid : string) : bool :=
  negb (Js.endsWith "@lid" jid) || negb (Js.inherited (lidUserOf jid)).

(** Every mapping of the cache is a phone JID. *)
Definition PhoneJids (c : Channel) : Prop :=
  map_Forall (fun _ v => Js.endsWith "@s.whatsapp.net" v = true) (lidToPhoneMap c).

(** *** [downloadLatestImage]

    [download] is what [downloadMediaMessage] comes to for a message: a
    buffer, nothing, or an exception; [writable] tells whether the two
    file system calls succeed.  The result is the promised boolean and the
    files. *)
Inductive Download := Buffer (bytes : string) | NoBuffer | DownloadFails.


Definition hasImage {RegisteredGroup : Type} (a : Arrival RegisteredGroup) : bool :=
  match message (msg a) with
  | Some body => bool_decide (is_Some (imageMessage body))
  | None => false
  end.


End WhatsAppObs.

(** ** Voice transcription ([transcription.ts]) *)

Module Transcription.

Record OpenAiConfig := mkOpenAi { apiKey : string; model : string }.

Record TranscriptionConfig := mkTranscriptionConfig {
  provider : string;
  openai : option OpenAiConfig;
  enabled : bool;
  fallbackMessage : string }.

(** What [JSON.parse] returns for the configuration file: [null], or an
    object with the fields the interface declares.  (The code does not
    check what it has parsed; values of other shapes are not covered.) *)
Inductive Json := JsonNull | JsonObject (config : TranscriptionConfig).

(** [loadConfig]: [file] is what reading and parsing
    [.transcription.config.json] gives, [None] when either throws. *)
Definition loadConfig (file : option Json) : Json :=
  match file with
  | Some parsed => parsed
  | None => JsonObject (mkTranscriptionConfig "openai" None false
                          "[Voice Message - transcription unavailable]")
  end.

(** How the promise of an [async] function settles. *)
Inductive Settled (A : Type) := Resolves (value : A) | Rejects.

Arguments Resolves {A} _.
Arguments Rejects {A}.

(** What the request to the transcription API comes to. *)
Inductive ApiOutcome := ApiText (transcription : string) | ApiThrows.

(** [transcribeWithOpenAI]; [api] is the request, given the audio and the
    model name. *)
Definition transcribeWithOpenAI (api : string -> string -> ApiOutcome)
    (audioBuffer : string) (config : TranscriptionConfig) : option string :=
  match openai config with
  | None => None
  | Some o =>
      if negb (Js.truthy (apiKey o)) || String.eqb (apiKey o) EmptyString then None
      else match api audioBuffer (if Js.truthy (model o) then model o else "whisper-1") with
           | ApiText transcription => Some transcription
           | ApiThrows => None
           end
  end.

(** [transcribeAudioBuffer]; the buffer may be absent.  Reading
    [config.enabled] of [null] throws, outside any [try]: the promise
    rejects. *)
Definition transcribeAudioBuffer (file : option Json)
    (api : string -> string -> ApiOutcome) (audioBuffer : option string)
  : Settled (option string) :=
  match loadConfig file with
  | JsonNull => Rejects
  | JsonObject config =>
      Resolves
        (if negb (enabled config) then Some (fallbackMessage config)
         else
           match audioBuffer with
           | None => Some (fallbackMessage config)
           | Some buffer =>
               if (String.length buffer =? 0)%nat then Some (fallbackMessage config)
               else if String.eqb (provider config) "openai" then
                 match transcribeWithOpenAI api buffer config with
                 | Some transcript =>
                     if Js.truthy transcript then Some (Js.trim transcript)
                     else Some (fallbackMessage config)
                 | None => Some (fallbackMessage config)
                 end
               else Some (fallbackMessage config)
           end)
  end.

(** [transcribeAudioMessage]: the configuration is loaded here and again
    in [transcribeAudioBuffer], hence the two files.  The [try] block
    awaits the download, whose exception it catches; the promise of
    [transcribeAudioBuffer] it returns without awaiting it, so that promise
    settles the result, a rejection included. *)
Definition transcribeAudioMessage (file1 file2 : option Json)
    (download : WhatsAppObs.Download) (api : string -> string -> ApiOutcome)
  : Settled (option string) :=
  match loadConfig file1 with
  | JsonNull => Rejects
  | JsonObject config =>
      if negb (enabled config) then Resolves (Some (fallbackMessage config))
      else
        match download with
        | WhatsAppObs.Buffer bytes => transcribeAudioBuffer file2 api (Some bytes)
        | WhatsAppObs.NoBuffer => transcribeAudioBuffer file2 api None
        | WhatsAppObs.DownloadFails => Resolves (Some (fallbackMessage config))
        end
  end.

(** [isVoiceMessage]. *)
Definition isVoiceMessage (m : WhatsApp.WAMessage) : bool :=
  match WhatsApp.message m with
  | Some body => WhatsApp.audioPtt body
  | None => false
  end.

(** The content WhatsApp shows for a voice message, and the result
    Telegram's voice handler works with: each awaits the promise inside a
    [try] of its own. *)
Definition whatsappVoice (file1 file2 : option Json)
    (download : WhatsAppObs.Download) (api : string -> string -> ApiOutcome) : string :=
  WhatsApp.voiceContent
    match transcribeAudioMessage file1 file2 download api with
    | Resolves transcript => WhatsApp.Transcript transcript
    | Rejects => WhatsApp.TranscriptionFails
    end.

Definition telegramVoice (file : option Json)
    (api : string -> string -> ApiOutcome) (audioBuffer : string) : Telegram.VoiceOutcome :=
  match transcribeAudioBuffer file api (Some audioBuffer) with
  | Resolves transcript => Telegram.Transcribed transcript
  | Rejects => Telegram.VoiceFails
  end.

End Transcription.

(** ** Telegram: outbound messages and the polling loop *)

Module TelegramOut.

Definition MAX_LENGTH : nat := 4096.

(** [jid.replace(/^tg:/, "")]. *)
Definition numericIdOf (jid : string) : string :=
  if Js.startsWith "tg:" jid then Js.drop 3 jid else jid.

(** [ownsJid]. *)
Definition ownsJid (jid : string) : bool := Js.startsWith "tg:" jid.

(** A call of [bot.api.sendMessage]. *)
Record ApiCall := mkCall { chat_id : string; body : string }.

(** The slices of the [for] loop of [sendMessage], from index [i] on. *)
Fixpoint chunkLoop (fuel i : nat) (text : string) : list string :=
  match fuel with
  | O => []
  | S fuel' =>
      if (i <? String.length text)%nat
      then Js.slice i (i + MAX_LENGTH) text :: chunkLoop fuel' (i + MAX_LENGTH) text
      else []
  end.

(** The texts [sendMessage] sends for one text, in order. *)
Definition chunksOf (text : string) : list string :=
  if (String.length text <=? MAX_LENGTH)%nat then [text]
  else chunkLoop (String.length text) 0 text.

(** The calls are made one after the other, each through [this.bot] as it
    is then: [bot k] tells whether [this.bot] is set when the call number
    [k] is due ([bot 0] when [sendMessage] is entered), and [rejects k]
    whether that call rejects.  A cleared [this.bot] throws before the
    call is made, a rejection after; either ends the calls. *)
Fixpoint attempt (bot rejects : nat -> bool) (k : nat) (numericId : string)
    (chunks : list string) : list ApiCall :=
  match chunks with
  | [] => []
  | chunk :: rest =>
      if negb (bot k) then []
      else mkCall numericId chunk
           :: (if rejects k then [] else attempt bot rejects (S k) numericId rest)
  end.

(** [sendMessage]: the calls made.  It resolves in every case. *)
Definition sendMessage (bot rejects : nat -> bool) (jid text : string) : list ApiCall :=
  if negb (bot 0%nat) then []
  else attempt bot rejects 0 (numericIdOf jid) (chunksOf text).

(** [sendMessageWithId]: the call made, [None] when it throws for want of
    a bot. *)
Definition sendMessageWithId (bot : bool) (jid text : string) : option ApiCall :=
  if negb bot then None
  else Some (mkCall (numericIdOf jid) (Js.slice 0 MAX_LENGTH text)).

Definition joined (chunks : list string) : string :=
  fold_right String.append EmptyString chunks.

Fixpoint repeatChar (n : nat) (c : ascii) : string :=
  match n with
  | O => EmptyString
  | S n' => String c (repeatChar n' c)
  end.

(** *** [connect], [pollLoop] and [disconnect]

    The channel one turn of the event loop at a time.  Every call of
    [connect] that gets through its awaits starts a call of [pollLoop];
    the calls of [pollLoop] share [this.offset] and [this.stopping].  An
    update is its [update_id].  [connect] clears [stopping] and sets
    [this.bot] together, [disconnect] sets [stopping] and clears
    [this.bot] together, so once either has been called [stopping] also
    tells that [this.bot] is [null]. *)
Inductive Phase :=
| Exited
| AwaitingUpdates (asked : Z)        (* [getUpdates] is in flight, with this offset *)
| Handling (rest : list Z)           (* [handleUpdate] is in flight *)
| Waiting (ms : Z).                  (* the pause after a polling error *)

Record Poller := mkPoller {
  offset : Z;
  stopping : bool;
  connecting : nat;                  (* calls of [connect] still at their awaits *)
  loops : list Phase;                (* the calls of [pollLoop], in order *)
  requested : list Z;                (* the offsets given to [getUpdates] *)
  handled : list Z;                  (* the updates given to [handleUpdate] *)
  waits : list Z }.

Definition initial : Poller := mkPoller 0 false 0 [] [] [] [].

Definition exited (ph : Phase) : bool :=
  match ph with Exited => true | _ => false end.

Definition withPhase (i : nat) (ph : Phase) (p : Poller) : Poller :=
  mkPoller (offset p) (stopping p) (connecting p) (<[i := ph]> (loops p))
           (requested p) (handled p) (waits p).

(** The head of the [while] loop of the call number [i]. *)
Definition loopHead (i : nat) (p : Poller) : Poller :=
  if stopping p then withPhase i Exited p
  else withPhase i (AwaitingUpdates (offset p))
         (mkPoller (offset p) (stopping p) (connecting p) (loops p)
                   (requested p ++ [offset p]) (handled p) (waits p)).

(** The [for] loop from its next update on: the offset moves past the
    update, then the update is handled; with [this.bot] cleared the call
    throws, the [catch] logs, and the loop goes on. *)
Fixpoint nextUpdate (i : nat) (rest : list Z) (p : Poller) : Poller :=
  match rest with
  | [] => loopHead i p
  | u :: rest' =>
      if stopping p
      then nextUpdate i rest'
             (mkPoller (u + 1) (stopping p) (connecting p) (loops p) (requested p)
                       (handled p) (waits p))
      else mkPoller (u + 1) (stopping p) (connecting p) (<[i := Handling rest']> (loops p))
                    (requested p) (handled p ++ [u]) (waits p)
  end.

Definition includes (pat s : string) : bool :=
  match Js.indexOf pat 0 s with Some _ => true | None => false end.

(** [Initialised ok]: the oldest call of [connect] still at its awaits
    gets to its last statements; [ok] tells whether the awaits resolved.
    The events of a call of [pollLoop] carry its number. *)
Inductive Event :=
| Connect
| Initialised (ok : bool)
| Disconnect
| GetUpdatesResolves (loop : nat) (updates : list Z)
| GetUpdatesRejects (loop : nat) (message : string)
| HandlerSettles (loop : nat) (ok : bool)
| WaitOver (loop : nat).

Definition step (p : Poller) (e : Event) : Poller :=
  match e with
  | Connect =>
      mkPoller (offset p) false (S (connecting p)) (loops p) (requested p) (handled p)
               (waits p)
  | Initialised ok =>
      match connecting p with
      | O => p
      | S n =>
          (* with [this.bot] cleared, reading [this.bot.botInfo] throws *)
          if ok && negb (stopping p)
          then loopHead (List.length (loops p))
                 (mkPoller (offset p) (stopping p) n (loops p ++ [Exited]) (requested p)
                           (handled p) (waits p))
          else mkPoller (offset p) (stopping p) n (loops p) (requested p) (handled p)
                        (waits p)
      end
  | Disconnect =>
      mkPoller (offset p) true (connecting p) (loops p) (requested p) (handled p) (waits p)
  | GetUpdatesResolves i updates =>
      match loops p !! i with
      | Some (AwaitingUpdates _) => nextUpdate i updates p
      | _ => p
      end
  | GetUpdatesRejects i message =>
      match loops p !! i with
      | Some (AwaitingUpdates _) =>
          if stopping p then withPhase i Exited p
          else
            let ms := if includes "409" message then 5000 else 3000 in
            withPhase i (Waiting ms)
              (mkPoller (offset p) (stopping p) (connecting p) (loops p) (requested p)
                        (handled p) (waits p ++ [ms]))
      | _ => p
      end
  | HandlerSettles i _ =>
      match loops p !! i with
      | Some (Handling rest) => nextUpdate i rest p
      | _ => p
      end
  | WaitOver i =>
      match loops p !! i with
      | Some (Waiting _) => loopHead i p
      | _ => p
      end
  end.

Definition run (p : Poller) (tr : list Event) : Poller := fold_left step tr p.

(** The contract of [getUpdates]: the updates come in ascending order of
    [update_id], none below the offset asked for. *)
Fixpoint ascendingFrom (lo : Z) (updates : list Z) : bool :=
  match updates with
  | [] => true
  | u :: rest => (lo <=? u) && ascendingFrom (u + 1) rest
  end.

(** A run on which [getUpdates] keeps its contract and [connect] is called
    only when no earlier call of it is at its awaits and every call of
    [pollLoop] has returned. *)
Fixpoint obeys (p : Poller) (tr : list Event) : bool :=
  match tr with
  | [] => true
  | e :: tr' =>
      match e with
      | GetUpdatesResolves i updates =>
          match loops p !! i with
          | Some (AwaitingUpdates asked) => ascendingFrom asked updates
          | _ => true
          end
      | Connect => (connecting p =? 0)%nat && forallb exited (loops p)
      | _ => true
      end && obeys (step p e) tr'
  end.

Definition isConnect (e : Event) : bool :=
  match e with Connect => true | _ => false end.

(** The handled updates never repeat and never go back. *)
Fixpoint increasing (l : list Z) : Prop :=
  match l with
  | [] => True
  | x :: l' => Forall (fun y => x < y) l' /\ increasing l'
  end.

(** What a call of [pollLoop] in a given phase relies on: the updates
    still to handle lie at or above the offset, in ascending order, and
    the offset asked for is the current one. *)
Definition PhaseOk (o : Z) (ph : Phase) : Prop :=
  match ph with
  | Handling rest => ascendingFrom o rest = true
  | AwaitingUpdates asked => asked = o
  | _ => True
  end.

(** The invariant of a run that obeys: the handled updates increase and
    lie below the offset, and at most one call of [connect] or of
    [pollLoop] is under way. *)
Definition PollInv (p : Poller) : Prop :=
  Forall (fun h => h < offset p) (handled p)
  /\ increasing (handled p)
  /\ (connecting p <= 1)%nat
  /\ (connecting p = 1%nat -> Forall (fun ph => ph = Exited) (loops p))
  /\ (exists k, forall j ph, loops p !! j = Some ph -> j <> k -> ph = Exited)
  /\ Forall (PhaseOk (offset p)) (loops p).

(** What a turn of the call number [i] leaves behind. *)
Definition Turn (i : nat) (p q : Poller) : Prop :=
  connecting q = connecting p
  /\ (exists ph, loops q = <[i := ph]> (loops p) /\ PhaseOk (offset q) ph)
  /\ Forall (fun h => h < offset q) (handled q)
  /\ increasing (handled q).

Definition poll_trace : list Event :=
  [Connect; Initialised true;
   GetUpdatesResolves 0 [7; 8]; HandlerSettles 0 false; HandlerSettles 0 true;
   GetUpdatesRejects 0 "Conflict: 409"; WaitOver 0; GetUpdatesResolves 0 [9; 12];
   HandlerSettles 0 true; Disconnect; HandlerSettles 0 true].

(** [connect] called again while the first call of [pollLoop] still waits
    for its updates: both calls go on, and each gets the update 7. *)
Definition reconnect_trace : list Event :=
  [Connect; Initialised true; Disconnect; Connect; Initialised true;
   GetUpdatesResolves 0 [7]; GetUpdatesResolves 1 [7]].

End TelegramOut.

(** * Properties *)

(** ** Lemmas on the string primitives *)

Section StringFacts.

Lemma append_cons (c : ascii) (s x : string) : String c s +:+ x = String c (s +:+ x).
Proof. reflexivity. Qed.

Lemma append_empty_l (x : string) : EmptyString +:+ x = x.
Proof. reflexivity. Qed.

Lemma append_empty_r (s : string) : s +:+ EmptyString = s.
Proof. induction s as [|c s IH]; [reflexivity|]. now rewrite append_cons, IH. Qed.

Lemma append_assoc (s t u : string) : (s +:+ t) +:+ u = s +:+ (t +:+ u).
Proof. induction s as [|c s IH]; [reflexivity|]. now rewrite !append_cons, IH. Qed.

Lemma length_append (s t : string) :
  String.length (s +:+ t) = (String.length s + String.length t)%nat.
Proof. induction s as [|c s IH]; [reflexivity|]. rewrite append_cons. simpl. now rewrite IH. Qed.

Lemma length_drop (n : nat) (s : string) :
  String.length (Js.drop n s) = (String.length s - n)%nat.
Proof.
  revert s; induction n as [|n IH]; intros [|c s]; simpl; try reflexivity.
  apply IH.
Qed.

Lemma length_take (n : nat) (s : string) :
  String.length (Js.take n s) = Nat.min n (String.length s).
Proof.
  revert s; induction n as [|n IH]; intros [|c s]; simpl; try reflexivity.
  now rewrite IH.
Qed.

Lemma take_drop (n : nat) (s : string) : Js.take n s +:+ Js.drop n s = s.
Proof.
  revert s; induction n as [|n IH]; intros [|c s]; simpl; try reflexivity.
  now rewrite append_cons, IH.
Qed.

Lemma take_all (n : nat) (s : string) : (String.length s <= n)%nat -> Js.take n s = s.
Proof.
  revert s; induction n as [|n IH]; intros [|c s] H; simpl in *; try reflexivity; try lia.
  rewrite IH; [reflexivity | lia].
Qed.

Lemma drop_append (n : nat) (s x : string) :
  (n <= String.length s)%nat -> Js.drop n (s +:+ x) = Js.drop n s +:+ x.
Proof.
  revert s; induction n as [|n IH]; intros [|c s] H; simpl in *; try reflexivity; try lia.
  apply IH. lia.
Qed.

Lemma take_append (n : nat) (s x : string) :
  (n <= String.length s)%nat -> Js.take n (s +:+ x) = Js.take n s.
Proof.
  revert s; induction n as [|n IH]; intros [|c s] H; simpl in *; try reflexivity; try lia.
  rewrite IH; [reflexivity | lia].
Qed.

Lemma take_append_exact (s x : string) : Js.take (String.length s) (s +:+ x) = s.
Proof. rewrite take_append by lia. apply take_all. lia. Qed.

Lemma slice_append (a b : nat) (s x : string) :
  (b <= String.length s)%nat -> Js.slice a b (s +:+ x) = Js.slice a b s.
Proof.
  intros Hb. unfold Js.slice.
  destruct (Nat.le_gt_cases a b) as [Hab | Hab].
  - rewrite drop_append by lia. apply take_append. rewrite length_drop. lia.
  - replace (b - a)%nat with 0%nat by lia. reflexivity.
Qed.

(** A prefix test that succeeds keeps succeeding on a longer subject, and
    one that succeeds on a longer subject already succeeds on the shorter
    one when the pattern fits. *)
Lemma prefix_append (p s x : string) :
  String.prefix p s = true -> String.prefix p (s +:+ x) = true.
Proof.
  revert s; induction p as [|a p IH]; intros [|b s] H; simpl in *; try reflexivity;
    try discriminate.
  - destruct x; reflexivity.
  - destruct (ascii_dec a b); [auto | discriminate].
Qed.

Lemma prefix_length (p s : string) :
  String.prefix p s = true -> (String.length p <= String.length s)%nat.
Proof.
  revert s; induction p as [|a p IH]; intros [|b s] H; simpl in *; try lia; try discriminate.
  destruct (ascii_dec a b); [|discriminate]. apply IH in H. lia.
Qed.

Lemma prefix_append_inv (p s x : string) :
  String.prefix p (s +:+ x) = true -> (String.length p <= String.length s)%nat ->
  String.prefix p s = true.
Proof.
  revert s; induction p as [|a p IH]; intros [|b s] H Hl; simpl in *; try reflexivity;
    try lia.
  destruct (ascii_dec a b); [|discriminate]. apply IH; [assumption | lia].
Qed.

Lemma index_cons_0 (p : string) (b : ascii) (s : string) :
  String.index 0 p (String b s) =
  if String.prefix p (String b s) then Some 0%nat
  else match String.index 0 p s with Some n => Some (S n) | None => None end.
Proof. reflexivity. Qed.

Lemma index_cons_S (n : nat) (p : string) (b : ascii) (s : string) :
  String.index (S n) p (String b s) =
  match String.index n p s with Some n => Some (S n) | None => None end.
Proof. reflexivity. Qed.

(** A match found by [indexOf] lies inside the subject, at or after the
    starting position. *)
Lemma indexOf_bounds (p : string) (n : nat) (s : string) (k : nat) :
  Js.indexOf p n s = Some k -> (n <= k /\ k + String.length p <= String.length s)%nat.
Proof.
  unfold Js.indexOf. revert n k; induction s as [|b s IH]; intros n k H.
  - destruct n; simpl in H; [|discriminate]. destruct p; [|discriminate].
    injection H as <-. simpl. lia.
  - destruct n as [|n]; [rewrite index_cons_0 in H | rewrite index_cons_S in H].
    + destruct (String.prefix p (String b s)) eqn:Hp.
      * injection H as <-. apply prefix_length in Hp. lia.
      * destruct (String.index 0 p s) as [k'|] eqn:Hi; [|discriminate].
        injection H as <-. apply IH in Hi. simpl. lia.
    + destruct (String.index n p s) as [k'|] eqn:Hi; [|discriminate].
      injection H as <-. apply IH in Hi. simpl. lia.
Qed.

(** The first occurrence found in a buffer is still the first occurrence
    after more text is appended to the buffer. *)
Lemma indexOf_append (p : string) (n : nat) (s x : string) (k : nat) :
  Js.indexOf p n s = Some k -> Js.indexOf p n (s +:+ x) = Some k.
Proof.
  unfold Js.indexOf. revert n k; induction s as [|b s IH]; intros n k H.
  - destruct n; simpl in H; [|discriminate]. destruct p; [|discriminate].
    injection H as <-. rewrite append_empty_l. destruct x; reflexivity.
  - rewrite append_cons.
    destruct n as [|n]; [rewrite index_cons_0 in H |- * | rewrite index_cons_S in H |- *].
    + destruct (String.prefix p (String b s)) eqn:Hp.
      * injection H as <-.
        pose proof (prefix_append p (String b s) x Hp) as Hq.
        rewrite append_cons in Hq. now rewrite Hq.
      * destruct (String.index 0 p s) as [k'|] eqn:Hi; [|discriminate].
        injection H as <-.
        destruct (String.prefix p (String b (s +:+ x))) eqn:Hq.
        -- exfalso. apply indexOf_bounds in Hi.
           rewrite <- append_cons in Hq. apply prefix_append_inv in Hq.
           ++ congruence.
           ++ simpl. lia.
        -- now rewrite (IH _ _ Hi).
    + destruct (String.index n p s) as [k'|] eqn:Hi; [|discriminate].
      injection H as <-. now rewrite (IH _ _ Hi).
Qed.

Example js_slice_ex : Js.slice 2 5 "abcdefg" = "cde" /\ Js.slice 5 2 "abcdefg" = EmptyString.
Proof. split; reflexivity. Qed.

Example js_trim_ex : Js.trim "  a b
" = "a b".
Proof. reflexivity. Qed.

Example js_split_ex : Js.split "," "a,b,,c" = ["a"; "b"; EmptyString; "c"].
Proof. reflexivity. Qed.

Example js_endsWith_ex : Js.endsWith "@lid" "123:4@lid" = true /\ Js.endsWith "@lid" "lid" = false.
Proof. split; reflexivity. Qed.

Example js_indexOf_ex :
  Js.indexOf "bc" 0 "abcabc" = Some 1%nat /\ Js.indexOf "bc" 2 "abcabc" = Some 4%nat
  /\ Js.indexOf "x" 0 "abc" = None.
Proof. repeat split; reflexivity. Qed.

Lemma take_past (a c : string) (k : nat) :
  Js.take (String.length a + k) (a +:+ c) = a +:+ Js.take k c.
Proof. induction a as [|x a IH]; [reflexivity|]. simpl. now rewrite IH. Qed.

(** A first occurrence is also the first one from any earlier position. *)
Lemma indexOf_from (p : string) (n : nat) (s : string) (j : nat) :
  Js.indexOf p 0 s = Some j -> (n <= j)%nat -> Js.indexOf p n s = Some j.
Proof.
  unfold Js.indexOf. revert n j; induction s as [|b s IH]; intros n j H Hn.
  - simpl in H. destruct p; [|discriminate]. injection H as <-.
    now replace n with 0%nat by lia.
  - destruct n as [|n]; [assumption|].
    rewrite index_cons_0 in H. rewrite index_cons_S.
    destruct (String.prefix p (String b s)); [injection H as <-; lia|].
    destruct (String.index 0 p s) as [j'|] eqn:Hi; [|discriminate].
    injection H as <-. rewrite (IH n j' eq_refl); [reflexivity | lia].
Qed.

End StringFacts.

(** ** The agent runner *)

Module AgentRunnerFacts.
Import AgentRunner.

(** *** The scanner *)

Lemma end_marker_length : String.length OUTPUT_END_MARKER = 25%nat.
Proof. reflexivity. Qed.

Lemma start_marker_length : String.length OUTPUT_START_MARKER = 27%nat.
Proof. reflexivity. Qed.

(** Each frame taken out of the buffer makes the buffer shorter. *)
Lemma nextFrame_shrinks (buf jsonStr rest : string) :
  nextFrame buf = Some (jsonStr, rest) -> (String.length rest < String.length buf)%nat.
Proof.
  unfold nextFrame.
  destruct (Js.indexOf OUTPUT_START_MARKER 0 buf) as [i|] eqn:Hi; [|discriminate].
  destruct (Js.indexOf OUTPUT_END_MARKER i buf) as [j|] eqn:Hj; [|discriminate].
  intros [= _ <-]. apply indexOf_bounds in Hj.
  rewrite length_drop. rewrite end_marker_length in *. lia.
Qed.

(** A frame that is complete in the buffer is found unchanged when more
    output follows it. *)
Lemma nextFrame_append (buf x jsonStr rest : string) :
  nextFrame buf = Some (jsonStr, rest) ->
  nextFrame (buf +:+ x) = Some (jsonStr, rest +:+ x).
Proof.
  unfold nextFrame.
  destruct (Js.indexOf OUTPUT_START_MARKER 0 buf) as [i|] eqn:Hi; [|discriminate].
  destruct (Js.indexOf OUTPUT_END_MARKER i buf) as [j|] eqn:Hj; [|discriminate].
  intros [= <- <-].
  rewrite (indexOf_append _ _ _ x _ Hi), (indexOf_append _ _ _ x _ Hj).
  apply indexOf_bounds in Hj.
  rewrite slice_append by lia. rewrite drop_append by lia. reflexivity.
Qed.

Lemma scanFuel_irrelevant (f1 f2 : nat) (buf : string) :
  (String.length buf < f1)%nat -> (String.length buf < f2)%nat ->
  scanFuel f1 buf = scanFuel f2 buf.
Proof.
  revert f2 buf; induction f1 as [|f1 IH]; intros f2 buf H1 H2; [lia|].
  destruct f2 as [|f2]; [lia|]. simpl.
  destruct (nextFrame buf) as [[j rest]|] eqn:Hn; [|reflexivity].
  apply nextFrame_shrinks in Hn. rewrite (IH f2 rest) by lia. reflexivity.
Qed.

Lemma scan_unfold (buf : string) :
  scan buf = match nextFrame buf with
             | None => ([], buf)
             | Some (jsonStr, rest) => let '(js, b) := scan rest in (jsonStr :: js, b)
             end.
Proof.
  unfold scan at 1. simpl.
  destruct (nextFrame buf) as [[j rest]|] eqn:Hn; [|reflexivity].
  apply nextFrame_shrinks in Hn.
  rewrite (scanFuel_irrelevant _ (S (String.length rest)) rest) by lia. reflexivity.
Qed.

(** Chunk-boundary independence: scanning a buffer and then, after more
    output arrives, scanning what was left together with the new output,
    finds the frames of the whole text. *)
Lemma scan_append (buf x : string) :
  scan (buf +:+ x) =
  let '(ps, b) := scan buf in let '(qs, b') := scan (b +:+ x) in (ps ++ qs, b').
Proof.
  remember (String.length buf) as n eqn:Hn.
  revert buf Hn; induction n as [n IH] using lt_wf_ind; intros buf ->.
  rewrite (scan_unfold buf).
  destruct (nextFrame buf) as [[j rest]|] eqn:Hf.
  - rewrite (scan_unfold (buf +:+ x)), (nextFrame_append _ x _ _ Hf).
    apply nextFrame_shrinks in Hf.
    rewrite (IH _ Hf rest eq_refl).
    destruct (scan rest) as [ps b]. destruct (scan (b +:+ x)) as [qs b']. reflexivity.
  - destruct (scan (buf +:+ x)) as [qs b']. reflexivity.
Qed.

(** The frames of a captured prefix are the first frames of the whole. *)
Lemma scan_prefix (captured more : string) :
  exists later, fst (scan (captured +:+ more)) = fst (scan captured) ++ later.
Proof.
  rewrite scan_append. destruct (scan captured) as [ps b].
  destruct (scan (b +:+ more)) as [qs b']. now exists qs.
Qed.

(** *** Which handler touches which part of the state *)

Section RunnerFacts.

Variable cfg : Config.

Lemma pump_frame (s : Run) :
  cap (pump s) = cap s /\ strm (pump s) = strm s /\ tmr (pump s) = tmr s
  /\ io (pump s) = io s.
Proof.
  unfold pump. destruct (rejected (chain s)); [easy|].
  destruct (running (chain s)); [easy|].
  destruct (runJobs _ _ _) as [[js r] res]. easy.
Qed.

Lemma onFrame_frame (j : string) (s : Run) :
  cap (onFrame cfg j s) = cap s /\ io (onFrame cfg j s) = io s
  /\ resolved (onFrame cfg j s) = resolved s
  /\ parseBuffer (strm (onFrame cfg j s)) = parseBuffer (strm s).
Proof. unfold onFrame. destruct (JSON_parse cfg j); easy. Qed.

Lemma streamLoop_frame (fuel : nat) (s : Run) :
  cap (streamLoop cfg fuel s) = cap s /\ io (streamLoop cfg fuel s) = io s
  /\ resolved (streamLoop cfg fuel s) = resolved s.
Proof.
  revert s; induction fuel as [|fuel IH]; intros s; [easy|]. simpl.
  destruct (nextFrame (parseBuffer (strm s))) as [[j rest]|]; [|easy].
  destruct (IH (onFrame cfg j
    (withStrm (mkStream rest (lastSessionId (strm s)) (hadStreamingOutput (strm s))
                        (parsedLog (strm s))) s))) as (-> & -> & ->).
  pose proof (onFrame_frame j (withStrm (mkStream rest (lastSessionId (strm s))
    (hadStreamingOutput (strm s)) (parsedLog (strm s))) s)) as (-> & -> & -> & _). easy.
Qed.

Lemma onFrame_parsed (j : string) (s : Run) :
  parsedLog (strm (onFrame cfg j s)) = parsedLog (strm s) ++ parsedOne cfg j
  /\ deliveries (jobs (chain (onFrame cfg j s)))
     = deliveries (jobs (chain s)) ++ parsedOne cfg j
  /\ started (chain (onFrame cfg j s)) = started (chain s)
  /\ finished (chain (onFrame cfg j s)) = finished (chain s)
  /\ running (chain (onFrame cfg j s)) = running (chain s)
  /\ rejected (chain (onFrame cfg j s)) = rejected (chain s).
Proof.
  unfold onFrame, parsedOne, parsedOf. simpl.
  destruct (JSON_parse cfg j) as [o|m]; simpl.
  - unfold deliveries. rewrite omap_app. easy.
  - rewrite !app_nil_r. easy.
Qed.

(** The scanner loop of the stdout handler extracts the frames of
    [scan], parses them in order and leaves the rest buffered. *)
Lemma streamLoop_scan (fuel : nat) (s : Run) :
  (String.length (parseBuffer (strm s)) < fuel)%nat ->
  let s' := streamLoop cfg fuel s in
  let '(payloads, kept) := scan (parseBuffer (strm s)) in
  parseBuffer (strm s') = kept
  /\ parsedLog (strm s') = parsedLog (strm s) ++ parsedOf (JSON_parse cfg) payloads
  /\ deliveries (jobs (chain s'))
     = deliveries (jobs (chain s)) ++ parsedOf (JSON_parse cfg) payloads
  /\ started (chain s') = started (chain s)
  /\ finished (chain s') = finished (chain s)
  /\ running (chain s') = running (chain s)
  /\ rejected (chain s') = rejected (chain s).
Proof.
  revert s; induction fuel as [|fuel IH]; intros s Hf; [lia|].
  simpl. rewrite scan_unfold.
  destruct (nextFrame (parseBuffer (strm s))) as [[j rest]|] eqn:Hn.
  - set (s1 := withStrm _ s).
    pose proof (onFrame_parsed j s1) as (Hp & Hd & Hs & Hfi & Hr & Hrj).
    pose proof (onFrame_frame j s1) as (_ & _ & _ & Hb).
    apply nextFrame_shrinks in Hn.
    specialize (IH (onFrame cfg j s1)). rewrite Hb in IH. simpl in IH.
    specialize (IH ltac:(lia)).
    destruct (scan rest) as [js kept].
    destruct IH as (-> & -> & -> & -> & -> & -> & ->).
    rewrite Hp, Hd, Hs, Hfi, Hr, Hrj. simpl.
    unfold parsedOne, parsedOf. simpl.
    destruct (JSON_parse cfg j); simpl; rewrite <- ?app_assoc; simpl; easy.
  - simpl. unfold parsedOf. simpl. rewrite !app_nil_r. easy.
Qed.

(** *** Capture up to the ceiling *)

Lemma capture_spec (all chunk : string) :
  let ceiling := CONTAINER_MAX_OUTPUT_SIZE cfg in
  capture cfg (Js.take ceiling all) (ceiling <? String.length all)%nat chunk
  = (Js.take ceiling (all +:+ chunk), (ceiling <? String.length (all +:+ chunk))%nat).
Proof.
  intros ceiling. unfold capture. fold ceiling. rewrite length_append.
  destruct (ceiling <? String.length all)%nat eqn:Ht.
  - apply Nat.ltb_lt in Ht. rewrite take_append by lia.
    f_equal. symmetry. apply Nat.ltb_lt. lia.
  - apply Nat.ltb_ge in Ht. rewrite (take_all ceiling all Ht).
    destruct (ceiling - String.length all <? String.length chunk)%nat eqn:Hr.
    + apply Nat.ltb_lt in Hr. f_equal.
      * replace ceiling with (String.length all + (ceiling - String.length all))%nat at 2
          by lia.
        now rewrite take_past.
      * symmetry. apply Nat.ltb_lt. lia.
    + apply Nat.ltb_ge in Hr. f_equal.
      * symmetry. apply take_all. rewrite length_append. lia.
      * symmetry. apply Nat.ltb_ge. lia.
Qed.

Lemma stdoutAll_snoc (tr : list Event) (e : Event) :
  stdoutAll (tr ++ [e]) =
  stdoutAll tr +:+ match e with StdoutData chunk => chunk | _ => EmptyString end.
Proof.
  induction tr as [|x tr IH]; simpl.
  - destruct e; simpl; try reflexivity. apply append_empty_r.
  - destruct x; simpl; rewrite IH; try reflexivity. now rewrite append_assoc.
Qed.

Lemma stderrAll_snoc (tr : list Event) (e : Event) :
  stderrAll (tr ++ [e]) =
  stderrAll tr +:+ match e with StderrData chunk => chunk | _ => EmptyString end.
Proof.
  induction tr as [|x tr IH]; simpl.
  - destruct e; simpl; try reflexivity. apply append_empty_r.
  - destruct x; simpl; rewrite IH; try reflexivity. now rewrite append_assoc.
Qed.

Lemma run_snoc (s : Run) (tr : list Event) (e : Event) :
  run cfg s (tr ++ [e]) = step cfg (run cfg s tr) e.
Proof. unfold run. now rewrite fold_left_app. Qed.

Lemma run_app (s : Run) (tr1 tr2 : list Event) :
  run cfg s (tr1 ++ tr2) = run cfg (run cfg s tr1) tr2.
Proof. unfold run. now rewrite fold_left_app. Qed.

(** The capture of [step]: only the data events change it. *)
Lemma step_cap (s : Run) (e : Event) :
  cap (step cfg s e) =
  match e with
  | StdoutData chunk =>
      let '(out, t) := capture cfg (stdout (cap s)) (stdoutTruncated (cap s)) chunk in
      mkCapture out (stderr (cap s)) t (stderrTruncated (cap s))
  | StderrData chunk =>
      let '(err, t) := capture cfg (stderr (cap s)) (stderrTruncated (cap s)) chunk in
      mkCapture (stdout (cap s)) err (stdoutTruncated (cap s)) t
  | _ => cap s
  end.
Proof.
  unfold step. rewrite (proj1 (pump_frame _)).
  destruct e as [chunk|chunk|ms|o|code|m]; simpl.
  - unfold onStdoutData. destruct (capture _ _ _ _) as [out t].
    destruct (onOutput cfg); [|reflexivity].
    now rewrite (proj1 (streamLoop_frame _ _)).
  - unfold onStderrData. now destruct (capture _ _ _ _).
  - unfold elapse. destruct (timeout (tmr s)) as [due|]; [|reflexivity].
    now destruct (due <=? _).
  - unfold onDeliverySettled. destruct (running (chain s)); [|reflexivity]. now destruct o.
  - unfold onClose. simpl. destruct (timedOut (tmr s)); simpl.
    + now destruct (hadStreamingOutput (strm s)).
    + destruct (negb _); [reflexivity|]. now destruct (onOutput cfg).
  - reflexivity.
Qed.

(** What was captured is the first [ceiling] characters of what the
    worker wrote, and the flag tells whether it wrote more. *)
Lemma captured_prefix (input0 : ContainerInput) (tr : list Event) :
  let s := run cfg (spawned cfg input0) tr in
  let ceiling := CONTAINER_MAX_OUTPUT_SIZE cfg in
  stdout (cap s) = Js.take ceiling (stdoutAll tr)
  /\ stdoutTruncated (cap s) = (ceiling <? String.length (stdoutAll tr))%nat
  /\ stderr (cap s) = Js.take ceiling (stderrAll tr)
  /\ stderrTruncated (cap s) = (ceiling <? String.length (stderrAll tr))%nat.
Proof.
  induction tr as [|e tr IH] using rev_ind; simpl.
  - repeat split; try reflexivity; now destruct (CONTAINER_MAX_OUTPUT_SIZE cfg).
  - simpl in IH. destruct IH as (Ho & Hot & He & Het).
    rewrite run_snoc, step_cap, stdoutAll_snoc, stderrAll_snoc.
    destruct e as [chunk|chunk|ms|o|code|m]; rewrite ?append_empty_r; try easy.
    + rewrite Ho, Hot, capture_spec. easy.
    + rewrite He, Het, capture_spec. easy.
Qed.

(** *** The delivery chain *)





#[local] Arguments streamLoop : simpl never.


Lemma fireForceKills_closed (upto : Z) (due : list Z) (t : Timers) :
  closed (fireForceKills upto due t) = closed t.
Proof.
  revert t; induction due as [|d due IH]; intros t; [reflexivity|]. simpl. rewrite IH.
  destruct (d <=? upto); [|reflexivity]. unfold forceKillFires, kill.
  destruct (killed t); [reflexivity|]. destruct (closed t) eqn:E; simpl; congruence.
Qed.

Lemma elapse_frame (ms : Z) (s : Run) :
  cap (elapse ms s) = cap s /\ strm (elapse ms s) = strm s
  /\ chain (elapse ms s) = chain s /\ io (elapse ms s) = io s
  /\ resolved (elapse ms s) = resolved s
  /\ closed (tmr (elapse ms s)) = closed (tmr s).
Proof.
  unfold elapse. destruct (timeout (tmr s)) as [due|]; simpl.
  - destruct (due <=? _); simpl; rewrite fireForceKills_closed; repeat split.
    unfold killOnTimeout, kill. simpl. destruct (closed (tmr s)) eqn:E; simpl; congruence.
  - rewrite fireForceKills_closed. repeat split.
Qed.




(** *** What reaches the disk *)

Lemma onStdoutData_frame (chunk : string) (s : Run) :
  io (onStdoutData cfg chunk s) = io s
  /\ resolved (onStdoutData cfg chunk s) = resolved s.
Proof.
  unfold onStdoutData. destruct (capture _ _ _ _) as [out t].
  destruct (onOutput cfg); [|easy]. cbv zeta.
  destruct (streamLoop_frame (S (String.length (parseBuffer (strm (withCap (mkCapture out
    (stderr (cap s)) t (stderrTruncated (cap s))) s)) +:+ chunk)))
    (withStrm (mkStream (parseBuffer (strm (withCap (mkCapture out (stderr (cap s)) t
      (stderrTruncated (cap s))) s)) +:+ chunk)
      (lastSessionId (strm (withCap (mkCapture out (stderr (cap s)) t
         (stderrTruncated (cap s))) s)))
      (hadStreamingOutput (strm (withCap (mkCapture out (stderr (cap s)) t
         (stderrTruncated (cap s))) s)))
      (parsedLog (strm (withCap (mkCapture out (stderr (cap s)) t
         (stderrTruncated (cap s))) s))))
      (withCap (mkCapture out (stderr (cap s)) t (stderrTruncated (cap s))) s)))
    as (_ & -> & ->). easy.
Qed.

Lemma onDeliverySettled_frame (o : Outcome) (s : Run) :
  cap (onDeliverySettled o s) = cap s /\ strm (onDeliverySettled o s) = strm s
  /\ tmr (onDeliverySettled o s) = tmr s /\ io (onDeliverySettled o s) = io s
  /\ resolved (onDeliverySettled o s) = resolved s.
Proof.
  unfold onDeliverySettled. destruct (running (chain s)); [|easy]. now destruct o.
Qed.

Lemma step_io (s : Run) (e : Event) :
  input (io (step cfg s e)) = input (io s)
  /\ stdinWritten (io (step cfg s e)) = stdinWritten (io s)
  /\ exists files, disk (io (step cfg s e)) = disk (io s) ++ files
       /\ (secrets (input (io s)) = None -> Forall noSecretsOnDisk files)
       /\ (forall code, e = Close code -> timedOut (tmr s) = false ->
           exists body, files = [RunLog (isMain (input (io s))) code
                                   (stdoutTruncated (cap s)) (stderrTruncated (cap s)) body]).
Proof.
  unfold step. rewrite (proj2 (proj2 (proj2 (pump_frame _)))).
  destruct e as [chunk|chunk|ms|o|code|m].
  - rewrite (proj1 (onStdoutData_frame _ _)). repeat split. exists []. rewrite app_nil_r.
    repeat split; [constructor | discriminate].
  - unfold onStderrData. destruct (capture _ _ _ _). repeat split.
    exists []. rewrite app_nil_r. repeat split; [constructor | discriminate].
  - destruct (elapse_frame ms s) as (_ & _ & _ & -> & _). repeat split.
    exists []. rewrite app_nil_r. repeat split; [constructor | discriminate].
  - destruct (onDeliverySettled_frame o s) as (_ & _ & _ & -> & _).
    repeat split. exists []. rewrite app_nil_r.
    repeat split; [constructor | discriminate].
  - unfold onClose. simpl. destruct (timedOut (tmr s)) eqn:Hto; simpl.
    + destruct (hadStreamingOutput (strm s)); simpl; repeat split;
        (eexists; split; [reflexivity|]; split;
         [intros _; repeat constructor | intros c _ Hc; discriminate]).
    + set (body := if isVerbose cfg || negb (bool_decide (code = Some 0)) then _ else _).
      assert (Hbody : secrets (input (io s)) = None ->
                      noSecretsOnDisk (RunLog (isMain (input (io s))) code
                        (stdoutTruncated (cap s)) (stderrTruncated (cap s)) body)).
      { intros Hs. subst body. simpl. now destruct (isVerbose cfg || _). }
      destruct (negb (bool_decide (code = Some 0))); simpl;
        [|destruct (onOutput cfg); simpl]; repeat split;
        (eexists; split; [reflexivity|]; split;
         [intros Hs; repeat constructor; now apply Hbody
         | intros c [= <-] _; now exists body]).
  - repeat split. exists []. rewrite app_nil_r.
    repeat split; [constructor | discriminate].
Qed.

Lemma disk_invariant (input0 : ContainerInput) (tr : list Event) :
  let s := run cfg (spawned cfg input0) tr in
  input (io s) = setSecrets None input0
  /\ stdinWritten (io s) = [setSecrets (Some (readSecrets cfg)) input0]
  /\ Forall noSecretsOnDisk (disk (io s)).
Proof.
  induction tr as [|e tr IH] using rev_ind; simpl.
  - repeat split. destruct (settingsExist cfg); repeat constructor.
  - simpl in IH. destruct IH as (Hi & Hw & Hd). rewrite run_snoc.
    destruct (step_io (run cfg (spawned cfg input0) tr) e)
      as (-> & -> & files & -> & Hf & _).
    repeat split; try assumption.
    apply Forall_app. split; [assumption|]. apply Hf. now rewrite Hi.
Qed.

(** *** The events parsed over a whole run *)

Lemma step_strm (s : Run) (e : Event) :
  match e with
  | StdoutData chunk =>
      onOutput cfg = true ->
      parseBuffer (strm (step cfg s e)) = snd (scan (parseBuffer (strm s) +:+ chunk))
      /\ parsedLog (strm (step cfg s e))
         = parsedLog (strm s)
           ++ parsedOf (JSON_parse cfg) (fst (scan (parseBuffer (strm s) +:+ chunk)))
  | _ => strm (step cfg s e) = strm s
  end.
Proof.
  unfold step. rewrite (proj1 (proj2 (pump_frame _))).
  destruct e as [chunk|chunk|ms|o|code|m].
  - intros Hon. unfold onStdoutData. destruct (capture _ _ _ _) as [out t].
    rewrite Hon. cbv zeta.
    set (s1 := withStrm _ _).
    assert (Hlen : (String.length (parseBuffer (strm s1))
                    < S (String.length (parseBuffer (strm s) +:+ chunk)))%nat)
      by (simpl; lia).
    pose proof (streamLoop_scan (S (String.length (parseBuffer (strm s) +:+ chunk))) s1 Hlen)
      as Hs.
    cbv zeta in Hs.
    change (parseBuffer (strm s1)) with (parseBuffer (strm s) +:+ chunk) in Hs.
    change (parsedLog (strm s1)) with (parsedLog (strm s)) in Hs.
    destruct (scan (parseBuffer (strm s) +:+ chunk)) as [payloads kept].
    destruct Hs as (Hb & Hp & _). simpl. split; assumption.
  - unfold onStderrData. now destruct (capture _ _ _ _).
  - now destruct (elapse_frame ms s) as (_ & -> & _).
  - now destruct (onDeliverySettled_frame o s) as (_ & -> & _).
  - unfold onClose. simpl. destruct (timedOut (tmr s)); simpl.
    + now destruct (hadStreamingOutput (strm s)).
    + destruct (negb _); [reflexivity|]. now destruct (onOutput cfg).
  - reflexivity.
Qed.

(** In streaming mode the events parsed during a run are those of the
    frames of the whole stdout text, however it was cut into chunks. *)
Lemma parsed_whole (input0 : ContainerInput) (tr : list Event) :
  onOutput cfg = true ->
  let s := run cfg (spawned cfg input0) tr in
  parseBuffer (strm s) = snd (scan (stdoutAll tr))
  /\ parsedLog (strm s) = parsedOf (JSON_parse cfg) (fst (scan (stdoutAll tr))).
Proof.
  intros Hon. induction tr as [|e tr IH] using rev_ind; simpl.
  - split; reflexivity.
  - simpl in IH. destruct IH as (Hb & Hp).
    rewrite run_snoc, stdoutAll_snoc.
    pose proof (step_strm (run cfg (spawned cfg input0) tr) e) as Hs.
    destruct e as [chunk|chunk|ms|o|code|m]; rewrite ?append_empty_r;
      try (rewrite Hs; split; assumption).
    destruct (Hs Hon) as (-> & ->). rewrite Hb, Hp.
    rewrite (scan_append (stdoutAll tr) chunk).
    destruct (scan (stdoutAll tr)) as [ps b]. simpl.
    destruct (scan (b +:+ chunk)) as [qs b']. simpl.
    split; [reflexivity|]. unfold parsedOf. now rewrite omap_app.
Qed.

(** *** Draining the chain *)

Lemma runJobs_sticky (sid : option string) (js : list Job) (x : ContainerOutput) :
  snd (runJobs sid js (Some x)) = Some x.
Proof. induction js as [|[o|] js IH]; simpl; auto. Qed.





(** *** The timer *)

Lemma fireForceKills_keeps (upto : Z) (due : list Z) (t : Timers) :
  timedOut (fireForceKills upto due t) = timedOut t
  /\ timeout (fireForceKills upto due t) = timeout t
  /\ (forall sig, In sig (signals t) -> In sig (signals (fireForceKills upto due t))).
Proof.
  revert t; induction due as [|d due IH]; intros t; [easy|]. simpl.
  destruct (IH (if d <=? upto then forceKillFires t else t)) as (-> & -> & Hs).
  destruct (d <=? upto); [|repeat split; auto]. unfold forceKillFires, kill in *.
  destruct (killed t); [repeat split; auto|].
  destruct (closed t) eqn:E; simpl in *; repeat split; auto.
  intros sig Hin. apply Hs. apply in_or_app. now left.
Qed.

Lemma onFrame_tmr (j : string) (s : Run) :
  (tmr (onFrame cfg j s) = tmr s /\ parsedLog (strm (onFrame cfg j s)) = parsedLog (strm s))
  \/ tmr (onFrame cfg j s) = tmr (resetTimeout cfg s).
Proof. unfold onFrame. destruct (JSON_parse cfg j); [now right | now left]. Qed.

Lemma streamLoop_S (fuel : nat) (s : Run) :
  streamLoop cfg (S fuel) s =
  match nextFrame (parseBuffer (strm s)) with
  | None => s
  | Some (jsonStr, rest) =>
      streamLoop cfg fuel
        (onFrame cfg jsonStr
           (withStrm (mkStream rest (lastSessionId (strm s)) (hadStreamingOutput (strm s))
                               (parsedLog (strm s))) s))
  end.
Proof. reflexivity. Qed.

(** The scanner loop leaves the timer alone when it parses no event, and
    re-arms it from now when it parses one. *)
Lemma streamLoop_tmr (fuel : nat) (s : Run) :
  (tmr (streamLoop cfg fuel s) = tmr s
   /\ parsedLog (strm (streamLoop cfg fuel s)) = parsedLog (strm s))
  \/ tmr (streamLoop cfg fuel s) = tmr (resetTimeout cfg s).
Proof.
  revert s; induction fuel as [|fuel IH]; intros s; [now left|].
  rewrite streamLoop_S.
  destruct (nextFrame (parseBuffer (strm s))) as [[j rest]|]; [|now left].
  set (s1 := withStrm _ s).
  destruct (IH (onFrame cfg j s1)) as [[Ht Hp] | Ht]; rewrite Ht.
  - destruct (onFrame_tmr j s1) as [[Ht1 Hp1] | Ht1].
    + left. rewrite Hp, Hp1, Ht1. easy.
    + right. rewrite Ht1. reflexivity.
  - right. unfold resetTimeout. simpl.
    destruct (onFrame_tmr j s1) as [[-> _] | ->]; reflexivity.
Qed.

Lemma onStdoutData_tmr (chunk : string) (s : Run) :
  (tmr (onStdoutData cfg chunk s) = tmr s
   /\ parsedLog (strm (onStdoutData cfg chunk s)) = parsedLog (strm s))
  \/ tmr (onStdoutData cfg chunk s) = tmr (resetTimeout cfg s).
Proof.
  unfold onStdoutData. destruct (capture _ _ _ _) as [out t].
  destruct (onOutput cfg); [|now left]. cbv zeta.
  set (s1 := withStrm _ _). set (fuel := S _).
  destruct (streamLoop_tmr fuel s1) as [[Ht Hp] | Ht]; [left | right]; rewrite Ht; easy.
Qed.

Ltac forceKills_keep Hs :=
  match goal with
  | |- context [fireForceKills ?u ?l ?t] =>
      destruct (fireForceKills_keeps u l t) as (-> & -> & Hs)
  end.

Lemma elapse_fires (ms due : Z) (s : Run) :
  timeout (tmr s) = Some due -> closed (tmr s) = false -> due <= now (tmr s) + Z.max 0 ms ->
  timedOut (tmr (elapse ms s)) = true /\ In SIGTERM (signals (tmr (elapse ms s)))
  /\ timeout (tmr (elapse ms s)) = None.
Proof.
  intros Ht Hc Hd. unfold elapse. rewrite Ht.
  destruct (due <=? now (tmr s) + Z.max 0 ms) eqn:Hb; [|apply Z.leb_gt in Hb; lia].
  cbn [tmr withTmr timedOut signals timeout]. forceKills_keep Hs.
  split; [|split; [apply Hs|]]; unfold killOnTimeout, kill; simpl; rewrite Hc; simpl;
    try reflexivity.
  apply in_or_app. right. now left.
Qed.

Lemma elapse_waits (ms due : Z) (s : Run) :
  timeout (tmr s) = Some due -> now (tmr s) + Z.max 0 ms < due ->
  timedOut (tmr (elapse ms s)) = timedOut (tmr s)
  /\ timeout (tmr (elapse ms s)) = Some due
  /\ now (tmr (elapse ms s)) = now (tmr s) + Z.max 0 ms
  /\ (forall sig, In sig (signals (tmr s)) -> In sig (signals (tmr (elapse ms s)))).
Proof.
  intros Ht Hd. unfold elapse. rewrite Ht.
  destruct (due <=? now (tmr s) + Z.max 0 ms) eqn:Hb; [apply Z.leb_le in Hb; lia|].
  cbn [tmr withTmr timedOut signals timeout now]. forceKills_keep Hs.
  repeat split; auto.
Qed.

Lemma elapse_idle (ms : Z) (s : Run) :
  timeout (tmr s) = None ->
  timedOut (tmr (elapse ms s)) = timedOut (tmr s)
  /\ timeout (tmr (elapse ms s)) = None
  /\ (forall sig, In sig (signals (tmr s)) -> In sig (signals (tmr (elapse ms s)))).
Proof.
  intros Ht. unfold elapse. rewrite Ht.
  cbn [tmr withTmr timedOut signals timeout now]. forceKills_keep Hs.
  repeat split; auto.
Qed.

Lemma setTimeoutDelay_bounds (delay : Z) :
  1 <= setTimeoutDelay delay <= 2147483647
  /\ (1 <= delay <= 2147483647 -> setTimeoutDelay delay = delay).
Proof.
  unfold setTimeoutDelay.
  destruct (2147483647 <? delay) eqn:Hhi; destruct (delay <? 1) eqn:Hlo; simpl;
    try apply Z.ltb_lt in Hhi; try apply Z.ltb_lt in Hlo;
    try apply Z.ltb_ge in Hhi; try apply Z.ltb_ge in Hlo; lia.
Qed.

Lemma step_TimerInv (s : Run) (e : Event) :
  whileRunning e = true -> TimerInv cfg s -> TimerInv cfg (step cfg s e).
Proof.
  intros He (Hc & Ht & Hs). unfold TimerInv, step.
  rewrite (proj1 (proj2 (proj2 (pump_frame _)))).
  pose proof (setTimeoutDelay_bounds (timeoutMs cfg)) as [Hdelay _].
  destruct e as [chunk|chunk|ms|o|code|m]; try discriminate.
  - destruct (onStdoutData_tmr chunk s) as [[-> _] | ->]; [easy|].
    unfold resetTimeout. simpl. repeat split; auto; lia.
  - unfold onStderrData. destruct (capture _ _ _ _). easy.
  - destruct (elapse_frame ms s) as (_ & _ & _ & _ & _ & ->). split; [assumption|].
    destruct (timeout (tmr s)) as [due|] eqn:Hto.
    + destruct (Z.le_gt_cases due (now (tmr s) + Z.max 0 ms)) as [Hd | Hd].
      * destruct (elapse_fires ms due s Hto Hc Hd) as (-> & Hin & ->). easy.
      * destruct (elapse_waits ms due s Hto ltac:(lia)) as (-> & -> & -> & Hin).
        split; [lia|]. intros H. apply Hin. auto.
    + destruct (elapse_idle ms s Hto) as (-> & -> & Hin).
      split; [assumption|]. intros H. apply Hin. auto.
  - destruct (onDeliverySettled_frame o s) as (_ & _ & -> & _). easy.
Qed.

Lemma run_TimerInv (s : Run) (tr : list Event) :
  Forall (fun e => whileRunning e = true) tr -> TimerInv cfg s -> TimerInv cfg (run cfg s tr).
Proof.
  revert s; induction tr as [|e tr IH]; intros s Hall HI; [exact HI|].
  inversion Hall; subst. simpl. apply IH; [assumption|]. now apply step_TimerInv.
Qed.

(** *** A stretch without a streamed event *)

Lemma onFrame_grows (j : string) (s : Run) :
  exists more,
    parsedLog (strm (onFrame cfg j s)) = parsedLog (strm s) ++ more
    /\ (more = [] -> tmr (onFrame cfg j s) = tmr s).
Proof.
  unfold onFrame. destruct (JSON_parse cfg j) as [o|m]; simpl.
  - exists [o]. split; [reflexivity | discriminate].
  - exists []. now rewrite app_nil_r.
Qed.

Lemma streamLoop_grows (fuel : nat) (s : Run) :
  exists more,
    parsedLog (strm (streamLoop cfg fuel s)) = parsedLog (strm s) ++ more
    /\ (more = [] -> tmr (streamLoop cfg fuel s) = tmr s).
Proof.
  revert s; induction fuel as [|fuel IH]; intros s.
  - exists []. now rewrite app_nil_r.
  - rewrite streamLoop_S.
    destruct (nextFrame (parseBuffer (strm s))) as [[j rest]|];
      [|exists []; now rewrite app_nil_r].
    set (s1 := withStrm _ s).
    destruct (onFrame_grows j s1) as (m1 & H1 & T1).
    destruct (IH (onFrame cfg j s1)) as (m2 & H2 & T2).
    exists (m1 ++ m2). split.
    + rewrite H2, H1, app_assoc. reflexivity.
    + intros Hnil. apply app_eq_nil in Hnil as [-> ->].
      rewrite (T2 eq_refl), (T1 eq_refl). reflexivity.
Qed.

(** Every event leaves the parsed events in place, and a chunk of stdout
    that adds none leaves the timer alone. *)
Lemma step_grows (s : Run) (e : Event) :
  exists more,
    parsedLog (strm (step cfg s e)) = parsedLog (strm s) ++ more
    /\ (more = [] -> forall chunk, e = StdoutData chunk -> tmr (step cfg s e) = tmr s).
Proof.
  unfold step. rewrite (proj1 (proj2 (pump_frame _))), (proj1 (proj2 (proj2 (pump_frame _)))).
  destruct e as [chunk|chunk|ms|o|code|m].
  - unfold onStdoutData. destruct (capture _ _ _ _) as [out t].
    destruct (onOutput cfg).
    + cbv zeta. set (s1 := withStrm _ _). set (fuel := S _).
      destruct (streamLoop_grows fuel s1) as (more & H & T).
      exists more. split; [exact H|]. intros Hm ? _. now rewrite (T Hm).
    + exists []. now rewrite app_nil_r.
  - exists []. rewrite app_nil_r. unfold onStderrData. destruct (capture _ _ _ _).
    split; [reflexivity | discriminate].
  - exists []. rewrite app_nil_r. destruct (elapse_frame ms s) as (_ & -> & _).
    split; [reflexivity | discriminate].
  - exists []. rewrite app_nil_r.
    destruct (onDeliverySettled_frame o s) as (_ & -> & _).
    split; [reflexivity | discriminate].
  - exists []. rewrite app_nil_r. split; [|discriminate].
    unfold onClose. simpl. destruct (timedOut (tmr s)); simpl.
    + now destruct (hadStreamingOutput (strm s)).
    + destruct (negb _); simpl; [reflexivity|]. now destruct (onOutput cfg).
  - exists []. rewrite app_nil_r. split; [reflexivity | discriminate].
Qed.

Lemma run_grows (s : Run) (tr : list Event) :
  exists more, parsedLog (strm (run cfg s tr)) = parsedLog (strm s) ++ more.
Proof.
  revert s; induction tr as [|e tr IH]; intros s; [exists []; now rewrite app_nil_r|].
  simpl. destruct (step_grows s e) as (m1 & H1 & _).
  destruct (IH (step cfg s e)) as (m2 & H2). exists (m1 ++ m2).
  now rewrite H2, H1, app_assoc.
Qed.

Lemma step_Armed (s : Run) (e : Event) (due : Z) :
  whileRunning e = true -> closed (tmr s) = false ->
  parsedLog (strm (step cfg s e)) = parsedLog (strm s) ->
  Armed due s -> Armed due (step cfg s e).
Proof.
  intros He Hc Hlog HA.
  destruct (step_grows s e) as (more & Hm & Hquiet).
  assert (more = []) as ->.
  { rewrite Hm in Hlog. rewrite <- (app_nil_r (parsedLog (strm s))) in Hlog at 2.
    now apply app_inv_head in Hlog. }
  destruct e as [chunk|chunk|ms|o|code|m]; try discriminate.
  - unfold Armed. now rewrite (Hquiet eq_refl chunk eq_refl).
  - unfold Armed, step. rewrite (proj1 (proj2 (proj2 (pump_frame _)))).
    unfold onStderrData. now destruct (capture _ _ _ _).
  - unfold Armed, step. rewrite (proj1 (proj2 (proj2 (pump_frame _)))).
    destruct (timeout (tmr s)) as [d|] eqn:Hto.
    + destruct (Z.le_gt_cases d (now (tmr s) + Z.max 0 ms)) as [Hd | Hd].
      * destruct (elapse_fires ms d s Hto Hc Hd) as (-> & Hin & _). now left.
      * destruct (elapse_waits ms d s Hto ltac:(lia)) as (-> & -> & -> & Hin).
        destruct HA as [[Ht Hs] | [Hd' Hn]]; [left; auto|].
        rewrite Hto in Hd'. injection Hd' as <-. right. split; [reflexivity | lia].
    + destruct (elapse_idle ms s Hto) as (-> & _ & Hin).
      destruct HA as [[Ht Hs] | [Hd' _]]; [left; auto | congruence].
  - unfold Armed, step. rewrite (proj1 (proj2 (proj2 (pump_frame _)))).
    now destruct (onDeliverySettled_frame o s) as (_ & _ & -> & _).
Qed.

Lemma run_Armed (quiet : list Event) (s : Run) (due : Z) :
  Forall (fun e => whileRunning e = true) quiet -> TimerInv cfg s ->
  parsedLog (strm (run cfg s quiet)) = parsedLog (strm s) ->
  Armed due s -> Armed due (run cfg s quiet).
Proof.
  revert s; induction quiet as [|e quiet IH]; intros s Hall HI Hlog HA; [exact HA|].
  inversion Hall as [|? ? He Hrest]; subst. simpl in *.
  destruct (step_grows s e) as (m1 & H1 & _).
  destruct (run_grows (step cfg s e) quiet) as (m2 & H2).
  assert (m1 = [] /\ m2 = []) as [-> ->].
  { rewrite H2, H1, <- app_assoc in Hlog.
    rewrite <- (app_nil_r (parsedLog (strm s))) in Hlog at 2.
    apply app_inv_head in Hlog. now apply app_eq_nil in Hlog. }
  rewrite app_nil_r in H1, H2.
  apply IH; [assumption | now apply step_TimerInv | congruence |].
  apply step_Armed; [assumption | apply HI | assumption | assumption].
Qed.

(** *** While the worker runs *)





(** *** The promise settles once *)

Lemma pump_sticky (s : Run) (r : ContainerOutput) :
  resolved s = Some r -> resolved (pump s) = Some r.
Proof.
  intros H. unfold pump. destruct (rejected (chain s)); [assumption|].
  destruct (running (chain s)); [assumption|]. rewrite H.
  pose proof (runJobs_sticky (lastSessionId (strm s)) (jobs (chain s)) r) as Hs.
  now destruct (runJobs _ _ _) as [[js x] res].
Qed.

Lemma resolved_sticky (s : Run) (e : Event) (r : ContainerOutput) :
  resolved s = Some r -> resolved (step cfg s e) = Some r.
Proof.
  intros H. unfold step. apply pump_sticky.
  destruct e as [chunk|chunk|ms|o|code|m].
  - now rewrite (proj2 (onStdoutData_frame _ _)).
  - unfold onStderrData. now destruct (capture _ _ _ _).
  - now destruct (elapse_frame ms s) as (_ & _ & _ & _ & -> & _).
  - now destruct (onDeliverySettled_frame o s) as (_ & _ & _ & _ & ->).
  - unfold onClose. simpl. destruct (timedOut (tmr s)); simpl.
    + destruct (hadStreamingOutput (strm s)); simpl; now rewrite ?H.
    + destruct (negb _); simpl; [now rewrite H|].
      destruct (onOutput cfg); simpl; now rewrite ?H.
  - simpl. now rewrite H.
Qed.

Lemma run_sticky (s : Run) (tr : list Event) (r : ContainerOutput) :
  resolved s = Some r -> resolved (run cfg s tr) = Some r.
Proof.
  revert s; induction tr as [|e tr IH]; intros s H; [exact H|].
  simpl. apply IH. now apply resolved_sticky.
Qed.

(** *** The chain after ['close'] *)






End RunnerFacts.

(** C9. The secrets are written to the worker's stdin only: the input that
    was written there carries them, the caller's input has lost them when
    the spawn returns and never gets them back, and no file written during
    the run, the per-run log that serialises the input included, holds an
    input with secrets. *)
Theorem secrets_never_on_disk (cfg : Config) (input0 : ContainerInput) (tr : list Event) :
  let s := run cfg (spawned cfg input0) tr in
  stdinWritten (io s) = [setSecrets (Some (readSecrets cfg)) input0]
  /\ secrets (input (io (spawned cfg input0))) = None
  /\ Forall noSecretsOnDisk (disk (io (spawned cfg input0)))
  /\ secrets (input (io s)) = None
  /\ Forall noSecretsOnDisk (disk (io s)).
Proof.
  intros s. destruct (disk_invariant cfg input0 tr) as (Hi & Hw & Hd).
  destruct (disk_invariant cfg input0 []) as (_ & _ & Hd0).
  subst s. rewrite Hi. repeat split; assumption.
Qed.




(** C2 (as stated) does not hold: there is no absolute timer.  A worker
    that streams an event every 1000 s under a 1830 s timer is still
    running, unsignalled, after 4000 s. *)
Lemma streaming_worker_outlives_timeout :
  ~ (forall (cfg : Config) (input0 : ContainerInput) (tr : list Event),
        Forall (fun e => whileRunning e = true) tr ->
        let s := run cfg (spawned cfg input0) tr in
        timeoutMs cfg <= now (tmr s) ->
        timedOut (tmr s) = true /\ In SIGTERM (signals (tmr s))).
Proof.
  intros H.
  assert (Hall : Forall (fun e => whileRunning e = true) chatty_trace)
    by (repeat constructor).
  destruct (H chatty_config demoInput chatty_trace Hall) as [Hto _].
  - vm_compute. discriminate.
  - vm_compute in Hto. discriminate.
Qed.

(** C2 (amended). One timer is armed at spawn and armed anew by every
    streamed event.  Its delay is
    [timeoutMs = max(configTimeout, IDLE_TIMEOUT + 30 s)], hence never
    shorter than the idle timeout plus 30 s, as long as that is a delay
    [setTimeout] takes as it is (at most 2147483647 ms).  Whenever the delay
    passes without a streamed event while the worker runs, whatever else
    the worker writes and whatever deliveries settle meanwhile, the timer
    has fired and the worker has been sent SIGTERM. *)
Theorem idle_timer_kills (cfg : Config) (input0 : ContainerInput) (tr quiet : list Event) :
  Forall (fun e => whileRunning e = true) (tr ++ quiet) ->
  let s := run cfg (spawned cfg input0) tr in
  let s' := run cfg s quiet in
  parsedLog (strm s') = parsedLog (strm s) ->
  now (tmr s) + setTimeoutDelay (timeoutMs cfg) <= now (tmr s') ->
  IDLE_TIMEOUT cfg + 30000 <= timeoutMs cfg
  /\ (1 <= timeoutMs cfg <= 2147483647 -> setTimeoutDelay (timeoutMs cfg) = timeoutMs cfg)
  /\ timeout (tmr (spawned cfg input0)) = Some (setTimeoutDelay (timeoutMs cfg))
  /\ (forall chunk,
        parsedLog (strm (step cfg s (StdoutData chunk))) <> parsedLog (strm s) ->
        timeout (tmr (step cfg s (StdoutData chunk)))
        = Some (now (tmr s) + setTimeoutDelay (timeoutMs cfg)))
  /\ timedOut (tmr s') = true
  /\ In SIGTERM (signals (tmr s')).
Proof.
  intros Hall s s' Hlog Hnow. apply Forall_app in Hall as [Htr Hquiet].
  assert (HI : TimerInv cfg s).
  { apply run_TimerInv; [assumption|]. unfold TimerInv. simpl.
    pose proof (setTimeoutDelay_bounds (timeoutMs cfg)) as [Hd _].
    repeat split; [lia | lia | discriminate]. }
  split; [unfold timeoutMs; lia|]. split; [apply setTimeoutDelay_bounds|].
  split; [reflexivity|]. split.
  - intros chunk Hp. unfold step in *.
    rewrite (proj1 (proj2 (proj2 (pump_frame _)))).
    rewrite (proj1 (proj2 (pump_frame _))) in Hp.
    destruct (onStdoutData_tmr cfg chunk s) as [[_ He] | ->]; [congruence | reflexivity].
  - destruct HI as (Hc & Ht & Hs).
    destruct (timeout (tmr s)) as [due|] eqn:Hto.
    + assert (HA : Armed due (run cfg s quiet)).
      { apply run_Armed; [assumption | | assumption | right; split; [assumption | lia]].
        unfold TimerInv. rewrite Hto. auto. }
      fold s' in HA. destruct HA as [HA | [_ Hlt]]; [exact HA | lia].
    + assert (HA : Armed (now (tmr s)) (run cfg s quiet)).
      { apply run_Armed; [assumption | | assumption | left; auto].
        unfold TimerInv. rewrite Hto. auto. }
      fold s' in HA. destruct HA as [HA | [_ Hlt]]; [exact HA|].
      pose proof (setTimeoutDelay_bounds (timeoutMs cfg)) as [Hd _]. lia.
Qed.

(** An instance: the worker of the trace above falls silent as to events,
    though not as to output, for the length of the delay. *)
Lemma idle_timer_kills_witness :
  let cfg := chatty_config in
  let quiet := [StdoutData "still working"; Elapse 1000000; StderrData "warning";
                DeliverySettled Fulfilled; Elapse 830000] in
  let s := run cfg (spawned cfg demoInput) chatty_trace in
  let s' := run cfg s quiet in
  (Forall (fun e => whileRunning e = true) (chatty_trace ++ quiet)
   /\ parsedLog (strm s') = parsedLog (strm s)
   /\ now (tmr s) + setTimeoutDelay (timeoutMs cfg) <= now (tmr s')
   /\ setTimeoutDelay (timeoutMs cfg) = 1830000)
  /\ timedOut (tmr s') = true
  /\ In SIGTERM (signals (tmr s')).
Proof.
  intros cfg quiet s s'.
  assert (Hall : Forall (fun e => whileRunning e = true) (chatty_trace ++ quiet))
    by (simpl; repeat constructor).
  assert (Hlog : parsedLog (strm s') = parsedLog (strm s)) by (vm_compute; reflexivity).
  assert (Hnow : now (tmr s) + setTimeoutDelay (timeoutMs cfg) <= now (tmr s'))
    by (vm_compute; discriminate).
  split.
  - split; [exact Hall|]. split; [exact Hlog|]. split; [exact Hnow|].
    vm_compute. reflexivity.
  - exact (proj2 (proj2 (proj2 (proj2
             (idle_timer_kills chatty_config demoInput chatty_trace quiet Hall Hlog Hnow))))).
Defined.




(** C8 (as stated) does not hold: the result carries no truncation flag.
    Two runs that differ in whether stdout went over the ceiling resolve
    with the same result, so the flag cannot be read off the result. *)
Lemma result_carries_no_truncation_flag :
  ~ exists flagOf : ContainerOutput -> bool,
      forall (cfg : Config) (input0 : ContainerInput) (tr : list Event) (r : ContainerOutput),
        resolved (run cfg (spawned cfg input0) tr) = Some r ->
        flagOf r = (CONTAINER_MAX_OUTPUT_SIZE cfg <? String.length (stdoutAll tr))%nat.
Proof.
  intros [flagOf H].
  pose proof (H small_ceiling_config demoInput within_ceiling_trace (successOutput None)
                eq_refl) as Ha.
  pose proof (H small_ceiling_config demoInput over_ceiling_trace (successOutput None)
                eq_refl) as Hb.
  vm_compute in Ha, Hb. congruence.
Qed.

(** C8 (amended). In streaming and in legacy mode alike, the
    orchestrator's truncation flag of a stream is set exactly when the
    worker wrote more than the ceiling on it, the captured text being the
    part below the ceiling, and the flags are written to the run log when
    the worker closes without having timed out; in streaming mode the
    events parsed include, first and in order, those of every complete
    marker pair of the captured stdout. *)
Theorem truncation_flagged_frames_kept (cfg : Config) (input0 : ContainerInput)
    (tr : list Event) :
  let s := run cfg (spawned cfg input0) tr in
  let ceiling := CONTAINER_MAX_OUTPUT_SIZE cfg in
  stdoutTruncated (cap s) = (ceiling <? String.length (stdoutAll tr))%nat
  /\ stderrTruncated (cap s) = (ceiling <? String.length (stderrAll tr))%nat
  /\ stdout (cap s) = Js.take ceiling (stdoutAll tr)
  /\ stderr (cap s) = Js.take ceiling (stderrAll tr)
  /\ (forall code, timedOut (tmr s) = false ->
      exists body,
        disk (io (step cfg s (Close code)))
        = disk (io s) ++ [RunLog (isMain (input (io s))) code (stdoutTruncated (cap s))
                                 (stderrTruncated (cap s)) body])
  /\ (onOutput cfg = true ->
      exists later,
        parsedLog (strm s)
        = parsedOf (JSON_parse cfg) (fst (scan (stdout (cap s)))) ++ later).
Proof.
  intros s ceiling.
  destruct (captured_prefix cfg input0 tr) as (Ho & Hot & He & Het).
  fold s ceiling in Ho, Hot, He, Het.
  repeat split; try assumption.
  - intros code Hto.
    destruct (step_io cfg s (Close code)) as (_ & _ & files & -> & _ & Hf).
    destruct (Hf code eq_refl Hto) as [body ->]. now exists body.
  - intros Hon. destruct (parsed_whole cfg input0 tr Hon) as (_ & Hp). fold s in Hp.
    rewrite Hp, Ho.
    destruct (scan_prefix (Js.take ceiling (stdoutAll tr)) (Js.drop ceiling (stdoutAll tr)))
      as [later Hl].
    rewrite take_drop in Hl. rewrite Hl.
    exists (parsedOf (JSON_parse cfg) later). unfold parsedOf. apply omap_app.
Qed.

(** An instance: a framed event followed by output that goes over a
    ceiling of 100 characters. *)
Lemma truncation_flagged_frames_kept_witness :
  let cfg := small_ceiling_config in
  let s := run cfg (spawned cfg demoInput)
             [StdoutData (frame (stringify (say "one")));
              StdoutData "0123456789012345678901234567890123456789"] in
  onOutput cfg = true
  /\ stdoutTruncated (cap s) = true
  /\ String.length (stdout (cap s)) = 100%nat
  /\ exists later, parsedLog (strm s) = [say "one"] ++ later.
Proof.
  split; [reflexivity|].
  pose proof (truncation_flagged_frames_kept small_ceiling_config demoInput
    [StdoutData (frame (stringify (say "one")));
     StdoutData "0123456789012345678901234567890123456789"])
    as (Hf & _ & Ho & _ & _ & Hp).
  split; [exact Hf|]. split; [rewrite Ho; reflexivity | exact (Hp eq_refl)].
Defined.

(** C3: the specification (and the comment in the code) says the last
    marker pair; the code takes the first start marker and the first end
    marker.
    On a stdout with two pairs the legacy result is the first event. *)
Theorem legacy_takes_first_pair :
  legacyJsonLine two_pairs_stdout = stringify (say "first")
  /\ spec_batch_payload two_pairs_stdout = stringify (say "second")
  /\ resolved (run legacy_config (spawned legacy_config demoInput)
                   [StdoutData two_pairs_stdout; Close (Some 0)])
     = Some (say "first").
Proof. vm_compute. repeat split; reflexivity. Qed.

(** A stray end marker before the only pair hides the pair as well: the
    payload is then the final line, markers included. *)
Example legacy_stray_end_ex :
  let out := OUTPUT_END_MARKER +:+ String Js.LF EmptyString +:+ frame (stringify (say "first")) in
  spec_batch_payload out = stringify (say "first")
  /\ legacyJsonLine out = frame (stringify (say "first")).
Proof. vm_compute. split; reflexivity. Qed.

(** The other half of the batch-mode rule holds: with no complete marker
    pair in the accumulated stdout, the payload is the final line. *)
Lemma legacy_fallback_final_line (out : string) :
  fst (scan out) = [] -> legacyJsonLine out = lastLine out.
Proof.
  rewrite scan_unfold. unfold nextFrame, legacyJsonLine.
  destruct (Js.indexOf OUTPUT_START_MARKER 0 out) as [i|] eqn:Hi; [|reflexivity].
  destruct (Js.indexOf OUTPUT_END_MARKER 0 out) as [j|] eqn:Hj; [|reflexivity].
  destruct (i <? j)%nat eqn:Hlt; [|reflexivity].
  apply Nat.ltb_lt in Hlt.
  rewrite (indexOf_from _ i _ j Hj) by lia.
  destruct (scan _) as [js b]. discriminate.
Qed.

(** A run that ends with exit code 1: the log dumps the input, without
    the secrets that went to the worker's stdin. *)
Example error_log_ex :
  let cfg := demoConfig 4096 true [] in
  let s := run cfg (spawned cfg demoInput) [StderrData "boom"; Close (Some 1)] in
  stdinWritten (io s) = [setSecrets (Some demoSecrets) demoInput]
  /\ disk (io s) = [RunLog true (Some 1) false false
                      (FullDump (setSecrets None demoInput) "boom" EmptyString)]
  /\ resolved s = Some (errorOutput "Agent exited with code 1: boom").
Proof. vm_compute. repeat split; reflexivity. Qed.

Example scan_two_frames :
  scan ("log " +:+ frame "{1}" +:+ " noise " +:+ frame " {2} " +:+ " tail---NANO")
  = (["{1}"; "{2}"], " tail---NANO").
Proof. vm_compute. reflexivity. Qed.

Example scan_unterminated :
  scan (OUTPUT_END_MARKER +:+ OUTPUT_START_MARKER +:+ "{1}")
  = ([], OUTPUT_END_MARKER +:+ OUTPUT_START_MARKER +:+ "{1}").
Proof. vm_compute. reflexivity. Qed.

Example legacy_no_markers : legacyJsonLine "building
{3}
" = "{3}".
Proof. vm_compute. reflexivity. Qed.

Example demo_stream :
  let cfg := demoConfig 4096 true [say "one"; sayIn "s1" "two"] in
  let s := run cfg (spawned cfg demoInput)
             [StdoutData ("boot " +:+ frame (stringify (say "one")) +:+ OUTPUT_START_MARKER);
              StdoutData (stringify (sayIn "s1" "two") +:+ OUTPUT_END_MARKER);
              DeliverySettled Fulfilled; DeliverySettled Fulfilled;
              Close (Some 0)] in
  started (chain s) = [say "one"; sayIn "s1" "two"]
  /\ finished (chain s) = [say "one"; sayIn "s1" "two"]
  /\ resolved s = Some (successOutput (Some "s1"))
  /\ timeout (tmr s) = None.
Proof. vm_compute. repeat split; reflexivity. Qed.

Example demo_timeout_no_output :
  let cfg := demoConfig 4096 true [] in
  let s := run cfg (spawned cfg demoInput) [Elapse 1830000; Close None] in
  signals (tmr s) = [SIGTERM]
  /\ resolved s = Some (errorOutput "Agent timed out after 1800000ms").
Proof. vm_compute. repeat split; reflexivity. Qed.

End AgentRunnerFacts.

(** ** The WhatsApp channel *)

Module WhatsAppFacts.
Import WhatsApp.

Example prefixed_group :
  prefixed (mkConfig false "Smith") "1203@g.us" "hi" = "Smith: hi"
  /\ prefixed (mkConfig false "Smith") "4915@s.whatsapp.net" "hi" = "hi"
  /\ prefixed (mkConfig true "Smith") "1203@g.us" "hi" = "hi".
Proof. repeat split; reflexivity. Qed.

Example translate_ex :
  lidUserOf "12345:7@lid" = "12345"
  /\ phoneJidOf "4915112:3@s.whatsapp.net" = "4915112@s.whatsapp.net"
  /\ fst (translateJid (Found "4915112:3@s.whatsapp.net") "12345:7@lid" initial)
     = "4915112@s.whatsapp.net"
  /\ fst (translateJid Failed "12345:7@lid" initial) = "12345:7@lid"
  /\ fst (translateJid Failed "1203@g.us" initial) = "1203@g.us".
Proof. vm_compute. repeat split; reflexivity. Qed.

(** Two messages queued while disconnected are drained in order on
    reconnect; the drain calls made while the first send is awaited do
    nothing. *)
Example reconnect_drain_ex :
  let a := mkItem "4915@s.whatsapp.net" "a" in
  let b := mkItem "4915@s.whatsapp.net" "b" in
  let cfg := mkConfig true "Smith" in
  let c1 := run cfg initial
              [SendMessage "4915@s.whatsapp.net" "a"; SendMessage "4915@s.whatsapp.net" "b";
               ConnectionOpen None] in
  let c2 := run cfg c1 [Flush; ConnectionOpen None] in
  let c3 := run cfg c2 [DrainSettled true; DrainSettled true] in
  (drained c1 = [a] /\ outgoingQueue c1 = [b] /\ flushing c1 = true)
  /\ c2 = c1
  /\ (drained c3 = [a; b] /\ delivered c3 = [a; b] /\ outgoingQueue c3 = []
      /\ flushing c3 = false).
Proof. vm_compute. repeat split; reflexivity. Qed.

Section QueueFacts.

Variable cfg : Config.

(** *** The outgoing queue *)

Lemma drainNext_QueueInv (c : Channel) :
  enqueued c = drained c ++ outgoingQueue c -> QueueInv (drainNext c).
Proof.
  intros H. unfold drainNext, QueueInv.
  destruct (outgoingQueue c) as [|item rest] eqn:Hq; simpl.
  - rewrite H. split; [reflexivity|]. split; [intros []; discriminate | discriminate].
  - rewrite H, <- app_assoc. split; [reflexivity|]. split; eauto.
Qed.

Lemma flush_QueueInv (c : Channel) : QueueInv c -> QueueInv (flushOutgoingQueue c).
Proof.
  intros HI. unfold flushOutgoingQueue.
  destruct (flushing c || bool_decide (outgoingQueue c = [])); [exact HI|].
  apply drainNext_QueueInv, HI.
Qed.

Lemma step_QueueInv (c : Channel) (e : Event) : QueueInv c -> QueueInv (step cfg c e).
Proof.
  intros HI. destruct e as [j t|i ok|user| | | |ok]; simpl.
  - destruct HI as [H1 H2]. unfold sendMessage.
    destruct (negb (connected c)); unfold QueueInv; simpl; [|easy].
    rewrite H1, <- app_assoc. easy.
  - destruct HI as [H1 H2]. unfold directSettled.
    destruct (directInFlight c !! i) as [item|]; [|easy].
    destruct ok; unfold QueueInv; simpl; [easy|].
    rewrite H1, <- app_assoc. easy.
  - unfold onOpen. apply flush_QueueInv.
    destruct user as [u|]; [|exact HI].
    destruct (userLid u) as [l|]; [|exact HI].
    destruct (Js.truthy _ && Js.truthy _); exact HI.
  - exact HI.
  - exact HI.
  - now apply flush_QueueInv.
  - unfold drainSettled. destruct (drainInFlight c) as [item|] eqn:Hd; [|exact HI].
    destruct HI as [H1 H2]. destruct ok.
    + apply drainNext_QueueInv. exact H1.
    + unfold QueueInv. simpl. split; [exact H1|].
      split; [intros []; discriminate | discriminate].
Qed.

Lemma run_QueueInv (c : Channel) (tr : list Event) : QueueInv c -> QueueInv (run cfg c tr).
Proof.
  revert c; induction tr as [|e tr IH]; intros c H; [exact H|].
  simpl. apply IH. now apply step_QueueInv.
Qed.

(** A send that fails while connected puts the item on the queue. *)
Lemma send_failure_enqueues (c : Channel) (jid text : string) :
  connected c = true ->
  let c1 := step cfg c (SendMessage jid text) in
  let c2 := step cfg c1 (DirectSettled (List.length (directInFlight c)) false) in
  outgoingQueue c2 = outgoingQueue c ++ [mkItem jid (prefixed cfg jid text)]
  /\ directInFlight c2 = directInFlight c.
Proof.
  intros Hc. simpl. unfold sendMessage, directSettled. rewrite Hc. simpl.
  rewrite list_lookup_middle by reflexivity. simpl.
  split; [reflexivity|].
  rewrite delete_middle. apply app_nil_r.
Qed.

End QueueFacts.

(** The drain at work: with an item awaited and [rest] queued, as many
    successful sends as there are items deliver them all, in order, and
    end the drain. *)
Lemma drain_runs_dry (cfg : Config) (rest : list QueueItem) (c : Channel)
    (item : QueueItem) :
  drainInFlight c = Some item -> outgoingQueue c = rest ->
  let c' := run cfg c (repeat (DrainSettled true) (S (List.length rest))) in
  delivered c' = delivered c ++ item :: rest
  /\ drained c' = drained c ++ rest
  /\ outgoingQueue c' = [] /\ drainInFlight c' = None /\ flushing c' = false.
Proof.
  revert c item; induction rest as [|next rest IH]; intros c item Hd Hq.
  - simpl. unfold drainSettled. rewrite Hd. unfold drainNext. simpl. rewrite Hq. simpl.
    rewrite app_nil_r. easy.
  - set (c1 := step cfg c (DrainSettled true)).
    change (run cfg c (repeat (DrainSettled true) (S (List.length (next :: rest)))))
      with (run cfg c1 (repeat (DrainSettled true) (S (List.length rest)))).
    cbv zeta.
    assert (H1 : drainInFlight c1 = Some next /\ outgoingQueue c1 = rest
                 /\ delivered c1 = delivered c ++ [item]
                 /\ drained c1 = drained c ++ [next]).
    { subst c1. simpl. unfold drainSettled. rewrite Hd. unfold drainNext. simpl.
      rewrite Hq. simpl. easy. }
    destruct H1 as (Hd1 & Hq1 & Hdel & Hdr).
    destruct (IH c1 next Hd1 Hq1) as (-> & -> & -> & -> & ->).
    rewrite Hdel, Hdr, <- !app_assoc. easy.
Qed.

(** C5. The drain triggered on reconnect hands the queued items to the
    socket in the order they were queued, each taken off the queue once:
    the reconnect hands over the head of the queue, every send that
    succeeds hands over the next, and as many successful sends as there
    were items deliver them all in order.  A call of the drain made while
    a drain is in progress changes nothing and sends nothing; and a send
    made while disconnected appends to the queue whether or not a drain is
    in progress. *)
Theorem drain_fifo (cfg : Config) (tr : list Event) :
  let c := run cfg initial tr in
  enqueued c = drained c ++ outgoingQueue c
  /\ (is_Some (drainInFlight c) <-> flushing c = true)
  /\ (flushing c = true ->
      step cfg c Flush = c
      /\ forall user, drained (step cfg c (ConnectionOpen user)) = drained c)
  /\ (forall jid text,
        connected c = false ->
        outgoingQueue (step cfg c (SendMessage jid text))
        = outgoingQueue c ++ [mkItem jid (prefixed cfg jid text)]
        /\ drained (step cfg c (SendMessage jid text)) = drained c)
  /\ (forall user item rest,
        flushing c = false -> outgoingQueue c = item :: rest ->
        let c' := step cfg c (ConnectionOpen user) in
        drainInFlight c' = Some item /\ outgoingQueue c' = rest
        /\ drained c' = drained c ++ [item] /\ flushing c' = true)
  /\ (forall item,
        drainInFlight c = Some item ->
        let c' := step cfg c (DrainSettled true) in
        delivered c' = delivered c ++ [item]
        /\ drainInFlight c' = head (outgoingQueue c)
        /\ outgoingQueue c' = tail (outgoingQueue c)
        /\ drained c' = drained c ++ option_list (head (outgoingQueue c)))
  /\ (forall user,
        flushing c = false ->
        let c' := run cfg c (ConnectionOpen user
                             :: repeat (DrainSettled true) (List.length (outgoingQueue c))) in
        delivered c' = delivered c ++ outgoingQueue c
        /\ drained c' = drained c ++ outgoingQueue c
        /\ outgoingQueue c' = [] /\ flushing c' = false).
Proof.
  intros c.
  assert (HI : QueueInv c).
  { apply run_QueueInv. split; [reflexivity|]. split; [intros []; discriminate|discriminate]. }
  destruct HI as [H1 H2].
  assert (Hopen : forall user item rest,
             flushing c = false -> outgoingQueue c = item :: rest ->
             let c' := step cfg c (ConnectionOpen user) in
             drainInFlight c' = Some item /\ outgoingQueue c' = rest
             /\ drained c' = drained c ++ [item] /\ flushing c' = true).
  { intros user item rest Hf Hq. simpl. unfold onOpen, flushOutgoingQueue, drainNext.
    destruct user as [u|]; [destruct (userLid u) as [l|];
      [destruct (Js.truthy _ && Js.truthy _)|]|]; simpl; rewrite Hf, Hq; simpl; easy. }
  split; [exact H1|]. split; [exact H2|].
  split; [|split; [|split; [exact Hopen|split]]].
  - intros H. split.
    + simpl. unfold flushOutgoingQueue. now rewrite H.
    + intros user. simpl. unfold onOpen, flushOutgoingQueue.
      destruct user as [u|]; [destruct (userLid u) as [l|];
        [destruct (Js.truthy _ && Js.truthy _)|]|]; simpl; now rewrite H.
  - intros jid text H. simpl. unfold sendMessage. now rewrite H.
  - intros item Hd. simpl. unfold drainSettled. rewrite Hd. unfold drainNext. simpl.
    destruct (outgoingQueue c) as [|next rest]; simpl; rewrite ?app_nil_r; easy.
  - intros user Hf.
    destruct (outgoingQueue c) as [|item rest] eqn:Hq.
    + simpl. unfold onOpen, flushOutgoingQueue.
      destruct user as [u|]; [destruct (userLid u) as [l|];
        [destruct (Js.truthy _ && Js.truthy _)|]|]; simpl; rewrite Hf, Hq; simpl;
        rewrite ?app_nil_r; easy.
    + destruct (Hopen user item rest Hf eq_refl) as (Hd & Hr & Hdr & _).
      change (run cfg c (ConnectionOpen user
                         :: repeat (DrainSettled true) (List.length (item :: rest))))
        with (run cfg (step cfg c (ConnectionOpen user))
                  (repeat (DrainSettled true) (S (List.length rest)))).
      cbv zeta.
      destruct (drain_runs_dry cfg rest _ item Hd Hr) as (-> & -> & -> & _ & ->).
      assert (Hdel : delivered (step cfg c (ConnectionOpen user)) = delivered c).
      { simpl. unfold onOpen, flushOutgoingQueue, drainNext.
        destruct user as [u|]; [destruct (userLid u) as [l|];
          [destruct (Js.truthy _ && Js.truthy _)|]|]; simpl; rewrite Hf, Hq; simpl; easy. }
      rewrite Hdr, Hdel, <- app_assoc. easy.
Qed.

(** An instance: two messages queued while disconnected, a reconnect, and
    two sends that succeed. *)
Lemma drain_fifo_witness :
  let cfg := mkConfig true "Smith" in
  let tr := [SendMessage "4915@s.whatsapp.net" "a"; SendMessage "4915@s.whatsapp.net" "b"] in
  let c := run cfg initial tr in
  let c' := run cfg c (ConnectionOpen None
                       :: repeat (DrainSettled true) (List.length (outgoingQueue c))) in
  (flushing c = false
   /\ outgoingQueue c = [mkItem "4915@s.whatsapp.net" "a"; mkItem "4915@s.whatsapp.net" "b"]
   /\ delivered c = [])
  /\ delivered c' = delivered c ++ outgoingQueue c
  /\ drained c' = drained c ++ outgoingQueue c
  /\ outgoingQueue c' = [] /\ flushing c' = false.
Proof.
  intros cfg tr c c'.
  assert (Hf : flushing c = false) by reflexivity.
  split; [repeat split; reflexivity|].
  exact (proj2 (proj2 (proj2 (proj2 (proj2 (proj2 (drain_fifo cfg tr)))))) None Hf).
Defined.

(** C6: a send that fails inside the drain loses the item.  Two messages
    are queued while disconnected; on reconnect the drain shifts the first
    one off the queue and its send fails; the next reconnect drains the
    second one only.  The first was queued, handed to the socket once,
    never delivered, and is no longer anywhere to be retried. *)
Theorem drain_failure_loses_item :
  let c := run (mkConfig true "Smith") initial lost_item_trace in
  enqueued c = [mkItem "4915@s.whatsapp.net" "first"; mkItem "4915@s.whatsapp.net" "second"]
  /\ drained c = [mkItem "4915@s.whatsapp.net" "first"; mkItem "4915@s.whatsapp.net" "second"]
  /\ delivered c = [mkItem "4915@s.whatsapp.net" "second"]
  /\ outgoingQueue c = [] /\ drainInFlight c = None /\ directInFlight c = []
  /\ flushing c = false.
Proof. vm_compute. repeat split; reflexivity. Qed.

(** *** Identity resolution *)



Lemma askResolver_calls (answer : Lookup) (jid lidUser : string) (c : Channel) :
  resolverCalls (snd (askResolver answer jid lidUser c)) = resolverCalls c ++ [jid]
  /\ effects (snd (askResolver answer jid lidUser c)) = effects c.
Proof.
  unfold askResolver. destruct answer as [pn| |]; simpl; try easy.
  now destruct (Js.truthy pn).
Qed.

Lemma translateJid_effects (answer : Lookup) (jid : string) (c : Channel) :
  effects (snd (translateJid answer jid c)) = effects c.
Proof.
  unfold translateJid. destruct (negb (Js.endsWith "@lid" jid)); [reflexivity|].
  destruct (lidToPhoneMap c !! lidUserOf jid) as [cached|];
    [destruct (Js.truthy cached); [reflexivity|]|]; apply askResolver_calls.
Qed.





(** *** Inbound messages *)

Example registered_chat_ex :
  emitted (mkConfig true "Smith")
          (mkArrival (text_message "1203@g.us" "hello") NotFound ({[ "1203@g.us" := tt ]})
                     (Transcript None))
          initial
  = [OnChatMetadata "1203@g.us" 1700000000000;
     UpsertContact "4915@s.whatsapp.net" "Eti";
     OnMessage "1203@g.us"
       (mkNew "ABC1" "1203@g.us" "4915@s.whatsapp.net" "Eti" "hello" 1700000000000
              false false)].
Proof. vm_compute. reflexivity. Qed.

Example unregistered_chat_ex :
  emitted (mkConfig true "Smith")
          (mkArrival (text_message "999@g.us" "hello") NotFound ({[ "1203@g.us" := tt ]})
                     (Transcript None))
          initial
  = [OnChatMetadata "999@g.us" 1700000000000].
Proof. vm_compute. reflexivity. Qed.

Section InboundFacts.

Variable cfg : Config.
Variable RegisteredGroup : Type.

(** A message that is skipped changes nothing. *)
Lemma handleMessage_skips (a : Arrival RegisteredGroup) (c : Channel) :
  (forall body rawJid, ~ handled a body rawJid) ->
  handleMessage cfg a c = (Completed, c).
Proof.
  intros Hno. unfold handleMessage.
  destruct (message (msg a)) as [body|] eqn:Hb; [|reflexivity].
  destruct (remoteJid (key (msg a))) as [rawJid|] eqn:Hr; [|reflexivity].
  destruct (negb (Js.truthy rawJid) || String.eqb rawJid "status@broadcast") eqn:Hs;
    [reflexivity|].
  exfalso. apply (Hno body rawJid). now split.
Qed.

(** A message without a valid timestamp throws after the resolution of
    its chat identifier, before anything else. *)
Lemma handleMessage_throws (a : Arrival RegisteredGroup) (c : Channel)
    (body : MessageContent) (rawJid : string) :
  handled a body rawJid -> isoTimestamp (messageTimestamp (msg a)) = None ->
  handleMessage cfg a c = (Threw, snd (translateJid (lookup a) rawJid c)).
Proof.
  intros (Hb & Hr & Hs) Ht. unfold handleMessage. rewrite Hb, Hr, Hs.
  unfold mbind, act_bind. destruct (translateJid (lookup a) rawJid c) as [chatJid c1].
  now rewrite Ht.
Qed.

(** The state after a message that is handled: the state after the
    resolution, with the image cache updated and the effects appended. *)
Lemma handleMessage_state (a : Arrival RegisteredGroup) (c : Channel)
    (body : MessageContent) (rawJid : string) (ts : Z) :
  handled a body rawJid -> isoTimestamp (messageTimestamp (msg a)) = Some ts ->
  let '(chatJid, c1) := translateJid (lookup a) rawJid c in
  handleMessage cfg a c
  = (Completed,
     mkChannel (connected c1) (lidToPhoneMap c1) (outgoingQueue c1) (flushing c1)
       (if bool_decide (is_Some (imageMessage body))
        then <[chatJid := msg a]> (recentImageMessages c1)
        else recentImageMessages c1)
       (directInFlight c1) (drainInFlight c1) (enqueued c1) (drained c1)
       (delivered c1) (resolverCalls c1)
       (effects c1 ++ OnChatMetadata chatJid ts
                   :: (if registered (groups a) chatJid
                       then deliveryEffects cfg a body chatJid ts else []))).
Proof.
  intros (Hb & Hr & Hs) Ht. unfold handleMessage. rewrite Hb, Hr, Hs.
  unfold mbind, act_bind.
  destruct (translateJid (lookup a) rawJid c) as [chatJid c1]. rewrite Ht.
  unfold deliveryEffects, deliver, mbind, act_bind, when, effect, mret, act_ret.
  destruct (bool_decide (is_Some (imageMessage body)));
    destruct (registered (groups a) chatJid);
    try destruct (Js.endsWith "@s.whatsapp.net" _ && truthyOpt (pushName (msg a)));
    unfold emit, setImage; simpl; rewrite <- ?app_assoc; reflexivity.
Qed.

Lemma handled_dec (a : Arrival RegisteredGroup) :
  (exists body rawJid, handled a body rawJid) \/ (forall body rawJid, ~ handled a body rawJid).
Proof.
  unfold handled.
  destruct (message (msg a)) as [body|]; [|right; intros ? ? (H & _); discriminate].
  destruct (remoteJid (key (msg a))) as [rawJid|];
    [|right; intros ? ? (_ & H & _); discriminate].
  destruct (negb (Js.truthy rawJid) || String.eqb rawJid "status@broadcast") eqn:Hs.
  - right. intros ? ? (_ & [= <-] & H). congruence.
  - left. now exists body, rawJid.
Qed.

(** What one message adds to the effects: nothing; or the chat metadata,
    followed by what [deliver] adds if the lookup in the registry finds
    the chat. *)
Lemma emitted_cases (a : Arrival RegisteredGroup) (c : Channel) :
  emitted cfg a c = []
  \/ exists body rawJid ts,
       handled a body rawJid /\ isoTimestamp (messageTimestamp (msg a)) = Some ts
       /\ let chatJid := fst (translateJid (lookup a) rawJid c) in
          emitted cfg a c
          = OnChatMetadata chatJid ts
            :: (if registered (groups a) chatJid
                then deliveryEffects cfg a body chatJid ts else []).
Proof.
  unfold emitted. destruct (handled_dec a) as [(body & rawJid & Hh) | Hno].
  - pose proof (translateJid_effects (lookup a) rawJid c) as He.
    destruct (isoTimestamp (messageTimestamp (msg a))) as [ts|] eqn:Ht.
    + right. exists body, rawJid, ts. split; [exact Hh|]. split; [reflexivity|].
      pose proof (handleMessage_state a c body rawJid ts Hh Ht) as Hst.
      destruct (translateJid (lookup a) rawJid c) as [chatJid c1]. simpl in He |- *.
      rewrite Hst. simpl. rewrite He. apply drop_app_length.
    + left. rewrite (handleMessage_throws a c body rawJid Hh Ht). cbn [snd].
      rewrite He. apply drop_all.
  - left. rewrite (handleMessage_skips a c Hno). apply drop_all.
Qed.

Lemma emitted_spec (a : Arrival RegisteredGroup) (c : Channel) :
  effects (snd (handleMessage cfg a c)) = effects c ++ emitted cfg a c.
Proof.
  unfold emitted. destruct (handled_dec a) as [(body & rawJid & Hh) | Hno].
  - pose proof (translateJid_effects (lookup a) rawJid c) as He.
    destruct (isoTimestamp (messageTimestamp (msg a))) as [ts|] eqn:Ht.
    + pose proof (handleMessage_state a c body rawJid ts Hh Ht) as Hst.
      destruct (translateJid (lookup a) rawJid c) as [chatJid c1]. simpl in He.
      rewrite Hst. simpl. rewrite He. now rewrite drop_app_length.
    + rewrite (handleMessage_throws a c body rawJid Hh Ht). cbn [snd].
      rewrite He. now rewrite drop_all, app_nil_r.
  - rewrite (handleMessage_skips a c Hno). now rewrite drop_all, app_nil_r.
Qed.

Lemma deliveryEffects_message (a : Arrival RegisteredGroup) (body : MessageContent)
    (chatJid : string) (ts : Z) (j : string) (m : NewMessage) :
  In (OnMessage j m) (deliveryEffects cfg a body chatJid ts) ->
  j = chatJid /\ m = messageOf cfg a body chatJid ts.
Proof.
  unfold deliveryEffects. intros Hin. apply in_app_or in Hin as [Hin | [Hin | []]].
  - destruct (_ && _); [destruct Hin as [Hin | []]; discriminate | destruct Hin].
  - now injection Hin as <- <-.
Qed.

(** The message handed to [onMessage], and the lookup it sits under. *)
Lemma emitted_message (a : Arrival RegisteredGroup) (c : Channel)
    (j : string) (m : NewMessage) :
  In (OnMessage j m) (emitted cfg a c) ->
  exists body ts,
    message (msg a) = Some body
    /\ registered (groups a) j = true
    /\ m = messageOf cfg a body j ts.
Proof.
  destruct (emitted_cases a c) as [-> | (body & rawJid & ts & Hh & _ & ->)]; [intros []|].
  intros [Hin | Hin]; [discriminate|].
  destruct (registered (groups a) _) eqn:Hreg; [|destruct Hin].
  apply deliveryEffects_message in Hin as [-> ->].
  exists body, ts. split; [apply Hh | now split].
Qed.

Lemma emitted_registered (a : Arrival RegisteredGroup) (c : Channel)
    (j : string) (m : NewMessage) :
  In (OnMessage j m) (emitted cfg a c) ->
  registered (groups a) j = true /\ chat_jid m = j.
Proof.
  intros Hin. destruct (emitted_message a c j m Hin) as (body & ts & _ & Hreg & ->).
  now split.
Qed.

Lemma emitted_unregistered (a : Arrival RegisteredGroup) (c : Channel) :
  (forall j ts, In (OnChatMetadata j ts) (emitted cfg a c) ->
                registered (groups a) j = false) ->
  emitted cfg a c = [] \/ exists j ts, emitted cfg a c = [OnChatMetadata j ts].
Proof.
  intros Hun. destruct (emitted_cases a c) as [-> | (body & rawJid & ts & _ & _ & He)];
    [now left|].
  right. cbv zeta in He. rewrite He in Hun |- *.
  rewrite (Hun _ ts) by now left. eauto.
Qed.

(** Over a whole batch: a message in the log was there before, or comes
    from a message of the batch under whose registry the lookup found its
    chat. *)
Lemma onMessagesUpsert_registered (batch : list (Arrival RegisteredGroup)) (c : Channel)
    (j : string) (m : NewMessage) :
  In (OnMessage j m) (effects (snd (onMessagesUpsert cfg batch c))) ->
  In (OnMessage j m) (effects c)
  \/ exists a, In a batch /\ registered (groups a) j = true /\ chat_jid m = j.
Proof.
  revert c; induction batch as [|a rest IH]; intros c; simpl; [now left|].
  unfold mbind, act_bind.
  pose proof (emitted_spec a c) as He.
  destruct (handleMessage cfg a c) as [completion c1]. simpl in He.
  intros Hin.
  assert (Hfirst : In (OnMessage j m) (effects c1) ->
            In (OnMessage j m) (effects c)
            \/ exists b, In b (a :: rest) /\ registered (groups b) j = true
                         /\ chat_jid m = j).
  { rewrite He. intros Hx. apply in_app_or in Hx as [Hold | Hnew]; [now left|].
    right. exists a. split; [now left|]. now apply (emitted_registered a c). }
  destruct completion; [|now apply Hfirst].
  destruct (IH c1 Hin) as [Hold | (b & Hb & Hs)]; [now apply Hfirst|].
  right. exists b. split; [now right | assumption].
Qed.

End InboundFacts.

End WhatsAppFacts.

(** ** The Telegram channel *)

Module TelegramFacts.
Import Telegram.

Example chatJid_ex :
  chatJidOf (mkCtx (mkChat (-1001234) Supergroup (Some "Family")) None 1700000000 7 None
                   (Some "SmithBot") Photo)
  = "tg:-1001234".
Proof. vm_compute. reflexivity. Qed.

Example mention_ex :
  mentionTranslated "Smith" (fun _ => false)
    (mkCtx (mkChat 5 Private None) None 0 1 None (Some "SmithBot") Other)
    "hey @smithbot" [mkEntity "mention" 4 9]
  = "@Smith hey @smithbot".
Proof. vm_compute. reflexivity. Qed.

(** The owner (registered privately as [tg:42]) posts a photo: it reaches
    the router in a registered group, and nothing happens in another. *)
Example photo_ex :
  let groups : gmap string unit := {[ "tg:42" := tt; "tg:-100" := tt ]} in
  handleUpdate "Smith" (fun _ => false) groups (photo_from (-100)) NotOk
  = [OnChatMetadata "tg:-100" 1700000000000 None;
     OnMessage "tg:-100" (mkNew "7" "tg:-100" "42" "Chen" "[Photo] look" 1700000000000 false)]
  /\ handleUpdate "Smith" (fun _ => false) groups (photo_from (-200)) NotOk = [].
Proof. vm_compute. split; reflexivity. Qed.

Section HandlerFacts.

Variable ASSISTANT_NAME : string.
Variable TRIGGER_PATTERN_test : string -> bool.
Variable RegisteredGroup : Type.
Variable groups : gmap string RegisteredGroup.

Lemma onText_gated (ctx : Ctx) (text : string) (entities : list Entity) :
  Gated groups ctx (onText ASSISTANT_NAME TRIGGER_PATTERN_test groups ctx text entities).
Proof.
  unfold Gated, onText. destruct (Js.startsWith "/" text); [intros e []|].
  destruct (groups !! chatJidOf ctx) as [g|] eqn:Hg; simpl;
    intros e Hin; repeat (destruct Hin as [<- | Hin]; [try exact I|]); try contradiction.
  rewrite Hg. eauto.
Qed.

Lemma storeNonText_gated (ctx : Ctx) (placeholder : string) :
  Gated groups ctx (storeNonText groups ctx placeholder).
Proof.
  unfold Gated, storeNonText.
  destruct (groups !! chatJidOf ctx) as [g|] eqn:Hg; simpl;
    intros e Hin; repeat (destruct Hin as [<- | Hin]; [try exact I|]); try contradiction.
  rewrite Hg. eauto.
Qed.

Lemma onVoice_gated (ctx : Ctx) (voice : VoiceOutcome) :
  Gated groups ctx (onVoice groups ctx voice).
Proof.
  unfold Gated, onVoice.
  destruct (groups !! chatJidOf ctx) as [g|] eqn:Hg; simpl;
    intros e Hin; repeat (destruct Hin as [<- | Hin]; [try exact I|]); try contradiction.
  rewrite Hg. eauto.
Qed.

Lemma handleUpdate_gated (ctx : Ctx) (voice : VoiceOutcome) :
  Gated groups ctx (handleUpdate ASSISTANT_NAME TRIGGER_PATTERN_test groups ctx voice).
Proof.
  unfold handleUpdate. destruct (negb (isAllowedSender groups ctx)); [intros e []|].
  destruct (kind ctx) as [text entities command| | | | |file_name|emoji| | |];
    try apply storeNonText_gated; try apply onVoice_gated; try (intros e []).
  destruct (bool_decide (command = Some "chatid")).
  - intros e [<- | []]. exact I.
  - destruct (bool_decide (command = Some "ping")); [|apply onText_gated].
    intros e [<- | []]. exact I.
Qed.

End HandlerFacts.

End TelegramFacts.

(** ** Both channels *)

(** C10, as stated, fails on WhatsApp in two ways.  The registry is read
    once, before the transcription of a voice note is awaited: a voice
    note of a chat that was registered when the handler read the registry
    reaches [onMessage] whatever the registry holds when the call is made,
    also when the chat is no longer in it.  And the test is the lookup
    [groups[chatJid]], which also finds what every object inherits: a
    message of the chat [constructor] reaches [onMessage] under an empty
    registry. *)
Lemma delivered_outside_registry :
  (let a := WhatsApp.mkArrival (WhatsApp.voice_message "1203@g.us") WhatsApp.NotFound
              ({[ "1203@g.us" := tt ]} : gmap string unit)
              (WhatsApp.Transcript (Some "hello")) in
   In (WhatsApp.OnMessage "1203@g.us"
         (WhatsApp.mkNew "PTT1" "1203@g.us" "4915@s.whatsapp.net" "Eti" "[Voice: hello]"
                         1700000000000 false false))
      (WhatsApp.emitted (WhatsApp.mkConfig true "Smith") a WhatsApp.initial)
   /\ WhatsApp.registryAtDelivery a ∅ !! "1203@g.us" = None)
  /\ (let a := WhatsApp.mkArrival (WhatsApp.text_message "constructor" "hello")
                 WhatsApp.NotFound (∅ : gmap string unit) (WhatsApp.Transcript None) in
      In (WhatsApp.OnMessage "constructor"
            (WhatsApp.mkNew "ABC1" "constructor" "4915@s.whatsapp.net" "Eti" "hello"
                            1700000000000 false false))
         (WhatsApp.emitted (WhatsApp.mkConfig true "Smith") a WhatsApp.initial)
      /\ WhatsApp.groups a !! "constructor" = None).
Proof.
  split; (split; [vm_compute; right; right; left; reflexivity | reflexivity]).
Qed.

(** C10, amended.  On either channel [onMessage] is invoked for a message
    only under a chat identifier that the lookup in the registry found,
    the registry being what [registeredGroups()] returned when the handler
    read it (on WhatsApp and for a Telegram voice note before the
    transcription is awaited), and with that identifier as the message's
    [chat_jid].  For an identifier that is not the name of a member every
    object inherits, the lookup finds it exactly when it is a key of that
    registry; a Telegram identifier [tg:...] is never such a name.  A
    message of a chat the lookup does not find invokes at most
    [onChatMetadata] (and, on Telegram, a command reply), never
    [onMessage]. *)
Theorem only_registered_chats_reach_router :
  (forall (cfg : WhatsApp.Config) (RG : Type) (a : WhatsApp.Arrival RG)
          (c : WhatsApp.Channel) (j : string) (m : WhatsApp.NewMessage),
      In (WhatsApp.OnMessage j m) (WhatsApp.emitted cfg a c) ->
      WhatsApp.registered (WhatsApp.groups a) j = true
      /\ (Js.inherited j = false -> is_Some (WhatsApp.groups a !! j))
      /\ WhatsApp.chat_jid m = j)
  /\ (forall (cfg : WhatsApp.Config) (RG : Type) (batch : list (WhatsApp.Arrival RG))
             (j : string) (m : WhatsApp.NewMessage),
        In (WhatsApp.OnMessage j m)
           (WhatsApp.effects (snd (WhatsApp.onMessagesUpsert cfg batch WhatsApp.initial))) ->
        exists a, In a batch
                  /\ WhatsApp.registered (WhatsApp.groups a) j = true
                  /\ (Js.inherited j = false -> is_Some (WhatsApp.groups a !! j)))
  /\ (forall (cfg : WhatsApp.Config) (RG : Type) (a : WhatsApp.Arrival RG)
             (c : WhatsApp.Channel),
        (forall j ts, In (WhatsApp.OnChatMetadata j ts) (WhatsApp.emitted cfg a c) ->
                      WhatsApp.registered (WhatsApp.groups a) j = false) ->
        WhatsApp.emitted cfg a c = []
        \/ exists j ts, WhatsApp.emitted cfg a c = [WhatsApp.OnChatMetadata j ts])
  /\ (forall (RG : Type) (groups : gmap string RG) (j : string),
        Js.inherited j = false ->
        WhatsApp.registered groups j = bool_decide (is_Some (groups !! j)))
  /\ (forall (name : string) (trigger : string -> bool) (RG : Type)
             (groups : gmap string RG) (ctx : Telegram.Ctx) (voice : Telegram.VoiceOutcome)
             (j : string) (m : Telegram.NewMessage),
        In (Telegram.OnMessage j m) (Telegram.handleUpdate name trigger groups ctx voice) ->
        j = Telegram.chatJidOf ctx /\ is_Some (groups !! j) /\ Telegram.chat_jid m = j)
  /\ (forall ctx : Telegram.Ctx, Js.inherited (Telegram.chatJidOf ctx) = false)
  /\ (forall (name : string) (trigger : string -> bool) (RG : Type)
             (groups : gmap string RG) (ctx : Telegram.Ctx) (voice : Telegram.VoiceOutcome)
             (j : string) (m : Telegram.NewMessage),
        groups !! Telegram.chatJidOf ctx = None ->
        ~ In (Telegram.OnMessage j m) (Telegram.handleUpdate name trigger groups ctx voice)).
Proof.
  assert (Hkey : forall (RG : Type) (groups : gmap string RG) (j : string),
             WhatsApp.registered groups j = true -> Js.inherited j = false ->
             is_Some (groups !! j)).
  { unfold WhatsApp.registered. intros RG groups j Hreg Hinh. rewrite Hinh in Hreg.
    rewrite orb_false_r in Hreg. now apply bool_decide_eq_true in Hreg. }
  split; [|split; [|split; [|split; [|split; [|split]]]]].
  - intros cfg RG a c j m Hin.
    destruct (WhatsAppFacts.emitted_registered cfg RG a c j m Hin) as [Hreg Hchat].
    split; [exact Hreg|]. split; [now apply Hkey | exact Hchat].
  - intros cfg RG batch j m Hin.
    destruct (WhatsAppFacts.onMessagesUpsert_registered cfg RG batch _ j m Hin)
      as [[] | (a & Ha & Hs & _)].
    exists a. split; [exact Ha|]. split; [exact Hs | now apply Hkey].
  - intros cfg RG a c. apply WhatsAppFacts.emitted_unregistered.
  - intros RG groups j Hinh. unfold WhatsApp.registered. rewrite Hinh. apply orb_false_r.
  - intros name trigger RG groups ctx voice j m Hin.
    exact (TelegramFacts.handleUpdate_gated name trigger RG groups ctx voice _ Hin).
  - intros ctx. reflexivity.
  - intros name trigger RG groups ctx voice j m Hnone Hin.
    destruct (TelegramFacts.handleUpdate_gated name trigger RG groups ctx voice _ Hin)
      as (-> & Hs & _).
    rewrite Hnone in Hs. now destruct Hs.
Qed.

(** An instance: a text in a registered WhatsApp group reaches
    [onMessage], and the group is a key of the registry. *)
Lemma only_registered_chats_reach_router_witness :
  let a := WhatsApp.mkArrival (WhatsApp.text_message "1203@g.us" "hello") WhatsApp.NotFound
             ({[ "1203@g.us" := tt ]} : gmap string unit) (WhatsApp.Transcript None) in
  let m := WhatsApp.mkNew "ABC1" "1203@g.us" "4915@s.whatsapp.net" "Eti" "hello"
                          1700000000000 false false in
  In (WhatsApp.OnMessage "1203@g.us" m)
     (WhatsApp.emitted (WhatsApp.mkConfig true "Smith") a WhatsApp.initial)
  /\ is_Some (WhatsApp.groups a !! "1203@g.us").
Proof.
  intros a m.
  assert (Hin : In (WhatsApp.OnMessage "1203@g.us" m)
                   (WhatsApp.emitted (WhatsApp.mkConfig true "Smith") a WhatsApp.initial))
    by (vm_compute; right; right; left; reflexivity).
  split; [exact Hin|].
  exact (proj1 (proj2 (proj1 only_registered_chats_reach_router
                         (WhatsApp.mkConfig true "Smith") unit a WhatsApp.initial
                         "1203@g.us" m Hin)) eq_refl).
Defined.

(** ** Further properties of the agent runner *)

Module RunnerObsFacts.
Import AgentRunner AgentRunnerFacts RunnerObs.

Lemma stdoutAll_events (toString : Buffer -> string) (buffers : list Buffer) :
  stdoutAll (stdoutEvents toString buffers) = decodedText toString buffers.
Proof. induction buffers as [|data buffers IH]; simpl; [reflexivity | now rewrite IH]. Qed.

(** X1. The events parsed in streaming mode depend only on the text the
    handler has seen in all, that is on the concatenation of the decoded
    chunks, not on where the chunks end nor on what else happened in
    between: they are the payloads, in order, of the frames of that text
    that [JSON.parse] accepts (a payload it rejects is skipped and the scan
    goes on).  So for the buffers the worker's output arrives in: two ways
    of cutting the output give the same events whenever the buffers,
    decoded one by one, give the same text.  (A cut inside a multi-byte
    character makes the decoder give another text; such cuts are not
    covered.) *)
Theorem chunk_boundary_independence (cfg : Config) (input0 : ContainerInput)
    (tr1 tr2 : list Event) :
  onOutput cfg = true -> stdoutAll tr1 = stdoutAll tr2 ->
  let s1 := run cfg (spawned cfg input0) tr1 in
  let s2 := run cfg (spawned cfg input0) tr2 in
  parsedLog (strm s1) = parsedLog (strm s2)
  /\ parseBuffer (strm s1) = parseBuffer (strm s2)
  /\ parsedLog (strm s1) = parsedOf (JSON_parse cfg) (fst (scan (stdoutAll tr1)))
  /\ (forall (toString : Buffer -> string) (buffers1 buffers2 : list Buffer),
        decodedText toString buffers1 = decodedText toString buffers2 ->
        parsedLog (strm (run cfg (spawned cfg input0) (stdoutEvents toString buffers1)))
        = parsedLog (strm (run cfg (spawned cfg input0) (stdoutEvents toString buffers2)))).
Proof.
  intros Hon Heq s1 s2.
  destruct (parsed_whole cfg input0 tr1 Hon) as (Hb1 & Hp1).
  destruct (parsed_whole cfg input0 tr2 Hon) as (Hb2 & Hp2).
  subst s1 s2. rewrite Hb1, Hb2, Hp1, Hp2, Heq. repeat split.
  intros toString buffers1 buffers2 Hd.
  destruct (parsed_whole cfg input0 (stdoutEvents toString buffers1) Hon) as (_ & ->).
  destruct (parsed_whole cfg input0 (stdoutEvents toString buffers2) Hon) as (_ & ->).
  now rewrite !stdoutAll_events, Hd.
Qed.

(** An instance: two frames in one chunk, or cut in three with the first
    cut inside an end marker and stderr output in between. *)
Lemma chunk_boundary_independence_witness :
  (onOutput two_events_config = true
   /\ stdoutAll one_chunk_trace = stdoutAll three_chunk_trace)
  /\ parsedLog (strm (run two_events_config (spawned two_events_config demoInput)
                          three_chunk_trace))
     = [say "one"; say "two"].
Proof.
  split; [split; reflexivity|].
  destruct (chunk_boundary_independence two_events_config demoInput
              three_chunk_trace one_chunk_trace eq_refl eq_refl) as (_ & _ & -> & _).
  reflexivity.
Defined.

(** X2. Whatever the worker writes, the text captured from each stream
    never grows beyond the ceiling. *)
Theorem capture_within_ceiling (cfg : Config) (input0 : ContainerInput) (tr : list Event) :
  let s := run cfg (spawned cfg input0) tr in
  (String.length (stdout (cap s)) <= CONTAINER_MAX_OUTPUT_SIZE cfg)%nat
  /\ (String.length (stderr (cap s)) <= CONTAINER_MAX_OUTPUT_SIZE cfg)%nat.
Proof.
  intros s. destruct (captured_prefix cfg input0 tr) as (Ho & _ & He & _).
  subst s. rewrite Ho, He, !length_take. lia.
Qed.

(** X3. The promise settles once: after it has resolved, no event
    whatsoever (late output, timers, a second close, a spawn error, the end
    of a delivery) changes the result. *)
Theorem result_settles_once (cfg : Config) (input0 : ContainerInput)
    (tr later : list Event) (r : ContainerOutput) :
  resolved (run cfg (spawned cfg input0) tr) = Some r ->
  resolved (run cfg (spawned cfg input0) (tr ++ later)) = Some r.
Proof. intros H. rewrite run_app. now apply run_sticky. Qed.

Lemma result_settles_once_witness :
  let cfg := demoConfig 4096 true [say "one"] in
  resolved (run cfg (spawned cfg demoInput) [SpawnError "ENOENT"])
  = Some (errorOutput "Agent spawn error: ENOENT")
  /\ resolved (run cfg (spawned cfg demoInput)
                   ([SpawnError "ENOENT"]
                    ++ [StdoutData (frame (stringify (say "one"))); Close (Some 0);
                        DeliverySettled Fulfilled]))
     = Some (errorOutput "Agent spawn error: ENOENT").
Proof.
  split; [reflexivity|].
  apply (result_settles_once (demoConfig 4096 true [say "one"]) demoInput
           [SpawnError "ENOENT"]). reflexivity.
Defined.

Section Escalation.
Variable cfg : Config.

Lemma forceKills_idle (upto : Z) (due : list Z) (t : Timers) :
  (due <> [] -> killed t = true \/ closed t = true) ->
  fireForceKills upto due t = t.
Proof.
  revert t; induction due as [|d due IH]; intros t H; [reflexivity|]. simpl.
  assert (forceKillFires t = t) as ->.
  { unfold forceKillFires, kill. destruct (killed t) eqn:Hk; [reflexivity|].
    destruct (closed t) eqn:Hc; [reflexivity|].
    destruct H as [H | H]; [discriminate | congruence | congruence]. }
  destruct (d <=? upto); apply IH; intros _; apply H; discriminate.
Qed.

Lemma killOnTimeout_Escalation (due : Z) (s : Run) :
  EscalationInv (tmr s) -> EscalationInv (tmr (killOnTimeout due s)).
Proof.
  intros (Hf & Hs). unfold killOnTimeout, kill, EscalationInv. simpl.
  destruct (closed (tmr s)) eqn:Hc; simpl.
  - split; [now right | assumption].
  - split; [now left|]. intros Hin. apply in_app_or in Hin as [Hin | [Hin | []]];
      [now apply Hs | discriminate].
Qed.

Lemma elapse_Escalation (ms : Z) (s : Run) :
  EscalationInv (tmr s) -> EscalationInv (tmr (elapse ms s)).
Proof.
  intros HI. unfold elapse.
  set (s1 := match timeout (tmr s) with
             | Some due => if due <=? now (tmr s) + Z.max 0 ms then killOnTimeout due s else s
             | None => s
             end).
  assert (EscalationInv (tmr s1)) as (Hf & Hs).
  { subst s1. destruct (timeout (tmr s)) as [due|]; [|exact HI].
    destruct (due <=? _); [now apply killOnTimeout_Escalation | exact HI]. }
  rewrite (forceKills_idle _ _ _ Hf). unfold EscalationInv. simpl.
  split; [|assumption]. intros Hne. apply Hf. intros He. apply Hne. now rewrite He.
Qed.

Lemma step_Escalation (s : Run) (e : Event) :
  EscalationInv (tmr s) -> EscalationInv (tmr (step cfg s e)).
Proof.
  intros HI. unfold step. rewrite (proj1 (proj2 (proj2 (pump_frame _)))).
  destruct e as [chunk|chunk|ms|o|code|m].
  - destruct (onStdoutData_tmr cfg chunk s) as [[-> _] | ->]; exact HI.
  - unfold onStderrData. destruct (capture _ _ _ _). exact HI.
  - now apply elapse_Escalation.
  - now destruct (onDeliverySettled_frame o s) as (_ & _ & -> & _).
  - destruct HI as (Hf & Hs). unfold onClose. simpl.
    destruct (timedOut (tmr s)); simpl.
    + destruct (hadStreamingOutput (strm s)); simpl; (split; [now right | assumption]).
    + destruct (negb _); simpl; [split; [now right | assumption]|].
      destruct (onOutput cfg); simpl; (split; [now right | assumption]).
  - exact HI.
Qed.

(** *** The session id *)

Lemma sessionOf_snoc (log : list ContainerOutput) (o : ContainerOutput) :
  sessionOf (log ++ [o])
  = match newSessionId o with
    | Some i => if Js.truthy i then Some i else sessionOf log
    | None => sessionOf log
    end.
Proof. unfold sessionOf. now rewrite fold_left_app. Qed.

Lemma streamLoop_session (fuel : nat) (s : Run) :
  lastSessionId (strm s) = sessionOf (parsedLog (strm s)) ->
  lastSessionId (strm (streamLoop cfg fuel s))
  = sessionOf (parsedLog (strm (streamLoop cfg fuel s))).
Proof.
  revert s; induction fuel as [|fuel IH]; intros s H; [exact H|].
  rewrite streamLoop_S.
  destruct (nextFrame (parseBuffer (strm s))) as [[j rest]|]; [|exact H].
  apply IH. unfold onFrame. destruct (JSON_parse cfg j) as [o|m]; simpl; [|exact H].
  rewrite sessionOf_snoc, H. reflexivity.
Qed.

Lemma step_session (s : Run) (e : Event) :
  lastSessionId (strm s) = sessionOf (parsedLog (strm s)) ->
  lastSessionId (strm (step cfg s e)) = sessionOf (parsedLog (strm (step cfg s e))).
Proof.
  intros H. pose proof (step_strm cfg s e) as Hs.
  destruct e as [chunk|chunk|ms|o|code|m]; try (rewrite Hs; exact H).
  clear Hs. unfold step. rewrite (proj1 (proj2 (pump_frame _))).
  unfold onStdoutData. destruct (capture _ _ _ _) as [out t].
  destruct (onOutput cfg); [|exact H]. cbv zeta.
  apply streamLoop_session. exact H.
Qed.

End Escalation.

(** X4. The escalation to [SIGKILL] never happens.  [agent.kill('SIGTERM')]
    sets [agent.killed] as soon as the signal is delivered, and delivers
    nothing once the process has gone; the callback armed 15 seconds later
    tests [!agent.killed] before sending [SIGKILL], so in every run it
    finds the flag set or the process gone: a worker that ignores
    [SIGTERM] is never sent [SIGKILL]. *)
Theorem sigkill_never_sent (cfg : Config) (input0 : ContainerInput) (tr : list Event) :
  ~ In SIGKILL (signals (tmr (run cfg (spawned cfg input0) tr))).
Proof.
  enough (EscalationInv (tmr (run cfg (spawned cfg input0) tr))) as (_ & H) by exact H.
  induction tr as [|e tr IH] using rev_ind.
  - split; [intros H; now contradiction H | intros []].
  - rewrite run_snoc. now apply step_Escalation.
Qed.

(** X5. At every moment the session id the runner holds, which the
    success results carry, is the [newSessionId] of the last parsed event
    that has a non-empty one; events without one, or with an empty one,
    leave it as it was. *)
Theorem session_id_is_last_announced (cfg : Config) (input0 : ContainerInput)
    (tr : list Event) :
  let s := run cfg (spawned cfg input0) tr in
  lastSessionId (strm s) = sessionOf (parsedLog (strm s)).
Proof.
  induction tr as [|e tr IH] using rev_ind; [reflexivity|].
  simpl in *. rewrite run_snoc. now apply step_session.
Qed.

(** X6. Legacy mode and the streaming scanner agree on the first frame:
    when the first end marker of the accumulated stdout comes after its
    first start marker, the payload legacy mode parses is the first payload
    the streaming scanner extracts from the same text. *)
Theorem legacy_is_first_streamed_frame (out p : string) (ps : list string) (i j : nat) :
  fst (scan out) = p :: ps ->
  Js.indexOf OUTPUT_START_MARKER 0 out = Some i ->
  Js.indexOf OUTPUT_END_MARKER 0 out = Some j ->
  (i < j)%nat ->
  legacyJsonLine out = p.
Proof.
  intros Hs Hi Hj Hlt. rewrite scan_unfold in Hs. unfold nextFrame, legacyJsonLine in *.
  rewrite Hi, Hj in *. rewrite (indexOf_from _ i _ j Hj) in Hs by lia.
  apply Nat.ltb_lt in Hlt. rewrite Hlt.
  destruct (scan _) as [js b]. cbn [fst] in Hs. congruence.
Qed.

Lemma legacy_is_first_streamed_frame_witness :
  legacyJsonLine two_pairs_stdout = stringify (say "first").
Proof.
  apply (legacy_is_first_streamed_frame two_pairs_stdout (stringify (say "first"))
           [stringify (say "second")] 0 64); vm_compute; try reflexivity; lia.
Defined.



(** *** Sanitised names *)

Section Replace.
Variable keep : ascii -> bool.
Variable sub : ascii.
Hypothesis keep_sub : keep sub = true.

Lemma replaceOutside_length (s : string) :
  String.length (replaceOutside keep sub s) = String.length s.
Proof. induction s as [|c s IH]; simpl; [reflexivity | now rewrite IH]. Qed.

Lemma replaceOutside_kept (s : string) :
  Forall (fun c => keep c = true) (list_ascii_of_string (replaceOutside keep sub s)).
Proof.
  induction s as [|c s IH]; simpl; constructor; [|exact IH].
  destruct (keep c) eqn:Hc; [exact Hc | exact keep_sub].
Qed.

Lemma replaceOutside_fixed (s : string) :
  Forall (fun c => keep c = true) (list_ascii_of_string s) -> replaceOutside keep sub s = s.
Proof.
  induction s as [|c s IH]; simpl; intros H; [reflexivity|].
  apply Forall_cons in H as [Hc Hs]. now rewrite Hc, IH.
Qed.

Lemma replaceOutside_idempotent (s : string) :
  replaceOutside keep sub (replaceOutside keep sub s) = replaceOutside keep sub s.
Proof. apply replaceOutside_fixed, replaceOutside_kept. Qed.

End Replace.

Lemma indexOf_absent (x : ascii) (s : string) :
  Forall (fun c => Ascii.eqb c x = false) (list_ascii_of_string s) ->
  Js.indexOf (String x EmptyString) 0 s = None.
Proof.
  unfold Js.indexOf. induction s as [|c s IH]; simpl list_ascii_of_string; intros H;
    [reflexivity|].
  apply Forall_cons in H as [Hc Hs]. rewrite index_cons_0, (IH Hs).
  simpl. destruct (ascii_dec x c) as [->|]; [|reflexivity].
  now rewrite Ascii.eqb_refl in Hc.
Qed.

(** X18. The directory name made from a chat JID, and the agent name made
    from a group folder, have the length of the original, consist of
    characters of the allowed class only (so the JID's directory name holds
    no path separator), and are left as they are when sanitised again or
    when they were clean already. *)
Theorem sanitised_names_are_clean (chatJid folder : string) :
  (String.length (sanitizedJid chatJid) = String.length chatJid
   /\ Forall (fun c => jidChar c = true) (list_ascii_of_string (sanitizedJid chatJid))
   /\ Js.indexOf "/" 0 (sanitizedJid chatJid) = None
   /\ sanitizedJid (sanitizedJid chatJid) = sanitizedJid chatJid
   /\ (Forall (fun c => jidChar c = true) (list_ascii_of_string chatJid) ->
       sanitizedJid chatJid = chatJid))
  /\ (String.length (safeName folder) = String.length folder
      /\ Forall (fun c => nameChar c = true) (list_ascii_of_string (safeName folder))
      /\ safeName (safeName folder) = safeName folder
      /\ sanitizedJid (safeName folder) = safeName folder).
Proof.
  assert (Hj : jidChar "_" = true) by reflexivity.
  assert (Hn : nameChar "-" = true) by reflexivity.
  split; [split; [|split; [|split; [|split]]] | split; [|split; [|split]]].
  - apply replaceOutside_length.
  - now apply replaceOutside_kept.
  - apply indexOf_absent. eapply Forall_impl; [now apply replaceOutside_kept|].
    simpl. intros c Hc. destruct (Ascii.eqb c "/") eqn:He; [|reflexivity].
    apply Ascii.eqb_eq in He. subst c. discriminate.
  - now apply replaceOutside_idempotent.
  - now apply replaceOutside_fixed.
  - apply replaceOutside_length.
  - now apply replaceOutside_kept.
  - now apply replaceOutside_idempotent.
  - apply replaceOutside_fixed. eapply Forall_impl; [now apply (replaceOutside_kept nameChar)|].
    simpl. intros c Hc. unfold nameChar in Hc. unfold jidChar.
    apply orb_true_iff in Hc as [Hc | Hc]; [now rewrite Hc|].
    apply Ascii.eqb_eq in Hc. subst c. reflexivity.
Qed.

Example sanitised_ex :
  sanitizedJid "1203 63/x@g.us" = "1203_63_x@g.us"
  /\ safeName "family_chat.2" = "family-chat-2".
Proof. split; reflexivity. Qed.

(** X21. The ceiling bounds the captured text, not the parse buffer: in
    streaming mode, as long as the worker's output holds no start marker,
    the whole of it stays in the parse buffer and no event is parsed,
    however far the output exceeds the ceiling. *)
Theorem unframed_output_is_buffered_whole (cfg : Config) (input0 : ContainerInput)
    (tr : list Event) :
  onOutput cfg = true ->
  Js.indexOf OUTPUT_START_MARKER 0 (stdoutAll tr) = None ->
  let s := run cfg (spawned cfg input0) tr in
  parseBuffer (strm s) = stdoutAll tr
  /\ parsedLog (strm s) = []
  /\ stdout (cap s) = Js.take (CONTAINER_MAX_OUTPUT_SIZE cfg) (stdoutAll tr).
Proof.
  intros Hon Hno s.
  destruct (parsed_whole cfg input0 tr Hon) as (Hb & Hp).
  destruct (captured_prefix cfg input0 tr) as (Ho & _).
  fold s in Hb, Hp, Ho. rewrite Hb, Hp, Ho, scan_unfold. unfold nextFrame.
  rewrite Hno. easy.
Qed.

Lemma unframed_output_is_buffered_whole_witness :
  let cfg := demoConfig 10 true [] in
  let s := run cfg (spawned cfg demoInput)
               [StdoutData "plain text, "; StdoutData "longer than the ceiling"] in
  parseBuffer (strm s) = "plain text, longer than the ceiling"
  /\ stdout (cap s) = "plain text".
Proof.
  intros cfg s.
  destruct (unframed_output_is_buffered_whole cfg demoInput
              [StdoutData "plain text, "; StdoutData "longer than the ceiling"]
              eq_refl eq_refl) as (Hb & _ & Ho).
  split; [exact Hb | exact Ho].
Defined.

End RunnerObsFacts.

(** ** Further properties of the WhatsApp channel *)

Module WhatsAppObsFacts.
Import WhatsApp WhatsAppFacts WhatsAppObs.

Section Conservation.
Variable cfg : Config.

Lemma sentItems_snoc (tr : list Event) (e : Event) :
  sentItems cfg (tr ++ [e]) = sentItems cfg tr ++ sentBy cfg e.
Proof. unfold sentItems. rewrite bind_app. simpl. now rewrite app_nil_r. Qed.

Lemma channel_run_snoc (c : Channel) (tr : list Event) (e : Event) :
  run cfg c (tr ++ [e]) = step cfg (run cfg c tr) e.
Proof. unfold run. now rewrite fold_left_app. Qed.

Lemma drainNext_held (c : Channel) :
  drainInFlight c = None -> held (drainNext c) ≡ₚ held c.
Proof.
  intros Hd. unfold drainNext, held.
  destruct (outgoingQueue c) as [|item rest]; simpl; rewrite Hd; simpl; [reflexivity|].
  solve_Permutation.
Qed.

Lemma flush_held (c : Channel) :
  QueueInv c -> held (flushOutgoingQueue c) ≡ₚ held c.
Proof.
  intros [_ Hf]. unfold flushOutgoingQueue.
  destruct (flushing c) eqn:Hfl; [reflexivity|]. simpl.
  destruct (bool_decide _); [reflexivity|]. apply drainNext_held.
  destruct (drainInFlight c) eqn:Hd; [|reflexivity].
  assert (false = true) by (apply Hf; eauto). discriminate.
Qed.

(** One event: what was held, and what the event asks to send, is held
    afterwards or was dropped by a failing drain send. *)
Lemma step_held (c : Channel) (e : Event) :
  QueueInv c -> held (step cfg c e) ++ lostBy c e ≡ₚ held c ++ sentBy cfg e.
Proof.
  intros HI. destruct e as [j t|i ok|user| | | |ok]; simpl; rewrite ?app_nil_r.
  - unfold sendMessage, held. destruct (negb (connected c)); simpl; solve_Permutation.
  - unfold directSettled. destruct (directInFlight c !! i) as [item|] eqn:Hi; [|reflexivity].
    apply delete_Permutation in Hi. unfold held.
    set (rest := delete i (directInFlight c)) in *.
    destruct ok; simpl; fold rest; rewrite Hi; solve_Permutation.
  - unfold onOpen.
    set (c2 := match user with Some _ => _ | None => _ end).
    assert (QueueInv c2 /\ held c2 = held c) as [HI2 <-].
    { subst c2. destruct user as [u|]; [|now split].
      destruct (userLid u) as [l|]; [|now split].
      destruct (Js.truthy _ && Js.truthy _); now split. }
    now apply flush_held.
  - reflexivity.
  - reflexivity.
  - now apply flush_held.
  - unfold drainSettled. destruct (drainInFlight c) as [item|] eqn:Hd.
    + destruct ok.
      * rewrite app_nil_r. unfold drainNext, held. simpl. rewrite Hd.
        destruct (outgoingQueue c) as [|next rest]; simpl; solve_Permutation.
      * unfold held. simpl. rewrite Hd. simpl. solve_Permutation.
    + destruct ok; simpl; now rewrite app_nil_r.
Qed.

End Conservation.

(** X8. Without a failure of a drain send, no message is lost and none is
    duplicated: at every moment the messages passed to [sendMessage], each
    prefixed once, are exactly (as a multiset) those delivered, those whose
    send is awaited, and those queued; this holds across disconnections,
    failed direct sends and their re-queueing. *)
Theorem messages_conserved (cfg : Config) (tr : list Event) :
  forallb (fun e => negb (drainFailure e)) tr = true ->
  sentItems cfg tr ≡ₚ held (run cfg initial tr).
Proof.
  induction tr as [|e tr IH] using rev_ind; intros Hok; [reflexivity|].
  rewrite forallb_app in Hok. apply andb_prop in Hok as [Htr He].
  rewrite sentItems_snoc, channel_run_snoc, (IH Htr).
  assert (HI : QueueInv (run cfg initial tr)).
  { apply run_QueueInv. split; [reflexivity|]. split; [intros []; discriminate|discriminate]. }
  rewrite <- (step_held cfg _ e HI).
  destruct e as [j t|i ok|user| | | |[|]]; simpl in *; rewrite ?app_nil_r;
    try reflexivity; discriminate.
Qed.

Lemma messages_conserved_witness :
  sentItems (mkConfig false "Smith") retry_trace
  ≡ₚ held (run (mkConfig false "Smith") initial retry_trace).
Proof. apply messages_conserved. reflexivity. Defined.

(** X9. Whatever fails, the channel never duplicates or invents a
    message: the messages delivered, awaited and queued are together a
    sub-multiset of the messages passed to [sendMessage], each with the
    prefix [sendMessage] gave it (a re-queued message is not prefixed a
    second time). *)
Theorem messages_never_duplicated (cfg : Config) (tr : list Event) :
  held (run cfg initial tr) ⊆+ sentItems cfg tr.
Proof.
  induction tr as [|e tr IH] using rev_ind; [reflexivity|].
  rewrite sentItems_snoc, channel_run_snoc.
  assert (HI : QueueInv (run cfg initial tr)).
  { apply run_QueueInv. split; [reflexivity|]. split; [intros []; discriminate|discriminate]. }
  trans (held (step cfg (run cfg initial tr) e) ++ lostBy (run cfg initial tr) e).
  - apply submseteq_inserts_r. reflexivity.
  - rewrite (step_held cfg _ e HI). now apply submseteq_skips_r.
Qed.

(** *** The identity cache and the image cache *)

Lemma drop_append_exact (x y : string) : Js.drop (String.length x) (x +:+ y) = y.
Proof. induction x as [|ch x IH]; [reflexivity | exact IH]. Qed.

Lemma endsWith_append (suffix x : string) : Js.endsWith suffix (x +:+ suffix) = true.
Proof.
  unfold Js.endsWith. rewrite length_append.
  replace (String.length x + String.length suffix - String.length suffix)%nat
    with (String.length x) by lia.
  rewrite drop_append_exact, String.eqb_refl, andb_true_r.
  apply Nat.leb_le. lia.
Qed.

Section Caches.
Variable cfg : Config.
Variable RegisteredGroup : Type.

(** What [translateJid] leaves of the channel: all but the mapping and the
    log of resolver calls. *)
Lemma translateJid_frame (answer : Lookup) (jid : string) (c : Channel) :
  let c1 := snd (translateJid answer jid c) in
  connected c1 = connected c /\ recentImageMessages c1 = recentImageMessages c
  /\ (PhoneJids c -> PhoneJids c1)
  /\ (fst (translateJid answer jid c) = jid
      \/ (PhoneJids c -> ownsJid (fst (translateJid answer jid c)) = true)).
Proof.
  assert (Hask : forall lidUser,
             let r := askResolver answer jid lidUser c in
             connected (snd r) = connected c
             /\ recentImageMessages (snd r) = recentImageMessages c
             /\ (PhoneJids c -> PhoneJids (snd r))
             /\ (fst r = jid \/ (PhoneJids c -> ownsJid (fst r) = true))).
  { intros lidUser. unfold askResolver.
    destruct answer as [pn| |]; simpl; try (repeat split; auto; fail).
    destruct (Js.truthy pn); simpl; [|repeat split; auto].
    repeat split.
    - intros H. apply map_Forall_insert_2; [|exact H]. apply endsWith_append.
    - right. intros _. unfold ownsJid, phoneJidOf. rewrite endsWith_append.
      apply orb_true_r. }
  unfold translateJid. destruct (negb (Js.endsWith "@lid" jid)); [repeat split; auto|].
  destruct (lidToPhoneMap c !! lidUserOf jid) as [cached|] eqn:Hm; [|apply Hask].
  destruct (Js.truthy cached); [|apply Hask].
  simpl. repeat split; auto. right. intros H. unfold ownsJid.
  rewrite (H _ _ Hm). apply orb_true_r.
Qed.

(** What one message leaves of the channel. *)
Lemma handleMessage_frame (a : Arrival RegisteredGroup) (c : Channel) :
  let c' := snd (handleMessage cfg a c) in
  connected c' = connected c
  /\ (PhoneJids c -> PhoneJids c')
  /\ (hasImage a = false -> recentImageMessages c' = recentImageMessages c).
Proof.
  destruct (handled_dec RegisteredGroup a) as [(body & rawJid & Hh) | Hno].
  - destruct (translateJid_frame (lookup a) rawJid c) as (Hc & Hm & Hp & _).
    destruct (isoTimestamp (messageTimestamp (msg a))) as [ts|] eqn:Ht.
    + pose proof (handleMessage_state cfg RegisteredGroup a c body rawJid ts Hh Ht) as He.
      destruct (translateJid (lookup a) rawJid c) as [chatJid c1]. rewrite He.
      cbn [snd] in *. repeat split; [exact Hc | exact Hp |].
      unfold hasImage. destruct Hh as (-> & _). intros ->. exact Hm.
    + rewrite (handleMessage_throws cfg RegisteredGroup a c body rawJid Hh Ht). cbn [snd].
      repeat split; [exact Hc | exact Hp | intros _; exact Hm].
  - rewrite (handleMessage_skips cfg RegisteredGroup a c Hno). now repeat split.
Qed.

Lemma handleMessage_PhoneJids (a : Arrival RegisteredGroup) (c : Channel) :
  PhoneJids c -> PhoneJids (snd (handleMessage cfg a c)).
Proof. apply handleMessage_frame. Qed.

Lemma upsert_PhoneJids (batch : list (Arrival RegisteredGroup)) (c : Channel) :
  PhoneJids c -> PhoneJids (snd (onMessagesUpsert cfg batch c)).
Proof.
  revert c; induction batch as [|a rest IH]; intros c H; [exact H|].
  simpl. unfold mbind, act_bind.
  pose proof (handleMessage_PhoneJids a c H) as H1.
  destruct (handleMessage cfg a c) as [[] c1]; [now apply IH | exact H1].
Qed.

Lemma flush_lid (c : Channel) : lidToPhoneMap (flushOutgoingQueue c) = lidToPhoneMap c.
Proof.
  unfold flushOutgoingQueue. destruct (_ || _); [reflexivity|].
  unfold drainNext. now destruct (outgoingQueue c).
Qed.

Lemma step_PhoneJids (c : Channel) (e : Event) : PhoneJids c -> PhoneJids (step cfg c e).
Proof.
  intros H. unfold PhoneJids in *. destruct e as [j t|i ok|user| | | |ok]; simpl.
  - unfold sendMessage. now destruct (negb (connected c)).
  - unfold directSettled. destruct (directInFlight c !! i); [|exact H]. now destruct ok.
  - unfold onOpen. rewrite flush_lid.
    destruct user as [u|]; [|exact H]. destruct (userLid u) as [l|]; [|exact H].
    destruct (Js.truthy _ && Js.truthy _); [|exact H]. simpl.
    apply map_Forall_insert_2; [apply endsWith_append | exact H].
  - exact H.
  - exact H.
  - now rewrite flush_lid.
  - unfold drainSettled. destruct (drainInFlight c); [|exact H].
    destruct ok; [|exact H]. unfold drainNext. simpl. now destruct (outgoingQueue c).
Qed.

Lemma runAll_PhoneJids (tr : list (Input RegisteredGroup)) (c : Channel) :
  PhoneJids c -> PhoneJids (runAll cfg c tr).
Proof.
  revert c; induction tr as [|i tr IH]; intros c H; [exact H|].
  simpl. apply IH. destruct i as [e|batch]; simpl;
    [now apply step_PhoneJids | now apply upsert_PhoneJids].
Qed.



End Caches.

(** X10. Throughout the life of a channel (connection events, sends, and
    batches of inbound messages, in any order) every mapping of the LID
    cache is a phone JID ending in [@s.whatsapp.net]; hence a resolution
    whose look in the cache does not hit a member that every object
    inherits either returns the JID as it came or a JID the channel
    owns. *)
Theorem translated_jids_are_owned (cfg : Config) (RegisteredGroup : Type)
    (tr : list (Input RegisteredGroup)) (answer : Lookup) (jid : string) :
  let c := runAll cfg initial tr in
  map_Forall (fun _ v => ownsJid v = true) (lidToPhoneMap c)
  /\ (cacheKeyIsOwn jid = true ->
      fst (translateJid answer jid c) = jid
      \/ ownsJid (fst (translateJid answer jid c)) = true).
Proof.
  intros c.
  assert (H : PhoneJids c) by (apply runAll_PhoneJids; apply map_Forall_empty).
  split.
  - intros k v Hk. unfold ownsJid. rewrite (H k v Hk). apply orb_true_r.
  - intros _. destruct (translateJid_frame answer jid c) as (_ & _ & _ & [Hj | Ho]); auto.
Qed.

(** An instance: after a resolution that succeeded, the same LID resolves
    to the phone JID. *)
Lemma translated_jids_are_owned_witness :
  let a := mkArrival (text_message "12345:7@lid" "hello") (Found "4915:3@s.whatsapp.net")
                     (∅ : gmap string unit) (Transcript None) in
  let c := runAll (mkConfig true "Smith") initial [MessagesUpsert [a]] in
  fst (translateJid NotFound "12345:7@lid" c) = "12345:7@lid"
  \/ ownsJid (fst (translateJid NotFound "12345:7@lid" c)) = true.
Proof.
  intros a c.
  exact (proj2 (translated_jids_are_owned (mkConfig true "Smith") unit
                  [MessagesUpsert [a]] NotFound "12345:7@lid") eq_refl).
Defined.



Lemma contentOf_text (body : MessageContent) (t : string) :
  conversation body = Some t -> Js.truthy t = true -> contentOf body = t.
Proof.
  intros Hc Ht. unfold contentOf, orElse. rewrite Hc. simpl. rewrite !Ht. simpl.
  now rewrite !andb_false_r.
Qed.

Lemma startsWith_own_prefix (name text : string) :
  Js.startsWith (name +:+ ":") (name +:+ ": " +:+ text) = true.
Proof.
  unfold Js.startsWith. induction name as [|ch name IH]; simpl.
  - now destruct text.
  - destruct (ascii_dec ch ch); [exact IH | congruence].
Qed.

(** X20. What the channel sends to a group on a shared number it
    recognises as its own when the message comes back: the text
    [sendMessage] builds for a group carries the assistant's name and a
    colon in front, which is what the inbound handler tests.  A message
    sent to a chat that is not a group carries no prefix, and comes back
    marked as the bot's only if its text itself begins that way. *)
Theorem own_group_messages_recognised (cfg : Config) (RegisteredGroup : Type)
    (a : Arrival RegisteredGroup) (c : Channel) (body : MessageContent)
    (jid text j : string) (m : NewMessage) :
  ASSISTANT_HAS_OWN_NUMBER cfg = false ->
  message (msg a) = Some body -> audioPtt body = false ->
  conversation body = Some (prefixed cfg jid text) ->
  Js.truthy (prefixed cfg jid text) = true ->
  In (OnMessage j m) (emitted cfg a c) ->
  content m = prefixed cfg jid text
  /\ is_bot_message m
     = (if Js.endsWith "@g.us" jid then true
        else Js.startsWith (ASSISTANT_NAME cfg +:+ ":") text).
Proof.
  intros Hown Hb Hv Hc Ht Hin.
  destruct (emitted_message cfg RegisteredGroup a c j m Hin) as (body' & ts & Hb' & _ & ->).
  rewrite Hb in Hb'. injection Hb' as <-.
  unfold messageOf. cbn [content is_bot_message].
  rewrite Hv, (contentOf_text body _ Hc Ht), Hown. split; [reflexivity|].
  unfold prefixed. rewrite Hown. simpl.
  destruct (Js.endsWith "@g.us" jid); [apply startsWith_own_prefix | reflexivity].
Qed.

Lemma own_group_messages_recognised_witness :
  let cfg := mkConfig false "Smith" in
  let a := mkArrival (text_message "1203@g.us" (prefixed cfg "1203@g.us" "hello")) NotFound
                     ({[ "1203@g.us" := tt ]} : gmap string unit) (Transcript None) in
  Forall (fun e => match e with
                   | OnMessage _ m => content m = "Smith: hello" /\ is_bot_message m = true
                   | _ => True
                   end)
         (emitted cfg a initial).
Proof.
  intros cfg a. apply List.Forall_forall. intros [j ts|j m|j n] Hin; try exact I.
  apply (own_group_messages_recognised cfg unit a initial
           (mkContent (Some "Smith: hello") None None None false)
           "1203@g.us" "hello" j m);
    try reflexivity. exact Hin.
Defined.

End WhatsAppObsFacts.

(** ** Properties of the transcription *)

Module TranscriptionFacts.
Import Transcription.

Lemma buffer_settles (file : option Json) (api : string -> string -> ApiOutcome)
    (audioBuffer : option string) :
  match loadConfig file with
  | JsonNull => transcribeAudioBuffer file api audioBuffer = Rejects
  | JsonObject _ => exists t, transcribeAudioBuffer file api audioBuffer = Resolves (Some t)
  end.
Proof.
  unfold transcribeAudioBuffer. destruct (loadConfig file) as [|config]; [reflexivity|].
  destruct (negb (enabled _)); [eauto|].
  destruct audioBuffer as [buffer|]; [|eauto].
  destruct (String.length buffer =? 0)%nat; [eauto|].
  destruct (String.eqb _ _); [|eauto].
  destruct (transcribeWithOpenAI _ _ _) as [t|]; [|eauto].
  destruct (Js.truthy t); eauto.
Qed.

(** The condition under which [transcribeAudioMessage] rejects. *)
Lemma message_settles (file1 file2 : option Json)
    (download : WhatsAppObs.Download) (api : string -> string -> ApiOutcome) :
  (transcribeAudioMessage file1 file2 download api = Rejects
   /\ (loadConfig file1 = JsonNull
       \/ exists config,
            loadConfig file1 = JsonObject config /\ enabled config = true
            /\ download <> WhatsAppObs.DownloadFails /\ loadConfig file2 = JsonNull))
  \/ (exists t, transcribeAudioMessage file1 file2 download api = Resolves (Some t))
     /\ loadConfig file1 <> JsonNull
     /\ (forall config,
           loadConfig file1 = JsonObject config -> enabled config = true ->
           download <> WhatsAppObs.DownloadFails -> loadConfig file2 <> JsonNull).
Proof.
  unfold transcribeAudioMessage.
  destruct (loadConfig file1) as [|config] eqn:H1; [left; split; [reflexivity | now left]|].
  destruct (enabled config) eqn:He; simpl.
  - assert (Hb : forall audioBuffer,
               (transcribeAudioBuffer file2 api audioBuffer = Rejects
                /\ loadConfig file2 = JsonNull)
               \/ (exists t, transcribeAudioBuffer file2 api audioBuffer = Resolves (Some t))
                  /\ loadConfig file2 <> JsonNull).
    { intros audioBuffer. pose proof (buffer_settles file2 api audioBuffer) as Hs.
      destruct (loadConfig file2); [left; now split | right; now split]. }
    destruct download as [bytes| |].
    + destruct (Hb (Some bytes)) as [[Hr H2] | [Hr H2]].
      * left. split; [exact Hr|]. right. exists config. now repeat split.
      * right. split; [exact Hr|]. split; [discriminate|]. intros; exact H2.
    + destruct (Hb None) as [[Hr H2] | [Hr H2]].
      * left. split; [exact Hr|]. right. exists config. now repeat split.
      * right. split; [exact Hr|]. split; [discriminate|]. intros; exact H2.
    + right. split; [eauto|]. split; [discriminate|]. intros _ _ _ Hd. now destruct Hd.
  - right. split; [eauto|]. split; [discriminate|].
    intros config' [= <-] He'. congruence.
Qed.

(** X12. For a configuration file that holds [null] or an object of the
    declared shape: [transcribeAudioMessage] rejects exactly when the file
    parses to [null] at its own load or, transcription being enabled and
    the download not having thrown, at the load inside
    [transcribeAudioBuffer], whose promise it returns without awaiting it;
    an exception of the download it catches.  When it does not reject it
    resolves with a string, never with [null].  So the content WhatsApp
    stores for a voice message is the placeholder of the [catch] branch
    exactly when the call rejects, and otherwise the transcript in
    [[Voice: ...]] or the placeholder for an unavailable transcription; with
    files that parse to objects, or cannot be read or parsed, the [catch]
    branch is not taken. *)
Theorem voice_catch_branch_iff_rejected (file1 file2 : option Json)
    (download : WhatsAppObs.Download) (api : string -> string -> ApiOutcome) :
  (transcribeAudioMessage file1 file2 download api = Rejects
   <-> loadConfig file1 = JsonNull
       \/ exists config,
            loadConfig file1 = JsonObject config /\ enabled config = true
            /\ download <> WhatsAppObs.DownloadFails /\ loadConfig file2 = JsonNull)
  /\ (transcribeAudioMessage file1 file2 download api = Rejects
      \/ exists t, transcribeAudioMessage file1 file2 download api = Resolves (Some t))
  /\ (whatsappVoice file1 file2 download api = "[Voice Message - transcription failed]"
      <-> transcribeAudioMessage file1 file2 download api = Rejects)
  /\ (transcribeAudioMessage file1 file2 download api <> Rejects ->
      whatsappVoice file1 file2 download api = "[Voice Message - transcription unavailable]"
      \/ exists t, Js.truthy t = true
                   /\ whatsappVoice file1 file2 download api = "[Voice: " +:+ t +:+ "]")
  /\ (file1 <> Some JsonNull -> file2 <> Some JsonNull ->
      whatsappVoice file1 file2 download api <> "[Voice Message - transcription failed]").
Proof.
  assert (Hload : forall file, file <> Some JsonNull -> loadConfig file <> JsonNull).
  { intros [[|config]|] Hf; simpl; congruence. }
  unfold whatsappVoice.
  destruct (message_settles file1 file2 download api)
    as [[Hr Hwhy] | ([t Ht] & H1 & H2)].
  - rewrite Hr. simpl. split; [now split|]. split; [now left|]. split; [now split|].
    split; [intros Hn; now destruct Hn|].
    intros Hf1 Hf2. exfalso. destruct Hwhy as [Hn | (config & _ & _ & _ & Hn)];
      [now apply (Hload file1) | now apply (Hload file2)].
  - rewrite Ht. simpl. split.
    { split; [discriminate|]. intros [Hn | (config & Hc & He & Hd & Hn)];
        [now destruct H1 | now destruct (H2 config Hc He Hd)]. }
    split; [right; now exists t|].
    destruct (Js.truthy t) eqn:Htr.
    + split; [split; discriminate|]. split; [|discriminate]. intros _. right. now exists t.
    + split; [split; discriminate|]. split; [|discriminate]. intros _. now left.
Qed.

(** An instance: transcription is enabled, the audio is downloaded, and the
    file then holds [null]: the call rejects and the [catch] branch is
    taken. *)
Lemma voice_catch_branch_iff_rejected_witness :
  let on := Some (JsonObject (mkTranscriptionConfig "openai" None true "[no transcript]")) in
  whatsappVoice on (Some JsonNull) (WhatsAppObs.Buffer "ogg") (fun _ _ => ApiThrows)
  = "[Voice Message - transcription failed]"
  /\ whatsappVoice on on WhatsAppObs.DownloadFails (fun _ _ => ApiThrows)
     <> "[Voice Message - transcription failed]".
Proof.
  intros on. split.
  - apply (proj1 (proj2 (proj2 (voice_catch_branch_iff_rejected on (Some JsonNull)
                                   (WhatsAppObs.Buffer "ogg") (fun _ _ => ApiThrows))))).
    reflexivity.
  - apply (proj2 (proj2 (proj2 (proj2 (voice_catch_branch_iff_rejected on on
                                   WhatsAppObs.DownloadFails (fun _ _ => ApiThrows))))));
      discriminate.
Defined.

(** X13. With transcription disabled, and so also when the configuration
    file cannot be read, the fallback message itself is handled as the
    transcript: WhatsApp stores it inside [[Voice: ...]], and Telegram,
    once it has downloaded the audio, after [[Voice message]], whatever the
    audio is. *)
Theorem disabled_transcription_shows_fallback (file file2 : option Json)
    (config : TranscriptionConfig)
    (download : WhatsAppObs.Download) (api : string -> string -> ApiOutcome)
    (audioBuffer : string) (RegisteredGroup : Type) (groups : gmap string RegisteredGroup)
    (ctx : Telegram.Ctx) :
  loadConfig file = JsonObject config ->
  enabled config = false ->
  Js.truthy (fallbackMessage config) = true ->
  is_Some (groups !! Telegram.chatJidOf ctx) ->
  whatsappVoice file file2 download api
  = "[Voice: " +:+ fallbackMessage config +:+ "]"
  /\ Telegram.onVoice groups ctx (telegramVoice file api audioBuffer)
     = [Telegram.OnChatMetadata (Telegram.chatJidOf ctx) (Telegram.date ctx * 1000) None;
        Telegram.OnMessage (Telegram.chatJidOf ctx)
          (Telegram.newMessage ctx
             ("[Voice message] " +:+ fallbackMessage config))].
Proof.
  intros Hl He Ht [g Hg].
  unfold whatsappVoice, telegramVoice, transcribeAudioMessage, transcribeAudioBuffer,
    Telegram.onVoice.
  rewrite Hl, He, Hg. simpl. rewrite Ht. split; reflexivity.
Qed.

Lemma disabled_transcription_shows_fallback_witness :
  whatsappVoice None None WhatsAppObs.DownloadFails (fun _ _ => ApiThrows)
  = "[Voice: [Voice Message - transcription unavailable]]".
Proof.
  apply (disabled_transcription_shows_fallback None None
           (mkTranscriptionConfig "openai" None false
              "[Voice Message - transcription unavailable]")
           WhatsAppObs.DownloadFails
           (fun _ _ => ApiThrows) "ogg" unit {[ "tg:-100" := tt ]}
           (Telegram.photo_from (-100)));
    [reflexivity | reflexivity | reflexivity | eexists; reflexivity].
Defined.

End TranscriptionFacts.

(** ** Properties of the Telegram channel's outbound side *)

Module TelegramOutFacts.
Import TelegramOut.

Lemma MAX_LENGTH_pos : (0 < MAX_LENGTH)%nat.
Proof. unfold MAX_LENGTH. apply Nat.lt_0_succ. Qed.

#[local] Opaque MAX_LENGTH.

Lemma drop_empty (n : nat) : Js.drop n EmptyString = EmptyString.
Proof. now destruct n. Qed.

Lemma drop_drop (a b : nat) (s : string) : Js.drop (a + b) s = Js.drop b (Js.drop a s).
Proof.
  revert s; induction a as [|a IH]; intros s; [reflexivity|].
  destruct s as [|c s]; simpl; [now rewrite drop_empty | apply IH].
Qed.

Lemma drop_all (n : nat) (s : string) :
  (String.length s <= n)%nat -> Js.drop n s = EmptyString.
Proof.
  revert s; induction n as [|n IH]; intros [|c s] H; simpl in *; try reflexivity; try lia.
  apply IH. lia.
Qed.

Lemma chunkLoop_S (fuel i : nat) (text : string) :
  chunkLoop (S fuel) i text
  = if (i <? String.length text)%nat
    then Js.slice i (i + MAX_LENGTH) text :: chunkLoop fuel (i + MAX_LENGTH) text
    else [].
Proof. reflexivity. Qed.

Lemma slice_chunk (i : nat) (text : string) :
  Js.slice i (i + MAX_LENGTH) text = Js.take MAX_LENGTH (Js.drop i text).
Proof. unfold Js.slice. now replace (i + MAX_LENGTH - i)%nat with MAX_LENGTH by lia. Qed.

(** The loop cuts the text from [i] on into slices that join up to it,
    none longer than the limit and none empty. *)
Lemma chunkLoop_spec (fuel i : nat) (text : string) :
  (String.length text - i <= fuel)%nat ->
  joined (chunkLoop fuel i text) = Js.drop i text
  /\ Forall (fun chunk => (1 <= String.length chunk <= MAX_LENGTH)%nat)
            (chunkLoop fuel i text).
Proof.
  pose proof MAX_LENGTH_pos as Hpos.
  revert i; induction fuel as [|fuel IH]; intros i Hf.
  - split; [|constructor]. simpl. symmetry. apply drop_all. lia.
  - rewrite chunkLoop_S. destruct (i <? String.length text)%nat eqn:Hi.
    + apply Nat.ltb_lt in Hi. destruct (IH (i + MAX_LENGTH)%nat) as [Hj Hl]; [lia|].
      split.
      * cbn [joined fold_right]. fold (joined (chunkLoop fuel (i + MAX_LENGTH) text)).
        rewrite Hj, slice_chunk, drop_drop. apply take_drop.
      * constructor; [|exact Hl]. rewrite slice_chunk, length_take, length_drop. lia.
    + apply Nat.ltb_ge in Hi. split; [|constructor]. simpl. symmetry. now apply drop_all.
Qed.

Lemma attempt_prefix (bot rejects : nat -> bool) (k : nat) (numericId : string)
    (chunks : list string) :
  attempt bot rejects k numericId chunks `prefix_of` map (mkCall numericId) chunks.
Proof.
  revert k; induction chunks as [|chunk rest IH]; intros k; simpl; [reflexivity|].
  destruct (bot k); simpl; [|apply prefix_nil].
  destruct (rejects k); [apply prefix_cons, prefix_nil | apply prefix_cons, IH].
Qed.

(** The calls when every call up to the last is made and resolves. *)
Lemma attempt_all (bot rejects : nat -> bool) (k : nat) (numericId : string)
    (chunks : list string) :
  (forall i, (i < List.length chunks)%nat ->
             bot (k + i)%nat = true /\ rejects (k + i)%nat = false) ->
  attempt bot rejects k numericId chunks = map (mkCall numericId) chunks.
Proof.
  revert k; induction chunks as [|chunk rest IH]; intros k Hall; simpl; [reflexivity|].
  destruct (Hall 0%nat) as [Hb Hr]; [simpl; lia|]. rewrite Nat.add_0_r in Hb, Hr.
  rewrite Hb, Hr. simpl. f_equal. apply IH. intros i Hi.
  replace (S k + i)%nat with (k + S i)%nat by lia. apply Hall. simpl. lia.
Qed.

(** The calls when the call number [n] is the first that is not made, or
    the first that rejects. *)
Lemma attempt_stops (bot rejects : nat -> bool) (k n : nat) (numericId : string)
    (chunks : list string) :
  (n < List.length chunks)%nat ->
  (forall i, (i < n)%nat -> bot (k + i)%nat = true /\ rejects (k + i)%nat = false) ->
  (bot (k + n)%nat = false ->
   attempt bot rejects k numericId chunks = take n (map (mkCall numericId) chunks))
  /\ (bot (k + n)%nat = true -> rejects (k + n)%nat = true ->
      attempt bot rejects k numericId chunks
      = take (S n) (map (mkCall numericId) chunks)).
Proof.
  revert k chunks; induction n as [|n IH]; intros k [|chunk rest] Hn Hall;
    simpl in Hn; try lia.
  - rewrite Nat.add_0_r. simpl. split.
    + now intros ->.
    + intros -> ->. reflexivity.
  - destruct (Hall 0%nat) as [Hb Hr]; [lia|]. rewrite Nat.add_0_r in Hb, Hr.
    replace (k + S n)%nat with (S k + n)%nat by lia.
    destruct (IH (S k) rest) as [H1 H2]; [lia | |].
    { intros i Hi. replace (S k + i)%nat with (k + S i)%nat by lia. apply Hall. lia. }
    cbn [attempt map]. rewrite Hb, Hr. cbn [negb]. split.
    + intros Hs. now rewrite (H1 Hs).
    + intros Hs Hj. now rewrite (H2 Hs Hj).
Qed.

(** X14. [sendMessage] cuts a text into pieces of at most 4096 characters
    that join up to the text, in order, none of them empty unless the text
    is.  The calls it makes are these pieces, one call each, in order:
    without a bot none; all of them when the bot stays and no call
    rejects; the pieces before the first for which the bot is gone, when
    no earlier call rejects; and the pieces up to and including the first
    whose call rejects, when the bot is there until then. *)
Theorem chunks_reassemble (bot rejects : nat -> bool) (jid text : string) :
  let calls := map (mkCall (numericIdOf jid)) (chunksOf text) in
  joined (chunksOf text) = text
  /\ Forall (fun chunk => (String.length chunk <= MAX_LENGTH)%nat
                          /\ (text <> EmptyString -> chunk <> EmptyString))
            (chunksOf text)
  /\ (bot 0%nat = false -> sendMessage bot rejects jid text = [])
  /\ ((forall i, (i < List.length calls)%nat -> bot i = true /\ rejects i = false) ->
      sendMessage bot rejects jid text = calls)
  /\ (forall n, (n < List.length calls)%nat ->
        (forall i, (i < n)%nat -> bot i = true /\ rejects i = false) ->
        (bot n = false -> sendMessage bot rejects jid text = take n calls)
        /\ (bot n = true -> rejects n = true ->
            sendMessage bot rejects jid text = take (S n) calls)).
Proof.
  intros calls.
  assert (Hchunks : joined (chunksOf text) = text
            /\ Forall (fun chunk => (String.length chunk <= MAX_LENGTH)%nat
                                    /\ (text <> EmptyString -> chunk <> EmptyString))
                      (chunksOf text)).
  { unfold chunksOf. destruct (String.length text <=? MAX_LENGTH)%nat eqn:Hl.
    - apply Nat.leb_le in Hl. split; [simpl; apply append_empty_r|].
      constructor; [|constructor]. split; [exact Hl | auto].
    - destruct (chunkLoop_spec (String.length text) 0 text) as [Hj Hf]; [lia|].
      split; [exact Hj|]. eapply Forall_impl; [exact Hf|].
      intros chunk [H1 H2]. split; [exact H2|]. intros _ ->. simpl in H1. lia. }
  destruct Hchunks as [Hj Hf].
  assert (Hlen : List.length calls = List.length (chunksOf text))
    by (subst calls; apply length_map).
  split; [exact Hj|]. split; [exact Hf|]. split; [|split].
  - intros Hb. unfold sendMessage. now rewrite Hb.
  - intros Hall. unfold sendMessage.
    destruct (bot 0%nat) eqn:Hb.
    + simpl. apply attempt_all. intros i Hi. apply Hall. now rewrite Hlen.
    + destruct (chunksOf text) as [|chunk rest] eqn:Hc; [reflexivity|].
      destruct (Hall 0%nat) as [Hb' _]; [rewrite Hlen; simpl; lia | congruence].
  - intros n Hn Hall. rewrite Hlen in Hn.
    destruct (attempt_stops bot rejects 0 n (numericIdOf jid) (chunksOf text) Hn Hall)
      as [H1 H2].
    unfold sendMessage. destruct (bot 0%nat) eqn:Hb; simpl.
    + split; assumption.
    + destruct n as [|n]; [split; [reflexivity | congruence]|].
      destruct (Hall 0%nat) as [Hb' _]; [lia | congruence].
Qed.

(** A text of 9000 characters makes three pieces.  The second call
    rejects: two calls.  The bot is cleared while the first call is under
    way: one call. *)
Example chunks_ex :
  map String.length (chunksOf (repeatChar (4096 + 4096 + 808) "a")) = [4096%nat; 4096%nat; 808%nat]
  /\ map String.length (map body (sendMessage (fun _ => true) (fun k => Nat.eqb k 1)
                                     "tg:-100" (repeatChar (4096 + 4096 + 808) "a")))
     = [4096%nat; 4096%nat]
  /\ map String.length (map body (sendMessage (fun k => Nat.eqb k 0) (fun _ => false)
                                     "tg:-100" (repeatChar (4096 + 4096 + 808) "a")))
     = [4096%nat].
Proof. vm_compute. repeat split; reflexivity. Qed.

(** X15. A reply to an inbound message goes back to the chat the message
    came from: the chat identifier the handlers give to a message is one
    the channel owns, stripping its prefix gives the number of the chat,
    and [sendMessage] and [sendMessageWithId] address every call to that
    number; the call of [sendMessageWithId] is the first call of
    [sendMessage]. *)
Theorem reply_reaches_origin (ctx : Telegram.Ctx) (bot rejects : nat -> bool)
    (text : string) :
  let jid := Telegram.chatJidOf ctx in
  ownsJid jid = true
  /\ numericIdOf jid = pretty (Telegram.chatId (Telegram.chat ctx))
  /\ Forall (fun call => chat_id call = pretty (Telegram.chatId (Telegram.chat ctx)))
            (sendMessage bot rejects jid text)
  /\ sendMessageWithId (bot 0%nat) jid text = head (sendMessage bot rejects jid text).
Proof.
  intros jid.
  assert (Hown : ownsJid jid = true).
  { unfold ownsJid, Js.startsWith, jid, Telegram.chatJidOf. simpl.
    now destruct (pretty _). }
  assert (Hid : numericIdOf jid = pretty (Telegram.chatId (Telegram.chat ctx))).
  { unfold numericIdOf. fold (ownsJid jid). now rewrite Hown. }
  repeat split; try assumption.
  - unfold sendMessage. destruct (bot 0%nat); simpl; [|constructor].
    destruct (attempt_prefix bot rejects 0 (numericIdOf jid) (chunksOf text)) as [k Hk].
    rewrite <- Hid.
    assert (Hall : Forall (fun call => chat_id call = numericIdOf jid)
                          (map (mkCall (numericIdOf jid)) (chunksOf text))).
    { apply Forall_map. now apply Forall_true. }
    rewrite Hk in Hall. now apply Forall_app in Hall.
  - unfold sendMessage, sendMessageWithId, chunksOf.
    destruct (bot 0%nat) eqn:Hb; simpl; [|reflexivity].
    destruct (String.length text <=? MAX_LENGTH)%nat eqn:Hl.
    + apply Nat.leb_le in Hl. simpl. rewrite Hb. simpl. unfold Js.slice. simpl.
      rewrite Nat.sub_0_r, take_all by exact Hl. reflexivity.
    + apply Nat.leb_gt in Hl. destruct (String.length text) as [|n] eqn:Hn; [lia|].
      rewrite chunkLoop_S, Hn. simpl. rewrite Hb. reflexivity.
Qed.

(** *** The polling loop *)

Lemma increasing_snoc (l : list Z) (u : Z) :
  increasing l -> Forall (fun h => h < u) l -> increasing (l ++ [u]).
Proof.
  induction l as [|x l IH]; simpl; intros Hi Hf; [split; constructor|].
  destruct Hi as [Hx Hl]. apply Forall_cons in Hf as [Hxu Hlu]. split.
  - apply Forall_app. split; [exact Hx | now constructor].
  - now apply IH.
Qed.

Lemma increasing_NoDup (l : list Z) : increasing l -> NoDup l.
Proof.
  induction l as [|x l IH]; simpl; intros Hi; [constructor|].
  destruct Hi as [Hx Hl]. constructor; [|now apply IH].
  intros Hin. rewrite Forall_forall in Hx. specialize (Hx x Hin). lia.
Qed.

Lemma loopHead_Turn (i : nat) (p : Poller) :
  Forall (fun h => h < offset p) (handled p) -> increasing (handled p) ->
  Turn i p (loopHead i p).
Proof.
  intros Hb Hi. unfold Turn, loopHead.
  destruct (stopping p); simpl; (split; [reflexivity|]);
    (split; [eexists; split; [reflexivity | exact I || reflexivity] | now split]).
Qed.

Lemma nextUpdate_Turn (i : nat) (rest : list Z) (p : Poller) :
  Forall (fun h => h < offset p) (handled p) -> increasing (handled p) ->
  ascendingFrom (offset p) rest = true ->
  Turn i p (nextUpdate i rest p).
Proof.
  revert p; induction rest as [|u rest IH]; intros p Hb Hi Ha; simpl.
  - now apply loopHead_Turn.
  - simpl in Ha. apply andb_prop in Ha as [Hu Ha]. apply Z.leb_le in Hu.
    assert (Hb' : Forall (fun h => h < u + 1) (handled p)).
    { eapply Forall_impl; [exact Hb|]. simpl. intros h Hh. lia. }
    destruct (stopping p).
    + apply (IH (mkPoller (u + 1) true (connecting p) (loops p) (requested p)
                          (handled p) (waits p))); assumption.
    + unfold Turn. simpl. split; [reflexivity|]. split; [eauto|]. split.
      * apply Forall_app. split; [exact Hb'|]. constructor; [lia | constructor].
      * apply increasing_snoc; [exact Hi|].
        eapply Forall_impl; [exact Hb|]. simpl. intros h Hh. lia.
Qed.

(** A turn of a call of [pollLoop] that has not returned keeps the
    invariant. *)
Lemma Turn_PollInv (i : nat) (p q : Poller) (ph : Phase) :
  PollInv p -> loops p !! i = Some ph -> ph <> Exited -> Turn i p q -> PollInv q.
Proof.
  intros (Hb & Hi & Hc & Hall & (k & Hk) & Hph) Hl Hne (Hcq & (ph' & Hlq & Hok) & Hbq & Hiq).
  assert (Hothers : forall j x, loops p !! j = Some x -> j <> i -> x = Exited).
  { intros j x Hj Hji. destruct (decide (i = k)) as [-> | Hik]; [now apply (Hk j)|].
    destruct Hne. now apply (Hk i). }
  assert (Hnew : forall j x, loops q !! j = Some x -> j <> i -> x = Exited).
  { intros j x Hj Hji. rewrite Hlq in Hj.
    apply list_lookup_insert_Some in Hj as [(-> & _) | (_ & Hj)]; [congruence|].
    now apply (Hothers j). }
  assert (Hzero : connecting p <> 1%nat).
  { intros H1. specialize (Hall H1). rewrite Forall_lookup in Hall.
    destruct Hne. now apply (Hall i). }
  unfold PollInv. rewrite Hcq. repeat split; try assumption.
  - intros H1. now destruct Hzero.
  - now exists i.
  - apply Forall_lookup. intros j x Hj. destruct (decide (j = i)) as [-> | Hji].
    + rewrite Hlq in Hj.
      apply list_lookup_insert_Some in Hj as [(_ & <- & _) | (Hii & _)];
        [exact Hok | congruence].
    + now rewrite (Hnew j x Hj Hji).
Qed.

Lemma step_PollInv (p : Poller) (e : Event) :
  PollInv p -> obeys p [e] = true -> PollInv (step p e).
Proof.
  intros HI Ho. simpl in Ho. rewrite andb_true_r in Ho.
  pose proof HI as (Hb & Hi & Hc & Hall & (k & Hk) & Hph).
  destruct e as [|ok| |i updates|i message|i ok|i]; simpl.
  - apply andb_prop in Ho as [Hn Hex]. apply Nat.eqb_eq in Hn.
    unfold PollInv. simpl. rewrite Hn. repeat split; try assumption; try lia.
    + intros _. apply List.Forall_forall. intros ph Hin.
      rewrite forallb_forall in Hex. specialize (Hex ph Hin). now destruct ph.
    + now exists k.
  - destruct (connecting p) as [|n] eqn:Hn; [exact HI|].
    assert (n = 0%nat) as -> by lia. specialize (Hall eq_refl).
    destruct (ok && negb (stopping p)) eqn:Hok.
    + apply andb_prop in Hok as [_ Hs]. apply negb_true_iff in Hs.
      unfold loopHead. rewrite Hs. unfold PollInv, withPhase. simpl.
      assert (Hins : <[List.length (loops p) := AwaitingUpdates (offset p)]>
                       (loops p ++ [Exited])
                     = loops p ++ [AwaitingUpdates (offset p)]).
      { rewrite insert_app_r_alt by lia. now rewrite Nat.sub_diag. }
      rewrite Hins. repeat split; try assumption; try lia; try discriminate.
      * exists (List.length (loops p)). intros j ph Hj Hne.
        apply lookup_app_Some in Hj as [Hj | [Hge Hj]].
        -- rewrite Forall_lookup in Hall. now apply (Hall j).
        -- destruct (j - List.length (loops p))%nat as [|m] eqn:Hm; [lia|].
           now destruct m.
      * apply Forall_app. split; [exact Hph|]. constructor; [reflexivity | constructor].
    + unfold PollInv. simpl. repeat split; try assumption; try lia; try discriminate.
      now exists k.
  - unfold PollInv. simpl. repeat split; try assumption. now exists k.
  - destruct (loops p !! i) as [[|asked|rest|ms]|] eqn:Hl; try exact HI.
    apply (Turn_PollInv i p _ (AwaitingUpdates asked) HI Hl); [discriminate|].
    apply nextUpdate_Turn; try assumption.
    rewrite Forall_lookup in Hph. specialize (Hph i _ Hl). simpl in Hph. now subst asked.
  - destruct (loops p !! i) as [[|asked|rest|ms]|] eqn:Hl; try exact HI.
    apply (Turn_PollInv i p _ (AwaitingUpdates asked) HI Hl); [discriminate|].
    unfold Turn. destruct (stopping p); simpl;
      (split; [reflexivity|]); (split; [eexists; split; [reflexivity | exact I] | now split]).
  - destruct (loops p !! i) as [[|asked|rest|ms]|] eqn:Hl; try exact HI.
    apply (Turn_PollInv i p _ (Handling rest) HI Hl); [discriminate|].
    apply nextUpdate_Turn; try assumption.
    rewrite Forall_lookup in Hph. exact (Hph i _ Hl).
  - destruct (loops p !! i) as [[|asked|rest|ms]|] eqn:Hl; try exact HI.
    apply (Turn_PollInv i p _ (Waiting ms) HI Hl); [discriminate|].
    now apply loopHead_Turn.
Qed.

Lemma run_PollInv (tr : list Event) (p : Poller) :
  PollInv p -> obeys p tr = true -> PollInv (run p tr).
Proof.
  revert p; induction tr as [|e tr IH]; intros p HI Ho; [exact HI|].
  simpl in *. apply andb_prop in Ho as [He Htr].
  apply IH; [|exact Htr]. apply step_PollInv; [exact HI|]. simpl. now rewrite He.
Qed.

(** X16. No update is handled twice, as long as [getUpdates] keeps its
    contract (updates in ascending order, none below the offset asked
    for) and [connect] is not called again before the polling loop of the
    call before has returned: the updates given to [handleUpdate] are then
    strictly increasing, whether the handlers return or throw, whatever
    polling errors and pauses come in between, and across disconnecting
    and connecting again; an update whose handler threw is not retried.
    A second [connect] while a polling loop is still running leaves two
    loops polling from the same offset, and an update can then be handled
    by both. *)
Theorem no_update_handled_twice (tr : list Event) :
  obeys initial tr = true ->
  increasing (handled (run initial tr)) /\ NoDup (handled (run initial tr)).
Proof.
  intros Ho.
  assert (HI : PollInv (run initial tr)).
  { apply run_PollInv; [|exact Ho]. unfold PollInv. simpl.
    repeat split; try constructor; try lia. exists 0%nat. intros j ph Hj. discriminate. }
  destruct HI as (_ & Hi & _). split; [exact Hi | now apply increasing_NoDup].
Qed.

Lemma no_update_handled_twice_witness :
  handled (run initial poll_trace) = [7; 8; 9; 12]
  /\ NoDup (handled (run initial poll_trace)).
Proof.
  split; [reflexivity|]. apply (no_update_handled_twice poll_trace). reflexivity.
Defined.

Example reconnect_ex :
  obeys initial reconnect_trace = false
  /\ handled (run initial reconnect_trace) = [7; 7].
Proof. split; reflexivity. Qed.

Lemma last_cons_default (u : Z) (rest : list Z) (o : Z) :
  match last (u :: rest) with Some v => v + 1 | None => o end
  = match last rest with Some v => v + 1 | None => u + 1 end.
Proof.
  destruct rest as [|v rest]; [reflexivity|]. simpl.
  destruct (last (v :: rest)) eqn:Hl; [reflexivity|]. now apply last_None in Hl.
Qed.

Lemma nextUpdate_stopped (i : nat) (rest : list Z) (p : Poller) :
  stopping p = true ->
  let q := nextUpdate i rest p in
  stopping q = true /\ handled q = handled p /\ requested q = requested p
  /\ loops q = <[i := Exited]> (loops p)
  /\ offset q = match last rest with Some u => u + 1 | None => offset p end.
Proof.
  revert p; induction rest as [|u rest IH]; intros p Hs; simpl.
  - unfold loopHead. rewrite Hs. easy.
  - rewrite Hs.
    destruct (IH (mkPoller (u + 1) true (connecting p) (loops p) (requested p)
                           (handled p) (waits p)) eq_refl)
      as (H1 & H2 & H3 & H4 & H5).
    simpl in *. rewrite last_cons_default. easy.
Qed.

Lemma step_stopped (p : Poller) (e : Event) :
  stopping p = true -> isConnect e = false ->
  stopping (step p e) = true /\ handled (step p e) = handled p
  /\ requested (step p e) = requested p.
Proof.
  intros Hs Hc. destruct e as [|ok| |i updates|i message|i ok|i]; simpl;
    try discriminate; try easy.
  - destruct (connecting p); [easy|]. rewrite Hs, andb_false_r. easy.
  - destruct (loops p !! i) as [[|asked|rest|ms]|]; try easy.
    destruct (nextUpdate_stopped i updates p Hs) as (-> & -> & -> & _). easy.
  - destruct (loops p !! i) as [[|asked|rest|ms]|]; try easy. rewrite Hs. easy.
  - destruct (loops p !! i) as [[|asked|rest|ms]|]; try easy.
    destruct (nextUpdate_stopped i rest p Hs) as (-> & -> & -> & _). easy.
  - destruct (loops p !! i) as [[|asked|rest|ms]|]; try easy.
    unfold loopHead. rewrite Hs. easy.
Qed.

Lemma run_stopped (tr : list Event) (p : Poller) :
  stopping p = true -> forallb (fun e => negb (isConnect e)) tr = true ->
  handled (run p tr) = handled p /\ requested (run p tr) = requested p.
Proof.
  revert p; induction tr as [|e tr IH]; intros p Hs Hq; [easy|].
  simpl in *. apply andb_prop in Hq as [He Hq]. apply negb_true_iff in He.
  destruct (step_stopped p e Hs He) as (Hs' & <- & <-). now apply IH.
Qed.

(** X17. After [disconnect], and until [connect] is called again, no
    update is given to [handleUpdate] and no more updates are asked for,
    whatever happens next and however many polling loops there are.  A
    loop that was handling a batch passes over the updates left of it, and
    a loop that was waiting for updates over all it gets: the offset moves
    beyond the last of them, and the loop returns. *)
Theorem nothing_handled_after_disconnect (tr later : list Event) :
  forallb (fun e => negb (isConnect e)) later = true ->
  let p := run initial tr in
  let q := run initial (tr ++ Disconnect :: later) in
  handled q = handled p /\ requested q = requested p
  /\ (forall i rest ok, loops p !! i = Some (Handling rest) ->
        let r := run initial (tr ++ [Disconnect; HandlerSettles i ok]) in
        loops r !! i = Some Exited /\ handled r = handled p
        /\ offset r = match last rest with Some u => u + 1 | None => offset p end)
  /\ (forall i asked updates, loops p !! i = Some (AwaitingUpdates asked) ->
        let r := run initial (tr ++ [Disconnect; GetUpdatesResolves i updates]) in
        loops r !! i = Some Exited /\ handled r = handled p
        /\ offset r = match last updates with Some u => u + 1 | None => offset p end).
Proof.
  intros Hq p q.
  set (d := mkPoller (offset p) true (connecting p) (loops p) (requested p) (handled p)
                     (waits p)).
  assert (Hrun : forall evs, run initial (tr ++ Disconnect :: evs) = run d evs).
  { intros evs. subst d p. unfold run. now rewrite fold_left_app. }
  destruct (run_stopped later d eq_refl Hq) as [Hh Hr].
  subst q. rewrite Hrun, Hh, Hr. split; [reflexivity|]. split; [reflexivity|].
  assert (Hskip : forall i updates, is_Some (loops p !! i) ->
            let r := nextUpdate i updates d in
            loops r !! i = Some Exited /\ handled r = handled p
            /\ offset r = match last updates with Some u => u + 1 | None => offset p end).
  { intros i updates Hi.
    destruct (nextUpdate_stopped i updates d eq_refl) as (_ & H2 & _ & H4 & H5).
    cbv zeta. rewrite H4, H2, H5. split; [|now split].
    apply list_lookup_insert_eq. now apply lookup_lt_is_Some. }
  split.
  - intros i rest ok Hl. cbv zeta. rewrite Hrun.
    change (run d [HandlerSettles i ok]) with (step d (HandlerSettles i ok)).
    unfold step. change (loops d) with (loops p). rewrite Hl. now apply Hskip.
  - intros i asked updates Hl. cbv zeta. rewrite Hrun.
    change (run d [GetUpdatesResolves i updates])
      with (step d (GetUpdatesResolves i updates)).
    unfold step. change (loops d) with (loops p). rewrite Hl. now apply Hskip.
Qed.

(** An instance: the channel is disconnected while the first of three
    updates is being handled. *)
Lemma nothing_handled_after_disconnect_witness :
  let tr := [Connect; Initialised true; GetUpdatesResolves 0 [7; 8; 9]] in
  let later := [HandlerSettles 0 true; Initialised true; WaitOver 0] in
  let p := run initial tr in
  let q := run initial (tr ++ Disconnect :: later) in
  handled q = handled p /\ requested q = requested p.
Proof.
  intros tr later p q.
  assert (Hq : forallb (fun e => negb (isConnect e)) later = true) by reflexivity.
  pose proof (nothing_handled_after_disconnect tr later Hq) as (H1 & H2 & _).
  split; [exact H1 | exact H2].
Defined.

Example disconnect_ex :
  loops (run initial poll_trace) = [Exited] /\ offset (run initial poll_trace) = 13
  /\ requested (run initial poll_trace) = [0; 9; 9]
  /\ handled (run initial poll_trace) = [7; 8; 9; 12].
Proof. repeat split; reflexivity. Qed.

(** X19. A text that begins with a slash never reaches the router: for
    such an update the handlers produce nothing but replies ([/chatid]
    and [/ping] answer, any other command is dropped), and neither chat
    metadata nor a message is stored. *)
Theorem slash_texts_never_reach_router (ASSISTANT_NAME : string)
    (TRIGGER_PATTERN_test : string -> bool) (RegisteredGroup : Type)
    (groups : gmap string RegisteredGroup) (ctx : Telegram.Ctx)
    (voice : Telegram.VoiceOutcome) (text : string) (entities : list Telegram.Entity)
    (command : option string) :
  Telegram.kind ctx = Telegram.Text text entities command ->
  Js.startsWith "/" text = true ->
  Forall (fun e => exists t, e = Telegram.Reply t)
         (Telegram.handleUpdate ASSISTANT_NAME TRIGGER_PATTERN_test groups ctx voice).
Proof.
  intros Hk Hs. unfold Telegram.handleUpdate.
  destruct (negb (Telegram.isAllowedSender groups ctx)); [constructor|]. rewrite Hk.
  destruct (bool_decide (command = Some "chatid")).
  - unfold Telegram.onChatIdCommand. repeat constructor. eauto.
  - destruct (bool_decide (command = Some "ping")); [repeat constructor; eauto|].
    unfold Telegram.onText. rewrite Hs. constructor.
Qed.

Lemma slash_texts_never_reach_router_witness :
  Forall (fun e => exists t, e = Telegram.Reply t)
    (Telegram.handleUpdate "Smith" (fun _ => false) ({[ "tg:5" := tt ]} : gmap string unit)
       (Telegram.mkCtx (Telegram.mkChat 5 Telegram.Private None) None 0 1 None
                       (Some "SmithBot") (Telegram.Text "/ping" [] (Some "ping")))
       Telegram.NotOk).
Proof.
  apply (slash_texts_never_reach_router "Smith" (fun _ => false) unit
           ({[ "tg:5" := tt ]})
           (Telegram.mkCtx (Telegram.mkChat 5 Telegram.Private None) None 0 1 None
              (Some "SmithBot") (Telegram.Text "/ping" [] (Some "ping")))
           Telegram.NotOk "/ping" [] (Some "ping")); reflexivity.
Defined.

End TelegramOutFacts.
